(** * Gousto meal planner: ingredient aggregation and recipe extraction

    A shallow embedding of three programs of the repository:

    - the ingredient utilities ([parseQuantityFromLabel],
      [getCleanDisplayName], [areUnitsCompatible], [combineIngredients]);
    - the script [scripts/parse-recetas.js] ([slugify], [isIndexEntry],
      [isRecipeTitle], [cleanTitle], [looksLikeIngredient],
      [separateContent], [parseRecipes] and the mapping done by [main]);
    - what the recipe page computes from a record of the script
      ([hasSeparation] and the lists it renders).

    JavaScript strings are sequences of UTF-16 code units, numbers are
    IEEE 754 binary64 values (Rocq's primitive floats), regular expressions
    are terms of a small syntax run by a backtracking matcher that follows
    the ECMAScript matching rules for the constructs the programs use.

    Part I holds the definitions, Part II the properties. *)

From Stdlib Require Import String Ascii.
From Stdlib Require Import NArith ZArith QArith List Bool Lia Permutation Sorted.
From Stdlib Require Import Floats.PrimFloat Numbers.Cyclic.Int63.Uint63.
From Stdlib Require Import Floats.SpecFloat Floats.FloatOps Floats.FloatAxioms.
Import ListNotations.
Close Scope Q_scope.

Set Implicit Arguments.

(* ===================================================================== *)
(** * Part I: definitions *)
(* ===================================================================== *)

(* --------------------------------------------------------------------- *)
(** ** JavaScript strings *)
(* --------------------------------------------------------------------- *)

(** A code unit of a JavaScript string (0 .. 65535). *)
Definition char := N.
Bind Scope N_scope with char.

(** A JavaScript string: its list of UTF-16 code units. *)
Definition jsstring := list char.

(** Decoding of the UTF-8 bytes of a source literal into code units (one,
    two and three byte sequences: the Basic Multilingual Plane, which holds
    every character the two programs name). *)
Fixpoint utf8 (bs : list N) : jsstring :=
  match bs with
  | [] => []
  | b0 :: r0 =>
      if (b0 <? 128)%N then b0 :: utf8 r0
      else if (b0 <? 224)%N then
        match r0 with
        | b1 :: r1 => ((b0 mod 32) * 64 + b1 mod 64)%N :: utf8 r1
        | [] => []
        end
      else
        match r0 with
        | b1 :: b2 :: r2 =>
            ((b0 mod 16) * 4096 + (b1 mod 64) * 64 + b2 mod 64)%N :: utf8 r2
        | _ => []
        end
  end.

(** The JavaScript string written by a literal of the source. *)
Definition js (s : String.string) : jsstring :=
  utf8 (map Ascii.N_of_ascii (String.list_ascii_of_string s)).
Arguments js s%_string.

Definition str_eqb (a b : jsstring) : bool :=
  if list_eq_dec N.eq_dec a b then true else false.

Definition in_range (lo hi c : char) : bool := ((lo <=? c) && (c <=? hi))%N.

(** [\s] of a regular expression, which is also what [trim] strips:
    WhiteSpace and LineTerminator code points. *)
Definition isSpace (c : char) : bool :=
  in_range 9 13 c || (c =? 32)%N || (c =? 160)%N || (c =? 5760)%N
  || in_range 8192 8202 c || (c =? 8232)%N || (c =? 8233)%N
  || (c =? 8239)%N || (c =? 8287)%N || (c =? 12288)%N || (c =? 65279)%N.

(** [\d] *)
Definition isDigit (c : char) : bool := in_range 48 57 c.

Definition isAsciiUpper (c : char) : bool := in_range 65 90 c.
Definition isAsciiLower (c : char) : bool := in_range 97 122 c.

(** [\w], the word characters that [\b] looks at. *)
Definition isWord (c : char) : bool :=
  isAsciiUpper c || isAsciiLower c || isDigit c || (c =? 95)%N.

Definition isAscii (c : char) : bool := (c <? 128)%N.

Definition lowerAscii (c : char) : char := if isAsciiUpper c then (c + 32)%N else c.
Definition upperAscii (c : char) : char := if isAsciiLower c then (c - 32)%N else c.

Fixpoint dropWhile (p : char -> bool) (s : jsstring) : jsstring :=
  match s with
  | [] => []
  | c :: t => if p c then dropWhile p t else s
  end.

(** [String.prototype.trim] *)
Definition trim (s : jsstring) : jsstring :=
  rev (dropWhile isSpace (rev (dropWhile isSpace s))).

(** [s.split(sep)] for a separator of one code unit: never an empty list. *)
Fixpoint split (sep : char) (s : jsstring) : list jsstring :=
  match s with
  | [] => [[]]
  | c :: t =>
      if (c =? sep)%N then [] :: split sep t
      else match split sep t with
           | l :: ls => (c :: l) :: ls
           | [] => [[c]]
           end
  end.

(** [lines.join(sep)] *)
Fixpoint join (sep : jsstring) (l : list jsstring) : jsstring :=
  match l with
  | [] => []
  | [x] => x
  | x :: t => x ++ sep ++ join sep t
  end.

(** [s.startsWith(p)] *)
Fixpoint startsWith (s p : jsstring) : bool :=
  match p, s with
  | [], _ => true
  | a :: p', b :: s' => (a =? b)%N && startsWith s' p'
  | _ :: _, [] => false
  end.

(** [s.includes(c)] for a one code unit needle. *)
Definition includes (s : jsstring) (c : char) : bool := existsb (N.eqb c) s.

(** [s.charAt(0)]: the empty string when [s] is empty. *)
Definition charAt0 (s : jsstring) : jsstring :=
  match s with [] => [] | c :: _ => [c] end.

(** [s.slice(1)] *)
Definition slice1 (s : jsstring) : jsstring := tl s.

(** The value of a run of decimal digits. *)
Definition digitsValue (s : jsstring) : Z :=
  fold_left (fun acc c => (10 * acc + (Z.of_N c - 48))%Z) s 0%Z.

(* --------------------------------------------------------------------- *)
(** ** What the host provides *)
(* --------------------------------------------------------------------- *)

(** The parts of the JavaScript runtime that the programs call and that are
    tables or locale data rather than code of the repository. Each built-in
    below is defined on the inputs where its value is fixed by simple rules
    (ASCII text, short decimal numerals) and refers to the host elsewhere. *)
Class Host := {
  (** case mapping and canonical decomposition of text with a code unit
      outside ASCII *)
  lowerUnicode : jsstring -> jsstring;
  upperUnicode : jsstring -> jsstring;
  nfdUnicode : jsstring -> jsstring;
  (** [a.localeCompare(b)] (and with the locale ['es']) *)
  localeCompare : jsstring -> jsstring -> Z;
  (** [parseFloat] and [parseInt] where the short numeral rule below does
      not apply *)
  strtod : jsstring -> float;
  strtoi : jsstring -> float
}.

Section Builtins.
Context {H : Host}.

(** [s.toLowerCase()] *)
Definition toLowerCase (s : jsstring) : jsstring :=
  if forallb isAscii s then map lowerAscii s else lowerUnicode s.

(** [s.toUpperCase()] *)
Definition toUpperCase (s : jsstring) : jsstring :=
  if forallb isAscii s then map upperAscii s else upperUnicode s.

(** [s.normalize('NFD')] *)
Definition normalizeNFD (s : jsstring) : jsstring :=
  if forallb isAscii s then s else nfdUnicode s.

(** The binary64 value of a natural number below 2^53 (exact). *)
Definition floatOfZ (n : Z) : float := PrimFloat.of_uint63 (Uint63.of_Z n).

(** A numeral [digits] or [digits.digits]: its digits without the point
    and the number of digits after the point. *)
Definition decimalShape (s : jsstring) : option (jsstring * nat) :=
  let ip := firstn (length s - length (dropWhile isDigit s)) s in
  match ip, dropWhile isDigit s with
  | _ :: _, [] => Some (ip, O)
  | _ :: _, 46%N :: fp =>
      match fp with
      | _ :: _ => if forallb isDigit fp then Some (ip ++ fp, length fp) else None
      | [] => None
      end
  | _, _ => None
  end.

(** [parseFloat(s)]. For a numeral with digits [d] (value below 2^53) and
    [k] digits after the point, at most 18, the nearest binary64 value of
    the numeral is the correctly rounded quotient of the two exactly
    represented integers [d] and [10^k] (both fit the 63 bit integers
    that [floatOfZ] converts). *)
Definition parseFloat (s : jsstring) : float :=
  match decimalShape s with
  | Some (d, k) =>
      if ((digitsValue d <? 2 ^ 53)%Z && (k <=? 18)%nat)%bool
      then PrimFloat.div (floatOfZ (digitsValue d)) (floatOfZ (10 ^ Z.of_nat k))
      else strtod s
  | None => strtod s
  end.

(** [parseInt(s)]: exact for a run of digits whose value is below 2^53. *)
Definition parseInt (s : jsstring) : float :=
  match s with
  | _ :: _ =>
      if (forallb isDigit s && (digitsValue s <? 2 ^ 53)%Z)%bool
      then floatOfZ (digitsValue s)
      else strtoi s
  | [] => strtoi s
  end.
End Builtins.

(* --------------------------------------------------------------------- *)
(** ** Regular expressions *)
(* --------------------------------------------------------------------- *)

(** The syntax of the regular expressions of the two programs. A character
    class, a literal character and a literal under the [i] flag are all a
    [Chr] with the predicate of the code units they accept. *)
Inductive re : Type :=
| Eps : re
| Chr : (char -> bool) -> re
| Seq : re -> re -> re
| Alt : re -> re -> re
| Star : re -> re
| Group : nat -> re -> re
| Bol : re
| Eol : re
| WordB : re.

(** A position of the matcher in the subject: the code unit before it (none
    at index 0), the text after it and the captures recorded so far. *)
Record mstate := MState {
  prev : option char;
  rest : jsstring;
  caps : list (nat * jsstring)
}.

Definition advance (c : char) (t : jsstring) (s : mstate) : mstate :=
  {| prev := Some c; rest := t; caps := caps s |}.

(** The text consumed between two positions of one run. *)
Definition consumed (s s' : mstate) : jsstring :=
  firstn (length (rest s) - length (rest s')) (rest s).

Definition setCap (i : nat) (s s' : mstate) : mstate :=
  {| prev := prev s'; rest := rest s'; caps := (i, consumed s s') :: caps s' |}.

Definition wordBefore (s : mstate) : bool :=
  match prev s with Some c => isWord c | None => false end.

Definition wordAfter (s : mstate) : bool :=
  match rest s with c :: _ => isWord c | [] => false end.

(** The iterations of a [Star] whose body is matched by [body]: greedy, and
    an iteration that consumed nothing is given up. The fuel is the length
    of the text left, which bounds the number of iterations. *)
Fixpoint starLoop {A : Type}
  (body : mstate -> (mstate -> option A) -> option A)
  (k : mstate -> option A) (n : nat) (s0 : mstate) {struct n} : option A :=
  match n with
  | O => k s0
  | S n' =>
      match body s0
              (fun s1 => if (length (rest s1) <? length (rest s0))%nat
                         then starLoop body k n' s1 else None) with
      | Some x => Some x
      | None => k s0
      end
  end.

(** The backtracking matcher, in continuation-passing style: alternatives
    are tried left to right and the first way to reach the end wins. *)
Fixpoint rmatch {A : Type} (r : re) (s : mstate) (k : mstate -> option A)
  {struct r} : option A :=
  match r with
  | Eps => k s
  | Chr p =>
      match rest s with
      | c :: t => if p c then k (advance c t s) else None
      | [] => None
      end
  | Seq r1 r2 => rmatch r1 s (fun s1 => rmatch r2 s1 k)
  | Alt r1 r2 =>
      match rmatch r1 s k with
      | Some x => Some x
      | None => rmatch r2 s k
      end
  | Star r1 => starLoop (rmatch r1) k (length (rest s)) s
  | Group i r1 => rmatch r1 s (fun s1 => k (setCap i s s1))
  | Bol => match prev s with None => k s | Some _ => None end
  | Eol => match rest s with [] => k s | _ :: _ => None end
  | WordB => if xorb (wordBefore s) (wordAfter s) then k s else None
  end.

(** The match found at one start position, if any. *)
Definition matchAt (r : re) (p : option char) (t : jsstring) : option mstate :=
  rmatch r {| prev := p; rest := t; caps := [] |} (fun s => Some s).

(** The result of [RegExp.prototype.exec]. *)
Record rmatched := RMatched {
  m_index : nat;
  m_text : jsstring;
  m_groups : list (nat * jsstring);
  m_tail : jsstring
}.

(** The leftmost match at or after a position. *)
Fixpoint searchFrom (r : re) (p : option char) (t : jsstring) (i : nat)
  {struct t} : option rmatched :=
  match matchAt r p t with
  | Some s' =>
      Some {| m_index := i;
              m_text := firstn (length t - length (rest s')) t;
              m_groups := caps s';
              m_tail := rest s' |}
  | None =>
      match t with
      | [] => None
      | c :: t' => searchFrom r (Some c) t' (S i)
      end
  end.

(** [s.match(r)] for a regular expression without the [g] flag. *)
Definition exec (r : re) (s : jsstring) : option rmatched := searchFrom r None s 0.

(** [r.test(s)] *)
Definition test (r : re) (s : jsstring) : bool :=
  match exec r s with Some _ => true | None => false end.

(** The text of a capture group of a match. *)
Definition group (i : nat) (m : rmatched) : jsstring :=
  match find (fun e => Nat.eqb (fst e) i) (m_groups m) with
  | Some e => snd e
  | None => []
  end.

(** [s.replace(r, rep)] for a regular expression without the [g] flag. *)
Definition replaceFirst (r : re) (rep s : jsstring) : jsstring :=
  match exec r s with
  | Some m => firstn (m_index m) s ++ rep ++ m_tail m
  | None => s
  end.

(** [s.replace(r, rep)] with the [g] flag: after a match the search resumes
    where the match ended, one code unit further after an empty match. *)
Fixpoint replaceAllFrom (fuel : nat) (r : re) (rep : jsstring)
  (p : option char) (t : jsstring) {struct fuel} : jsstring :=
  match fuel with
  | O => t
  | S fuel' =>
      match matchAt r p t with
      | Some s' =>
          if (length (rest s') <? length t)%nat
          then rep ++ replaceAllFrom fuel' r rep (prev s') (rest s')
          else rep ++ match t with
                      | [] => []
                      | c :: t' => c :: replaceAllFrom fuel' r rep (Some c) t'
                      end
      | None =>
          match t with
          | [] => []
          | c :: t' => c :: replaceAllFrom fuel' r rep (Some c) t'
          end
      end
  end.

Definition replaceAll (r : re) (rep s : jsstring) : jsstring :=
  replaceAllFrom (S (length s)) r rep None s.

(** [s.match(r)] with the [g] flag: the texts of all the matches. *)
Fixpoint matchAllFrom (fuel : nat) (r : re) (p : option char) (t : jsstring)
  {struct fuel} : list jsstring :=
  match fuel with
  | O => []
  | S fuel' =>
      match matchAt r p t with
      | Some s' =>
          if (length (rest s') <? length t)%nat
          then firstn (length t - length (rest s')) t
                 :: matchAllFrom fuel' r (prev s') (rest s')
          else [] :: match t with
                     | [] => []
                     | c :: t' => matchAllFrom fuel' r (Some c) t'
                     end
      | None =>
          match t with
          | [] => []
          | c :: t' => matchAllFrom fuel' r (Some c) t'
          end
      end
  end.

Definition matchAll (r : re) (s : jsstring) : list jsstring :=
  matchAllFrom (S (length s)) r None s.

(** Writing regular expressions. *)
Definition chr (c : char) : re := Chr (N.eqb c).

(** The other case of a letter that the [i] flag identifies with it: ASCII
    letters, and the Latin-1 letters (the multiplication and division signs
    lie between them and have no case). *)
Definition swapCase (c : char) : char :=
  if isAsciiUpper c then (c + 32)%N
  else if isAsciiLower c then (c - 32)%N
  else if (in_range 192 222 c && negb (c =? 215)%N)%bool then (c + 32)%N
  else if (in_range 224 254 c && negb (c =? 247)%N)%bool then (c - 32)%N
  else c.

(** A literal character under the [i] flag. *)
Definition chrI (c : char) : re := Chr (fun d => (d =? c)%N || (d =? swapCase c)%N).

Fixpoint seqs (l : list re) : re :=
  match l with
  | [] => Eps
  | [r] => r
  | r :: t => Seq r (seqs t)
  end.

Fixpoint alts (l : list re) : re :=
  match l with
  | [] => Chr (fun _ => false)
  | [r] => r
  | r :: t => Alt r (alts t)
  end.

(** A literal text, and a literal text under the [i] flag. *)
Definition lit (s : jsstring) : re := seqs (map chr s).
Definition litI (s : jsstring) : re := seqs (map chrI s).

Definition plus (r : re) : re := Seq r (Star r).
Definition opt (r : re) : re := Alt r Eps.

Definition spaces : re := Star (Chr isSpace).       (* \s* *)
Definition spaces1 : re := plus (Chr isSpace).      (* \s+ *)
Definition digits1 : re := plus (Chr isDigit).      (* \d+ *)

(** The code unit of a one character literal. *)
Definition ch (s : string) : char := hd 0%N (js s).
Arguments ch s%_string.

(* --------------------------------------------------------------------- *)
(** ** JavaScript [Map] and [Set] with string keys *)
(* --------------------------------------------------------------------- *)

(** A [Map] keeps its entries in the order in which their keys were first
    set; it is modelled as the list of its entries in that order. *)
Section JsMap.
Variable V : Type.

Definition jsmap := list (jsstring * V).

(** [m.has(k)] *)
Fixpoint map_has (k : jsstring) (m : jsmap) : bool :=
  match m with
  | [] => false
  | (k', _) :: t => str_eqb k' k || map_has k t
  end.

(** [m.get(k)] *)
Fixpoint map_get (k : jsstring) (m : jsmap) : option V :=
  match m with
  | [] => None
  | (k', v) :: t => if str_eqb k' k then Some v else map_get k t
  end.

(** [m.set(k, v)]: a present key keeps its place. *)
Fixpoint map_set (k : jsstring) (v : V) (m : jsmap) : jsmap :=
  match m with
  | [] => [(k, v)]
  | (k', v') :: t =>
      if str_eqb k' k then (k', v) :: t else (k', v') :: map_set k v t
  end.

(** A mutation of the object stored under [k], as in [m.get(k).push(x)]. *)
Fixpoint map_update (k : jsstring) (f : V -> V) (m : jsmap) : jsmap :=
  match m with
  | [] => []
  | (k', v') :: t =>
      if str_eqb k' k then (k', f v') :: t else (k', v') :: map_update k f t
  end.
End JsMap.

(** [new Set(l)]: the distinct strings of [l], in the order in which they
    first occur; its [size] is the length of that list. *)
Definition set_add (acc : list jsstring) (x : jsstring) : list jsstring :=
  if existsb (str_eqb x) acc then acc else acc ++ [x].

Definition newSet (l : list jsstring) : list jsstring := fold_left set_add l [].

(* --------------------------------------------------------------------- *)
(** ** Ingredient quantities: the data *)
(* --------------------------------------------------------------------- *)

Record ParsedQuantity := {
  pq_amount : float;
  pq_unit : jsstring;
  pq_originalLabel : jsstring
}.

Record CombinedIngredient := {
  ci_name : jsstring;
  ci_displayName : jsstring;
  ci_quantities : list ParsedQuantity;
  ci_totalAmount : float;
  ci_unit : jsstring;
  ci_imageUrl : option jsstring;
  ci_recipeCount : nat
}.

(** The result of [parseQuantityFromLabel]. *)
Record LabelQuantity := {
  amount : float;
  unit_ : jsstring;
  isPackBased : bool
}.

(** An element of the [ingredients] array of an input list. *)
Record Ingredient := {
  ing_id : jsstring;
  ing_name : jsstring;
  ing_label : jsstring;
  ing_imageUrl : option jsstring;
  ing_quantity : float
}.

(** An element of the argument of [combineIngredients]. *)
Record IngredientList := {
  recipeTitle : jsstring;
  ingredients : list Ingredient
}.

(** An element of the [items] array of a group. *)
Record Item := {
  it_label : jsstring;
  it_imageUrl : option jsstring;
  it_parsedAmount : float;
  it_unit : jsstring;
  it_portionQuantity : float;
  it_recipeTitle : jsstring
}.

(** A value of the map [grouped]. *)
Record NameGroup := {
  grp_name : jsstring;
  grp_items : list Item
}.

(* --------------------------------------------------------------------- *)
(** ** Ingredient quantities: [parseQuantityFromLabel] *)
(* --------------------------------------------------------------------- *)

(** [/\s*x0$/i] *)
Definition reTrailingX0 : re := seqs [spaces; chrI (ch "x"); chr (ch "0"); Eol].

(** [\d+(?:\.\d+)?] *)
Definition reNumber : re := Seq digits1 (opt (Seq (chr (ch ".")) digits1)).

(** [g|kg|ml|l|tsp|tbsp|pcs?] under the [i] flag *)
Definition reUnit : re :=
  alts [litI (js "g"); litI (js "kg"); litI (js "ml"); litI (js "l");
        litI (js "tsp"); litI (js "tbsp");
        Seq (litI (js "pc")) (opt (chrI (ch "s")))].

(** [/\((\d+(?:\.\d+)?)\s*(g|kg|ml|l|tsp|tbsp|pcs?)\)/i] *)
Definition reParen : re :=
  seqs [chr (ch "("); Group 1 reNumber; spaces; Group 2 reUnit; chr (ch ")")].

(** [/\((\d+(?:\.\d+)?)\)/i] *)
Definition reParenNum : re := seqs [chr (ch "("); Group 1 reNumber; chr (ch ")")].

(** [/x\s*(\d+)$/i] *)
Definition reX : re := seqs [chrI (ch "x"); spaces; Group 1 digits1; Eol].

(** [/^(\d+)\s*x?\s+/i] *)
Definition reLeadingNum : re :=
  seqs [Bol; Group 1 digits1; spaces; opt (chrI (ch "x")); spaces1].

Section Quantities.
Context {H : Host}.

Definition parseQuantityFromLabel (label : jsstring) : LabelQuantity :=
  (* Clean up the label first - remove x0 suffix *)
  let cleanedLabel := replaceFirst reTrailingX0 [] label in
  (* Pattern 1: quantity in parentheses with unit; pack-based *)
  match exec reParen cleanedLabel with
  | Some parenMatch =>
      {| amount := parseFloat (group 1 parenMatch);
         unit_ := toLowerCase (group 2 parenMatch);
         isPackBased := true |}
  | None =>
  (* Pattern 2: quantity in parentheses without unit; pack-based *)
  match exec reParenNum cleanedLabel with
  | Some parenNumMatch =>
      {| amount := parseFloat (group 1 parenNumMatch);
         unit_ := js "pcs";
         isPackBased := true |}
  | None =>
  (* Pattern 3: pack size with x suffix; count-based *)
  match exec reX cleanedLabel with
  | Some xMatch =>
      {| amount := parseInt (group 1 xMatch);
         unit_ := js "pcs";
         isPackBased := false |}
  | None =>
  (* Pattern 4: leading number; pack-based *)
  match exec reLeadingNum cleanedLabel with
  | Some leadingNumMatch =>
      {| amount := parseInt (group 1 leadingNumMatch);
         unit_ := js "pcs";
         isPackBased := true |}
  | None =>
  (* Default: 1 piece, count-based *)
      {| amount := 1%float; unit_ := js "pcs"; isPackBased := false |}
  end end end end.

(** The second argument is not used by the source either. *)
Definition getCleanDisplayName (name label : jsstring) : jsstring :=
  let capitalized := toUpperCase (charAt0 name) ++ slice1 name in
  capitalized.

(* ------------------------------------------------------------------- *)
(** ** Ingredient quantities: [combineIngredients] *)
(* ------------------------------------------------------------------- *)

Definition measuredUnits : list jsstring :=
  [js "g"; js "kg"; js "ml"; js "l"; js "tsp"; js "tbsp"].

(** The object pushed on the items of a group for one ingredient. *)
Definition makeItem (title : jsstring) (ing : Ingredient) : Item :=
  let q := parseQuantityFromLabel (ing_label ing) in
  let totalAmount :=
    if isPackBased q
    then PrimFloat.mul (amount q) (ing_quantity ing)
    else ing_quantity ing in
  {| it_label := ing_label ing;
     it_imageUrl := ing_imageUrl ing;
     it_parsedAmount := totalAmount;
     it_unit := if existsb (str_eqb (toLowerCase (unit_ q))) measuredUnits
                then unit_ q else js "pcs";
     it_portionQuantity := ing_quantity ing;
     it_recipeTitle := title |}.

Definition pushItem (x : Item) (g : NameGroup) : NameGroup :=
  {| grp_name := grp_name g; grp_items := grp_items g ++ [x] |}.

(** The body of the inner loop of the first pass. *)
Definition addIngredient (title : jsstring) (grouped : jsmap NameGroup)
  (ing : Ingredient) : jsmap NameGroup :=
  let grouped1 :=
    if negb (map_has (ing_name ing) grouped)
    then map_set (ing_name ing) {| grp_name := ing_name ing; grp_items := [] |} grouped
    else grouped in
  map_update (ing_name ing) (pushItem (makeItem title ing)) grouped1.

(** The first pass: group by ingredient name. *)
Definition groupByName (ingredientLists : list IngredientList) : jsmap NameGroup :=
  fold_left
    (fun grouped l => fold_left (addIngredient (recipeTitle l)) (ingredients l) grouped)
    ingredientLists [].

(** Group the items of one name by unit. *)
Definition addByUnit (byUnit : jsmap (list Item)) (item : Item) : jsmap (list Item) :=
  let normalizedUnit := toLowerCase (it_unit item) in
  let byUnit1 :=
    if negb (map_has normalizedUnit byUnit)
    then map_set normalizedUnit [] byUnit
    else byUnit in
  map_update normalizedUnit (fun l => l ++ [item]) byUnit1.

Definition groupByUnit (items : list Item) : jsmap (list Item) :=
  fold_left addByUnit items [].

(** [items.reduce((sum, item) => sum + item.parsedAmount, 0)] *)
Definition sumAmounts (items : list Item) : float :=
  fold_left (fun sum item => PrimFloat.add sum (it_parsedAmount item)) items 0%float.

(** [new Set(items.map(i => i.recipeTitle)).size] *)
Definition countRecipes (items : list Item) : nat :=
  length (newSet (map it_recipeTitle items)).

Definition toQuantity (item : Item) : ParsedQuantity :=
  {| pq_amount := it_parsedAmount item;
     pq_unit := it_unit item;
     pq_originalLabel := it_label item |}.

(** [items[0].imageUrl]; the items of a unit group are never empty. *)
Definition firstImageUrl (items : list Item) : option jsstring :=
  match items with
  | i :: _ => it_imageUrl i
  | [] => None
  end.

Definition firstLabel (items : list Item) : jsstring :=
  match items with
  | i :: _ => it_label i
  | [] => []
  end.

(** The record pushed when all the items of a name have the same unit. *)
Definition singleRecord (name unit : jsstring) (items : list Item) : CombinedIngredient :=
  {| ci_name := name;
     ci_displayName := getCleanDisplayName name (firstLabel items);
     ci_quantities := map toQuantity items;
     ci_totalAmount := sumAmounts items;
     ci_unit := unit;
     ci_imageUrl := firstImageUrl items;
     ci_recipeCount := countRecipes items |}.

(** The record pushed for one unit of a name with several units. *)
Definition unitRecord (name unit : jsstring) (items : list Item) : CombinedIngredient :=
  {| ci_name := name ++ js " (" ++ unit ++ js ")";
     ci_displayName :=
       getCleanDisplayName name (firstLabel items) ++ js " (" ++ unit ++ js ")";
     ci_quantities := map toQuantity items;
     ci_totalAmount := sumAmounts items;
     ci_unit := unit;
     ci_imageUrl := firstImageUrl items;
     ci_recipeCount := countRecipes items |}.

(** The body of the second pass, for one entry of [grouped]. *)
Definition emitGroup (result : list CombinedIngredient)
  (entry : jsstring * NameGroup) : list CombinedIngredient :=
  let name := fst entry in
  let byUnit := groupByUnit (grp_items (snd entry)) in
  if Nat.eqb (length byUnit) 1 then
    match byUnit with
    | (unit, items) :: _ => result ++ [singleRecord name unit items]
    | [] => result
    end
  else
    fold_left
      (fun res e => res ++ [unitRecord name (fst e) (snd e)])
      byUnit result.

(** [result.sort((a, b) => a.displayName.localeCompare(b.displayName))]:
    the stable sort, by insertion. *)
Fixpoint insertSorted (x : CombinedIngredient) (l : list CombinedIngredient)
  : list CombinedIngredient :=
  match l with
  | [] => [x]
  | y :: t =>
      if (localeCompare (ci_displayName y) (ci_displayName x) <=? 0)%Z
      then y :: insertSorted x t
      else x :: y :: t
  end.

Definition sortByDisplayName (l : list CombinedIngredient) : list CombinedIngredient :=
  fold_left (fun acc x => insertSorted x acc) l [].

Definition combineIngredients (ingredientLists : list IngredientList)
  : list CombinedIngredient :=
  let grouped := groupByName ingredientLists in
  let result := fold_left emitGroup grouped [] in
  sortByDisplayName result.
End Quantities.

(* --------------------------------------------------------------------- *)
(** ** Recipe extraction: the regular expressions of the script *)
(* --------------------------------------------------------------------- *)

(** The line feed, [\n]. *)
Definition LF : char := 10%N.

Definition isEmpty (s : jsstring) : bool :=
  match s with [] => true | _ :: _ => false end.

Definition oneOf (s : jsstring) (c : char) : bool := existsb (N.eqb c) s.

(** [/[\u0300-\u036f]/g] *)
Definition isCombining (c : char) : bool := in_range 768 879 c.
Definition reCombining : re := Chr isCombining.

(** [/[^a-z0-9\s-]/g] *)
Definition isSlugSource (c : char) : bool :=
  isAsciiLower c || isDigit c || isSpace c || (c =? ch "-")%N.
Definition reNotSlugSource : re := Chr (fun c => negb (isSlugSource c)).

(** [/-+/g] *)
Definition reHyphens : re := plus (chr (ch "-")).

(** [/^-|-$/g] *)
Definition reEdgeHyphen : re :=
  Alt (Seq Bol (chr (ch "-"))) (Seq (chr (ch "-")) Eol).

(** [/·\s*\d+\s*$/] *)
Definition reIndexEntry : re := seqs [chr (ch "·"); spaces; digits1; spaces; Eol].

(** The cross-reference marker [/\s*XE\s*Q[^Q]*Q\s*/g], where Q stands for
    the double quote (code unit 34). *)
Definition reXE : re :=
  seqs [spaces; lit (js "XE"); spaces; chr 34;
        Star (Chr (fun c => negb (c =? 34)%N)); chr 34; spaces].

(** [[A-ZÁÉÍÓÚÑÜ]] and [[a-záéíóúñü]] *)
Definition isUpperLetter (c : char) : bool := isAsciiUpper c || oneOf (js "ÁÉÍÓÚÑÜ") c.
Definition isLowerLetter (c : char) : bool := isAsciiLower c || oneOf (js "áéíóúñü") c.

(** [/[^A-ZÁÉÍÓÚÑÜ a-záéíóúñü]/g] *)
Definition reNotLetter : re :=
  Chr (fun c => negb (isUpperLetter c || (c =? ch " ")%N || isLowerLetter c)).

(** [/[A-ZÁÉÍÓÚÑÜ]/g] and [/[a-záéíóúñü]/g] *)
Definition reUpperLetter : re := Chr isUpperLetter.
Definition reLowerLetter : re := Chr isLowerLetter.

(** [/^[A-Z]$/] *)
Definition reSingleCapital : re := seqs [Bol; Chr isAsciiUpper; Eol].

(** The cooking verbs of [methodVerbs]. *)
Definition methodVerbList : list jsstring :=
  map js
    ["cocinar"; "freír"; "hervir"; "mezclar"; "agregar"; "añadir"; "poner";
     "dejar"; "preparar"; "calentar"; "cortar"; "licuar"; "batir"; "servir";
     "retirar"; "tapar"; "hornear"; "precalentar"; "sazonar"; "condimentar";
     "espolvorear"; "vaciar"; "unir"; "derretir"; "dorar"; "saltear";
     "revolver"; "colar"; "rallar"; "picar"]%string.

(** [/\b(cocinar|freír|...|picar)\b/i] *)
Definition reMethodVerbs : re :=
  seqs [WordB; Group 1 (alts (map litI methodVerbList)); WordB].

(** [/^[\d•\-\*]/] *)
Definition reBulletStart : re :=
  Seq Bol (Chr (fun c => isDigit c || oneOf (js "•-*") c)).

(** A literal followed by an optional [s], as in [grms?]. *)
Definition litIs (s : string) : re := Seq (litI (js s)) (opt (chrI (ch "s"))).

(** [/\b(\d+|½|¼|¾|⅓|⅔)\s*(T|CH|ch|taza|...|rodajas?)\b/i] *)
Definition reMeasurements : re :=
  seqs [WordB;
        Group 1 (alts [digits1; chrI (ch "½"); chrI (ch "¼"); chrI (ch "¾");
                       chrI (ch "⅓"); chrI (ch "⅔")]);
        spaces;
        Group 2 (alts [litI (js "T"); litI (js "CH"); litI (js "ch");
                       litI (js "taza"); litI (js "tazas"); litIs "grm";
                       litIs "gramo"; litI (js "kg"); litI (js "ml");
                       litI (js "litro"); litI (js "cucharada");
                       litI (js "cucharadita"); litI (js "pizca");
                       litI (js "unidad"); litI (js "unidades");
                       litI (js "pcs"); litIs "diente"; litIs "ramita";
                       litIs "hoja"; litIs "rebanada"; litIs "tajada";
                       litIs "rodaja"]);
        WordB].

(* --------------------------------------------------------------------- *)
(** ** Recipe extraction: the data *)
(* --------------------------------------------------------------------- *)

(** The object returned by [separateContent]: a property that the object
    does not have is [None]. *)
Record Separated := {
  sep_ingredientes : option jsstring;
  sep_metodo : option jsstring;
  sep_content : option jsstring
}.

(** A recipe as [main] writes it. *)
Record Recipe := {
  title : jsstring;
  slug : jsstring;
  ingredientes : option jsstring;
  metodo : option jsstring;
  content : option jsstring
}.

(** A recipe as [parseRecipes] collects it. *)
Record RawRecipe := {
  raw_title : jsstring;
  raw_slug : jsstring;
  rawContent : jsstring
}.

(** The variables of the loop of [separateContent]. *)
Record SepState := {
  foundBlankLine : bool;
  inMethod : bool;
  ingredientLines : list jsstring;
  methodLines : list jsstring
}.

(** The variables of the loop of [parseRecipes]. *)
Record ParseState := {
  recipes : list RawRecipe;
  currentRecipe : option RawRecipe;
  inIndex : bool
}.

(* --------------------------------------------------------------------- *)
(** ** Recipe extraction: the functions of the script *)
(* --------------------------------------------------------------------- *)

Section Recetas.
Context {H : Host}.

Definition slugify (title : jsstring) : jsstring :=
  let s1 := toLowerCase title in
  let s2 := normalizeNFD s1 in
  let s3 := replaceAll reCombining [] s2 in        (* Remove accents *)
  let s4 := replaceAll reNotSlugSource [] s3 in    (* Remove special chars *)
  let s5 := replaceAll spaces1 (js "-") s4 in      (* Spaces to hyphens *)
  let s6 := replaceAll reHyphens (js "-") s5 in    (* Collapse multiple hyphens *)
  replaceAll reEdgeHyphen [] s6.                   (* Trim hyphens *)

Definition isIndexEntry (line : jsstring) : bool := test reIndexEntry line.

(** The literal [0.7] denotes the binary64 value written here in full. *)
Definition ratio70 : float := 0x1.6666666666666p-1%float.

Definition isRecipeTitle (line : jsstring) : bool :=
  (* Strip XE markers first *)
  let cleaned := trim (replaceAll reXE [] line) in
  if (length cleaned <? 3)%nat then false
  else if isIndexEntry line then false
  else
    let letters := replaceAll reNotLetter [] cleaned in
    let upperCount := length (matchAll reUpperLetter letters) in
    let lowerCount := length (matchAll reLowerLetter letters) in
    (0 <? upperCount)%nat
    && PrimFloat.leb ratio70
         (PrimFloat.div (floatOfZ (Z.of_nat upperCount))
                        (floatOfZ (Z.of_nat (upperCount + lowerCount)))).

Definition cleanTitle (title : jsstring) : jsstring :=
  trim (replaceAll spaces1 (js " ") (replaceAll reXE [] title)).

Definition looksLikeIngredient (line : jsstring) : bool :=
  let trimmed := trim line in
  if isEmpty trimmed then false
  (* Too long to be an ingredient *)
  else if (80 <? length trimmed)%nat then false
  (* Contains cooking verbs - likely method *)
  else if test reMethodVerbs trimmed then false
  (* Starts with a bullet or number - likely ingredient *)
  else if test reBulletStart trimmed then true
  (* Contains measurement units - likely ingredient *)
  else if test reMeasurements trimmed then true
  (* Short line without periods *)
  else if ((length trimmed <? 50)%nat && negb (includes trimmed (ch ".")))%bool then true
  else false.

Definition sepInit : SepState :=
  {| foundBlankLine := false; inMethod := false;
     ingredientLines := []; methodLines := [] |}.

(** The body of the loop of [separateContent] for one line. *)
Definition sepStep (st : SepState) (line : jsstring) : SepState :=
  let trimmed := trim line in
  if isEmpty trimmed then
    (* Track blank lines *)
    if ((0 <? length (ingredientLines st))%nat && negb (inMethod st))%bool
    then {| foundBlankLine := true; inMethod := inMethod st;
            ingredientLines := ingredientLines st; methodLines := methodLines st |}
    else st
  else
    (* After a blank line, check if we're now in method section *)
    let inMethod1 :=
      if (foundBlankLine st && negb (inMethod st))%bool
      then (if negb (looksLikeIngredient trimmed) then true else inMethod st)
      else inMethod st in
    if inMethod1 then
      {| foundBlankLine := foundBlankLine st; inMethod := inMethod1;
         ingredientLines := ingredientLines st;
         methodLines := methodLines st ++ [trimmed] |}
    else if looksLikeIngredient trimmed then
      {| foundBlankLine := foundBlankLine st; inMethod := inMethod1;
         ingredientLines := ingredientLines st ++ [trimmed];
         methodLines := methodLines st |}
    else if Nat.eqb (length (ingredientLines st)) 0 then
      (* No ingredients found yet, this is probably all method *)
      {| foundBlankLine := foundBlankLine st; inMethod := true;
         ingredientLines := ingredientLines st;
         methodLines := methodLines st ++ [trimmed] |}
    else
      (* We have some ingredients, now hitting method *)
      {| foundBlankLine := foundBlankLine st; inMethod := true;
         ingredientLines := ingredientLines st;
         methodLines := methodLines st ++ [trimmed] |}.

(** The state after the loop of [separateContent]. *)
Definition sepRun (content : jsstring) : SepState :=
  fold_left sepStep (split LF content) sepInit.

Definition separateContent (content : jsstring) : Separated :=
  let st := sepRun content in
  (* Determine if we have a clear separation *)
  let hasIngredients := (2 <=? length (ingredientLines st))%nat in
  let hasMethod := (1 <=? length (methodLines st))%nat in
  if (hasIngredients && hasMethod)%bool then
    {| sep_ingredientes := Some (join [LF] (ingredientLines st));
       sep_metodo := Some (join [LF; LF] (methodLines st));
       sep_content := None |}
  else
    (* No clear separation - return as content *)
    {| sep_ingredientes := None; sep_metodo := None;
       sep_content := Some (trim content) |}.

(** [if (currentRecipe && currentRecipe.rawContent.trim()) recipes.push(currentRecipe)] *)
Definition saveRecipe (rs : list RawRecipe) (cur : option RawRecipe) : list RawRecipe :=
  match cur with
  | Some r => if negb (isEmpty (trim (rawContent r))) then rs ++ [r] else rs
  | None => rs
  end.

(** The part of the loop body of [parseRecipes] after the index section. *)
Definition parseLine (st : ParseState) (line trimmed : jsstring) (idx : bool) : ParseState :=
  if isRecipeTitle trimmed then
    let title := cleanTitle trimmed in
    {| recipes := saveRecipe (recipes st) (currentRecipe st);
       currentRecipe := Some {| raw_title := title; raw_slug := slugify title;
                                rawContent := [] |};
       inIndex := idx |}
  else
    match currentRecipe st with
    | Some r =>
        {| recipes := recipes st;
           currentRecipe := Some {| raw_title := raw_title r; raw_slug := raw_slug r;
                                    rawContent := rawContent r ++ line ++ [LF] |};
           inIndex := idx |}
    | None =>
        {| recipes := recipes st; currentRecipe := currentRecipe st; inIndex := idx |}
    end.

(** The body of the loop of [parseRecipes] for one line. *)
Definition parseStep (st : ParseState) (line : jsstring) : ParseState :=
  let trimmed := trim line in
  (* Skip empty lines at the start *)
  if (isEmpty trimmed && match currentRecipe st with None => true | Some _ => false end)%bool
  then st
  else if inIndex st then
    if isIndexEntry trimmed then st
    else if test reSingleCapital trimmed then st
    else if startsWith trimmed (js "INDEX") then st
    else if isRecipeTitle trimmed then parseLine st line trimmed false
    else st
  else parseLine st line trimmed (inIndex st).

(** [parseRecipes], from the text of the input file. *)
Definition parseRecipes (content : jsstring) : list RawRecipe :=
  let st :=
    fold_left parseStep (split LF content)
      {| recipes := []; currentRecipe := None; inIndex := true |} in
  (* Don't forget the last recipe *)
  saveRecipe (recipes st) (currentRecipe st).

(** The function that [main] maps over the recipes. *)
Definition processRecipe (recipe : RawRecipe) : Recipe :=
  let separated := separateContent (rawContent recipe) in
  {| title := raw_title recipe;
     slug := raw_slug recipe;
     ingredientes := sep_ingredientes separated;
     metodo := sep_metodo separated;
     content := sep_content separated |}.

(** [processedRecipes] of [main], from the text of the input file. *)
Definition processedRecipes (content : jsstring) : list Recipe :=
  map processRecipe (parseRecipes content).
End Recetas.

(* --------------------------------------------------------------------- *)
(** ** What a regular expression matches *)
(* --------------------------------------------------------------------- *)

(** [reach r s s']: starting at position [s] the regular expression [r] can
    match up to position [s'], whatever the order in which the matcher
    tries the alternatives. The matcher is proved sound and complete for
    this relation in Part II. *)
Inductive reach : re -> mstate -> mstate -> Prop :=
| R_Eps : forall s, reach Eps s s
| R_Chr : forall p s c t,
    rest s = c :: t -> p c = true -> reach (Chr p) s (advance c t s)
| R_Seq : forall r1 r2 s s1 s2,
    reach r1 s s1 -> reach r2 s1 s2 -> reach (Seq r1 r2) s s2
| R_AltL : forall r1 r2 s s1, reach r1 s s1 -> reach (Alt r1 r2) s s1
| R_AltR : forall r1 r2 s s1, reach r2 s s1 -> reach (Alt r1 r2) s s1
| R_StarNil : forall r s, reach (Star r) s s
| R_StarCons : forall r s s1 s2,
    reach r s s1 -> (length (rest s1) < length (rest s))%nat ->
    reach (Star r) s1 s2 -> reach (Star r) s s2
| R_Group : forall i r s s1, reach r s s1 -> reach (Group i r) s (setCap i s s1)
| R_Bol : forall s, prev s = None -> reach Bol s s
| R_Eol : forall s, rest s = [] -> reach Eol s s
| R_WordB : forall s, xorb (wordBefore s) (wordAfter s) = true -> reach WordB s s.

(** Every character class and literal of [r] accepts only code units that
    satisfy [P]. *)
Fixpoint charsAll (P : char -> bool) (r : re) : Prop :=
  match r with
  | Chr p => forall c, p c = true -> P c = true
  | Seq r1 r2 | Alt r1 r2 => charsAll P r1 /\ charsAll P r2
  | Star r1 | Group _ r1 => charsAll P r1
  | Eps | Bol | Eol | WordB => True
  end.

(** Every capture group of [r] records only texts that satisfy [Q]. *)
Fixpoint capsAll (Q : nat -> jsstring -> Prop) (r : re) : Prop :=
  match r with
  | Group i r1 =>
      capsAll Q r1 /\ forall s s1, reach r1 s s1 -> Q i (consumed s s1)
  | Seq r1 r2 | Alt r1 r2 => capsAll Q r1 /\ capsAll Q r2
  | Star r1 => capsAll Q r1
  | Eps | Chr _ | Bol | Eol | WordB => True
  end.

(** The start position of a match attempt after the prefix [pre]. *)
Definition startState (pre t : jsstring) : mstate :=
  {| prev := last (map Some pre) None; rest := t; caps := [] |}.

(** [r] matches somewhere in [s]: the declarative reading of [r.test(s)]. *)
Definition matchesIn (r : re) (s : jsstring) : Prop :=
  exists pre t s', s = pre ++ t /\ reach r (startState pre t) s'.

(* --------------------------------------------------------------------- *)
(** ** Auxiliary definitions of the properties *)
(* --------------------------------------------------------------------- *)

(** The position after the longest run of code units of a class. *)
Fixpoint skipRun (p : char -> bool) (pv : option char) (t : jsstring) : mstate :=
  match t with
  | [] => {| prev := pv; rest := []; caps := [] |}
  | c :: t' => if p c then skipRun p (Some c) t'
               else {| prev := pv; rest := t; caps := [] |}
  end.

(** Each run of code units of a class replaced by [rep]; [inrun] tells
    that the code unit before belongs to a run already replaced. *)
Fixpoint collapseRuns (p : char -> bool) (rep : jsstring) (inrun : bool) (t : jsstring)
  : jsstring :=
  match t with
  | [] => []
  | c :: t' =>
      if p c then (if inrun then [] else rep) ++ collapseRuns p rep true t'
      else c :: collapseRuns p rep false t'
  end.

(** No code unit [h] twice in a row. *)
Fixpoint noDouble (h : char) (s : jsstring) : bool :=
  match s with
  | a :: (b :: _) as t => negb ((h =? a)%N && (h =? b)%N) && noDouble h t
  | _ => true
  end.

Definition startsWithChar (h : char) (s : jsstring) : bool :=
  match s with c :: _ => (h =? c)%N | [] => false end.

(** [/^h|h$/] for a code unit [h], at a position. *)
Definition reEdge (h : char) : re := Alt (Seq Bol (chr h)) (Seq (chr h) Eol).

(** A text without its last code unit when that is [h]. *)
Fixpoint dropLastChar (h : char) (s : jsstring) : jsstring :=
  match s with
  | [] => []
  | c :: t =>
      match t with
      | [] => if (h =? c)%N then [] else [c]
      | _ :: _ => c :: dropLastChar h t
      end
  end.

Definition dropFirstChar (h : char) (s : jsstring) : jsstring :=
  match s with
  | c :: t => if (h =? c)%N then t else s
  | [] => []
  end.

Fixpoint endsWithChar (h : char) (s : jsstring) : bool :=
  match s with
  | [] => false
  | c :: t => match t with [] => (h =? c)%N | _ :: _ => endsWithChar h t end
  end.

(** The code units of a slug: [[a-z0-9-]]. *)
Definition isSlugChar (c : char) : bool :=
  isAsciiLower c || isDigit c || (c =? ch "-")%N.

(** The shape of an index entry: some text, a middle dot, optional white
    space, digits, optional white space, the end of the line. *)
Definition indexEntryShape (line : jsstring) : Prop :=
  exists pre ws1 ds ws2,
    line = pre ++ [ch "·"] ++ ws1 ++ ds ++ ws2
    /\ forallb isSpace ws1 = true
    /\ ds <> [] /\ forallb isDigit ds = true
    /\ forallb isSpace ws2 = true.

(** The lines of a text that are not blank, trimmed. *)
Definition nonBlankLines (lines : list jsstring) : list jsstring :=
  filter (fun l => negb (isEmpty l)) (map trim lines).

(** The body of Example 2 of the specification. *)
Definition exampleBody : jsstring :=
  join [LF] [js "2 tazas de harina"; js "1 taza de azúcar"; js "";
             js "Mezclar los ingredientes secos."; js "Hornear a 180 grados."].

(** A host for running the programs on plain inputs: the case mappings and
    the decomposition leave the text as it is, texts are compared code unit
    by code unit, and the numerals outside the short rule are not numbers. *)
Fixpoint compareUnits (a b : jsstring) : Z :=
  match a, b with
  | [], [] => 0%Z
  | [], _ :: _ => (-1)%Z
  | _ :: _, [] => 1%Z
  | x :: a', y :: b' =>
      if (x <? y)%N then (-1)%Z else if (y <? x)%N then 1%Z else compareUnits a' b'
  end.

Definition plainHost : Host :=
  {| lowerUnicode := fun s => s;
     upperUnicode := fun s => s;
     nfdUnicode := fun s => s;
     localeCompare := compareUnits;
     strtod := fun _ => nan;
     strtoi := fun _ => nan |}.

(** The body of a recipe is not blank. *)
Definition hasBody (r : RawRecipe) : Prop := trim (rawContent r) <> [].

(** A text with an index, a recipe that separates, a title without a body
    and a recipe that does not separate. *)
Definition exampleText : jsstring :=
  join [LF] [js "INDEX"; js "A"; js "Arroz con pollo · 3";
             js "POLLO AL HORNO"; js "2 tazas de harina"; js "1 taza de azúcar";
             js ""; js "Mezclar los ingredientes secos."; js "ARROZ"; js "";
             js "OTRO PLATO"; js "Servir frío."].

(** The record of the last recipe of the text above. *)
Definition exampleRecipe : Recipe :=
  {| title := js "OTRO PLATO"; slug := js "otro-plato";
     ingredientes := None; metodo := None;
     content := Some (js "Servir frío.") |}.

Section GroupingDefs.
Variables X Y : Type.
Variable keyOf : X -> jsstring.
Variable val : X -> Y.

Definition groupStep (m : jsmap (list Y)) (x : X) : jsmap (list Y) :=
  map_update (keyOf x) (fun l => l ++ [val x])
    (if negb (map_has (keyOf x) m) then map_set (keyOf x) [] m else m).

Definition keyIs (k : jsstring) (x : X) : bool := str_eqb (keyOf x) k.

Definition groupTable (xs : list X) : jsmap (list Y) :=
  map (fun k => (k, map val (filter (keyIs k) xs))) (newSet (map keyOf xs)).

End GroupingDefs.

Section MapViewDefs.
Variables W Y : Type.
Variable proj : W -> list Y.

Definition mapView (m : jsmap W) : jsmap (list Y) :=
  map (fun e => (fst e, proj (snd e))) m.

End MapViewDefs.

Section CombineRowsDefs.
Context {H : Host}.

(** The occurrences of ingredients in the argument of
    [combineIngredients], each with the title of its recipe, in the order
    in which the first pass visits them. *)
Definition occurrences (lists : list IngredientList) : list (jsstring * Ingredient) :=
  flat_map (fun l => map (pair (recipeTitle l)) (ingredients l)) lists.

Definition occItem (o : jsstring * Ingredient) : Item := makeItem (fst o) (snd o).
Definition occName (o : jsstring * Ingredient) : jsstring := ing_name (snd o).

(** The key of an item in [byUnit]. *)
Definition unitKey (i : Item) : jsstring := toLowerCase (it_unit i).

(** The records pushed for one name, from the items of that name. *)
Definition rowsOfName (n : jsstring) (items : list Item) : list CombinedIngredient :=
  match newSet (map unitKey items) with
  | [u] => [singleRecord n u (filter (keyIs unitKey u) items)]
  | us => map (fun u => unitRecord n u (filter (keyIs unitKey u) items)) us
  end.

(** The records of [result] before they are sorted. *)
Definition unsortedRows (lists : list IngredientList) : list CombinedIngredient :=
  flat_map
    (fun n => rowsOfName n (map occItem (filter (keyIs occName n) (occurrences lists))))
    (newSet (map occName (occurrences lists))).

End CombineRowsDefs.

(** The seven units of a combined ingredient. *)
Definition canonicalUnits : list jsstring :=
  [js "g"; js "kg"; js "ml"; js "l"; js "tsp"; js "tbsp"; js "pcs"].

(** The part of a combined ingredient that the rules about names, display
    names and recipe counts speak of. *)
Record Row := {
  row_name : jsstring;
  row_displayName : jsstring;
  row_unit : jsstring;
  row_recipeCount : nat
}.

Definition rowOf (c : CombinedIngredient) : Row :=
  {| row_name := ci_name c;
     row_displayName := ci_displayName c;
     row_unit := ci_unit c;
     row_recipeCount := ci_recipeCount c |}.

(** The distinct strings of a list. *)
Definition distinct (l : list jsstring) : list jsstring :=
  nodup (list_eq_dec N.eq_dec) l.

(** The number that a binary64 value stands for, as a fraction: [None] for
    the infinities and for NaN. *)
Definition exactValue (x : float) : option Q :=
  match Prim2SF x with
  | S754_zero _ => Some 0%Q
  | S754_finite s m e => Some (inject_Z (if s then Zneg m else Zpos m) * Qpower 2 e)%Q
  | S754_infinity _ => None
  | S754_nan => None
  end.

(** The sum of the numbers that a list of binary64 values stand for, with
    no rounding. *)
Definition exactSum (amounts : list float) : option Q :=
  fold_right (fun x acc => match exactValue x, acc with
                           | Some a, Some b => Some (a + b)%Q
                           | _, _ => None
                           end)
             (Some 0%Q) amounts.

Section CombineSpecDefs.
Context {H : Host}.

(** The normalized unit of an occurrence. *)
Definition occUnit (o : jsstring * Ingredient) : jsstring := unitKey (occItem o).

(** The total that an ingredient contributes: the parsed amount times the
    quantity for a pack-based label, the quantity alone otherwise. *)
Definition contributedTotal (ing : Ingredient) : float :=
  if isPackBased (parseQuantityFromLabel (ing_label ing))
  then PrimFloat.mul (amount (parseQuantityFromLabel (ing_label ing))) (ing_quantity ing)
  else ing_quantity ing.

(** A name with only its first character in upper case. *)
Definition capitalizeFirst (n : jsstring) : jsstring :=
  toUpperCase (charAt0 n) ++ slice1 n.

(** The distinct units of the occurrences of a name, and the distinct
    recipe titles of the occurrences of a name with a unit. *)
Definition unitsOfName (occs : list (jsstring * Ingredient)) (n : jsstring)
  : list jsstring :=
  distinct (map occUnit (filter (fun o => str_eqb (occName o) n) occs)).

Definition titlesOf (occs : list (jsstring * Ingredient)) (n u : jsstring)
  : list jsstring :=
  distinct (map fst (filter (fun o => str_eqb (occName o) n && str_eqb (occUnit o) u) occs)).

(** The rows that the specification describes for one name: one row with
    the name as it is when the name has a single unit, one row per unit
    with the suffix otherwise. *)
Definition specRows (occs : list (jsstring * Ingredient)) (n : jsstring) : list Row :=
  match unitsOfName occs n with
  | [u] =>
      [{| row_name := n;
          row_displayName := capitalizeFirst n;
          row_unit := u;
          row_recipeCount := length (titlesOf occs n u) |}]
  | us =>
      map (fun u =>
             {| row_name := n ++ js " (" ++ u ++ js ")";
                row_displayName := capitalizeFirst n ++ js " (" ++ u ++ js ")";
                row_unit := u;
                row_recipeCount := length (titlesOf occs n u) |}) us
  end.

Definition specTable (lists : list IngredientList) : list Row :=
  flat_map (specRows (occurrences lists))
           (distinct (map occName (occurrences lists))).

End CombineSpecDefs.

(** The two ingredients of Examples 3 and 4, and a list that holds them. *)
Definition chickenStrips : Ingredient :=
  {| ing_id := js "1"; ing_name := js "chicken breast strips";
     ing_label := js "Chicken breast strips (250g)";
     ing_imageUrl := None; ing_quantity := 3%float |}.

Definition whitePotato : Ingredient :=
  {| ing_id := js "2"; ing_name := js "white potato";
     ing_label := js "White potato x4";
     ing_imageUrl := None; ing_quantity := 4%float |}.

(** Garlic by weight, garlic by the piece in two recipes (once with the
    unit written [PC]), and the two ingredients above. *)
Definition exampleLists : list IngredientList :=
  [ {| recipeTitle := js "Roast chicken";
       ingredients :=
         [ chickenStrips;
           {| ing_id := js "3"; ing_name := js "garlic"; ing_label := js "Garlic (20g)";
              ing_imageUrl := None; ing_quantity := 2%float |};
           {| ing_id := js "4"; ing_name := js "garlic"; ing_label := js "Garlic clove";
              ing_imageUrl := None; ing_quantity := 1%float |} ] |};
    {| recipeTitle := js "Potato curry";
       ingredients :=
         [ whitePotato;
           {| ing_id := js "4"; ing_name := js "garlic"; ing_label := js "Garlic bulb (1 PC)";
              ing_imageUrl := None; ing_quantity := 2%float |} ] |} ].

(** The record for the garlic counted by the piece. *)
Definition garlicPieces : CombinedIngredient :=
  {| ci_name := js "garlic (pcs)";
     ci_displayName := js "Garlic (pcs)";
     ci_quantities :=
       [ {| pq_amount := 1%float; pq_unit := js "pcs"; pq_originalLabel := js "Garlic clove" |};
         {| pq_amount := 2%float; pq_unit := js "pcs";
            pq_originalLabel := js "Garlic bulb (1 PC)" |} ];
     ci_totalAmount := 3%float;
     ci_unit := js "pcs";
     ci_imageUrl := None;
     ci_recipeCount := 2 |}.

(** Saffron weighed three times in one recipe, each label with a weight
    that has no exact binary64 value. *)
Definition saffron (label : string) : Ingredient :=
  {| ing_id := js "5"; ing_name := js "saffron"; ing_label := js label;
     ing_imageUrl := None; ing_quantity := 1%float |}.

Definition saffronLists : list IngredientList :=
  [ {| recipeTitle := js "Paella";
       ingredients := [saffron "Saffron (0.1g)"; saffron "Saffron (0.2g)";
                       saffron "Saffron (0.3g)"] |} ].

(** White space in a text is made of single separators [h]: a code unit of
    the class [p] is [h] and is not followed by another one. *)
Definition startsWithClass (p : char -> bool) (s : jsstring) : bool :=
  match s with c :: _ => p c | [] => false end.

Fixpoint singleSeparators (p : char -> bool) (h : char) (s : jsstring) : bool :=
  match s with
  | [] => true
  | c :: t =>
      (if p c then (c =? h)%N && negb (startsWithClass p t) else true)
      && singleSeparators p h t
  end.

(** The state of [parseRecipes] before the first line. *)
Definition parseInit : ParseState :=
  {| recipes := []; currentRecipe := None; inIndex := true |}.

(** A title line with the lines below it up to the next title. *)
Definition blockLines (b : jsstring * list jsstring) : list jsstring := fst b :: snd b.

(** The lines of a body as [rawContent] holds them: each one as it is in
    the file, followed by a line feed. *)
Definition bodyText (lines : list jsstring) : jsstring :=
  concat (map (fun l => l ++ [LF]) lines).

(** [currentRecipe.rawContent.trim()] as a condition. *)
Definition bodyNotBlank (r : RawRecipe) : bool := negb (isEmpty (trim (rawContent r))).

Section ParseMoreDefs.
Context {H : Host}.

(** The recipe that a title line and the lines below it make. *)
Definition recipeOfBlock (b : jsstring * list jsstring) : RawRecipe :=
  let title := cleanTitle (trim (fst b)) in
  {| raw_title := title; raw_slug := slugify title; rawContent := bodyText (snd b) |}.

(** A recipe comes from a title line of the text: its title is that line
    cleaned and its slug is the slug of the title. *)
Definition fromTitleLine (lines : list jsstring) (r : RawRecipe) : Prop :=
  raw_slug r = slugify (raw_title r)
  /\ exists line, In line lines /\ isRecipeTitle (trim line) = true
                  /\ raw_title r = cleanTitle (trim line).

Definition stateFrom (lines : list jsstring) (st : ParseState) : Prop :=
  Forall (fromTitleLine lines) (recipes st)
  /\ match currentRecipe st with
     | Some r => fromTitleLine lines r
     | None => True
     end.

End ParseMoreDefs.

(** A text with two lines of index, a recipe whose body holds a line with
    the shape of an index entry and an empty line, a title with a blank
    body, and a last recipe. *)
Definition blocksText : jsstring :=
  join [LF] [js "INDEX"; js "Pollo · 3";
             js "POLLO AL HORNO"; js "Pollo · 3"; []; js "2 tazas";
             js "OTRO PLATO"; js " ";
             js "TERCER PLATO"; js "Servir."].

(** The unit tokens that the first pattern accepts, in lower case. *)
Definition unitTokens : list jsstring :=
  [js "g"; js "kg"; js "ml"; js "l"; js "tsp"; js "tbsp"; js "pc"; js "pcs"].

Section CompatibleDefs.
Context {H : Host}.

(** The local function [normalizeUnit] of [areUnitsCompatible]. *)
Definition normalizeUnit (u : jsstring) : jsstring :=
  let lower := toLowerCase u in
  if (str_eqb lower (js "pc") || str_eqb lower (js "pcs")
      || str_eqb lower (js "piece") || str_eqb lower (js "pieces"))%bool
  then js "pcs"
  else if (str_eqb lower (js "gram") || str_eqb lower (js "grams"))%bool
  then js "g"
  else if (str_eqb lower (js "kilogram") || str_eqb lower (js "kilograms"))%bool
  then js "kg"
  else if (str_eqb lower (js "milliliter") || str_eqb lower (js "milliliters")
           || str_eqb lower (js "millilitre"))%bool
  then js "ml"
  else if (str_eqb lower (js "liter") || str_eqb lower (js "liters")
           || str_eqb lower (js "litre"))%bool
  then js "l"
  else lower.

Definition areUnitsCompatible (unit1 unit2 : jsstring) : bool :=
  str_eqb (normalizeUnit unit1) (normalizeUnit unit2).

End CompatibleDefs.

Section CombineMoreDefs.
Context {H : Host}.

(** The order of two records in a sorted result. *)
Definition inOrder (a b : CombinedIngredient) : Prop :=
  (localeCompare (ci_displayName a) (ci_displayName b) <= 0)%Z.

End CombineMoreDefs.









(** The last code unit of a text is a word character. *)
Definition endsWithWord (s : jsstring) : bool :=
  match rev s with c :: _ => isWord c | [] => false end.

(** Two code units that the [i] flag takes for the same letter: [d] is
    accepted where the pattern has [c]. *)
Definition sameLetter (d c : char) : bool := ((d =? c) || (d =? swapCase c))%N.

(** [w] is the text [v] in some mix of capital and small letters. *)
Fixpoint spelledAs (w v : jsstring) : bool :=
  match w, v with
  | [], [] => true
  | d :: w', c :: v' => sameLetter d c && spelledAs w' v'
  | _, _ => false
  end.

(* ===================================================================== *)
(** * Part II: properties *)
(* ===================================================================== *)

(* --------------------------------------------------------------------- *)
(** ** The matcher and the matching relation *)
(* --------------------------------------------------------------------- *)

Lemma starLoop_sound (A : Type) (body : mstate -> (mstate -> option A) -> option A)
  (k : mstate -> option A) (r1 : re) :
  (forall s k' x, body s k' = Some x -> exists s', reach r1 s s' /\ k' s' = Some x) ->
  forall n s x, starLoop body k n s = Some x ->
  exists s', reach (Star r1) s s' /\ k s' = Some x.
Proof.
  intros Hbody n. induction n as [|n IH]; intros s x; simpl.
  - intros Hk. exists s. split; [apply R_StarNil | exact Hk].
  - destruct (body s _) as [y|] eqn:E.
    + intros Hx. inversion Hx; subst y.
      apply Hbody in E. destruct E as (s1 & Hr & Hc).
      destruct (length (rest s1) <? length (rest s))%nat eqn:Hlt; [|discriminate].
      apply IH in Hc. destruct Hc as (s' & Hs & Hk).
      exists s'. split; [|exact Hk].
      eapply R_StarCons; eauto. apply Nat.ltb_lt. exact Hlt.
    + intros Hk. exists s. split; [apply R_StarNil | exact Hk].
Qed.

(** Soundness of the matcher: a result comes from a position that the
    regular expression reaches. *)
Lemma rmatch_sound (A : Type) (r : re) :
  forall s (k : mstate -> option A) x,
    rmatch r s k = Some x -> exists s', reach r s s' /\ k s' = Some x.
Proof.
  induction r as [|p|r1 IH1 r2 IH2|r1 IH1 r2 IH2|r1 IH1|i r1 IH1| | |];
    intros s k x; simpl.
  - intros Hk. exists s. split; [constructor | exact Hk].
  - destruct (rest s) as [|c t] eqn:Hr; [discriminate|].
    destruct (p c) eqn:Hp; [|discriminate].
    intros Hk. exists (advance c t s). split; [constructor; assumption | exact Hk].
  - intros Hm. apply IH1 in Hm. destruct Hm as (s1 & H1 & Hm).
    apply IH2 in Hm. destruct Hm as (s2 & H2 & Hk).
    exists s2. split; [econstructor; eauto | exact Hk].
  - destruct (rmatch r1 s k) as [y|] eqn:E.
    + intros Hx. inversion Hx; subst y. apply IH1 in E.
      destruct E as (s1 & H1 & Hk). exists s1. split; [apply R_AltL; exact H1 | exact Hk].
    + intros Hm. apply IH2 in Hm.
      destruct Hm as (s1 & H1 & Hk). exists s1. split; [apply R_AltR; exact H1 | exact Hk].
  - apply starLoop_sound. exact IH1.
  - intros Hm. apply IH1 in Hm. destruct Hm as (s1 & H1 & Hk).
    exists (setCap i s s1). split; [constructor; exact H1 | exact Hk].
  - destruct (prev s) eqn:Hp; [discriminate|].
    intros Hk. exists s. split; [constructor; exact Hp | exact Hk].
  - destruct (rest s) eqn:Hr; [|discriminate].
    intros Hk. exists s. split; [constructor; exact Hr | exact Hk].
  - destruct (xorb _ _) eqn:Hx; [|discriminate].
    intros Hk. exists s. split; [constructor; exact Hx | exact Hk].
Qed.

Lemma starLoop_complete (A : Type) (body : mstate -> (mstate -> option A) -> option A)
  (k : mstate -> option A) (r1 : re) :
  (forall s s' k', reach r1 s s' -> k' s' <> None -> body s k' <> None) ->
  forall s s', reach (Star r1) s s' ->
  forall n, (length (rest s) <= n)%nat -> k s' <> None -> starLoop body k n s <> None.
Proof.
  intros Hbody s s' Hr. remember (Star r1) as r eqn:Er.
  induction Hr; try discriminate; inversion Er; subst.
  - intros n _ Hk. destruct n; simpl; [exact Hk|].
    destruct (body s _); [discriminate | exact Hk].
  - intros n Hn Hk. destruct n as [|n]; [lia|]. simpl.
    destruct (body s _) as [y|] eqn:E; [discriminate|].
    exfalso. revert E. apply (Hbody s s1); [exact Hr1|].
    apply Nat.ltb_lt in H. rewrite H.
    apply IHHr2; [reflexivity | apply Nat.ltb_lt in H; lia | exact Hk].
Qed.

(** Completeness of the matcher: when the regular expression reaches a
    position that the continuation accepts, the matcher finds a result. *)
Lemma rmatch_complete (A : Type) (r : re) :
  forall s s' (k : mstate -> option A),
    reach r s s' -> k s' <> None -> rmatch r s k <> None.
Proof.
  induction r as [|p|r1 IH1 r2 IH2|r1 IH1 r2 IH2|r1 IH1|i r1 IH1| | |];
    intros s s' k Hr Hk; inversion Hr; subst; simpl.
  - exact Hk.
  - match goal with
    | H1 : rest s = _ :: _, H2 : p _ = true |- _ => rewrite H1, H2
    end. exact Hk.
  - eapply IH1; [eassumption|]. eapply IH2; eassumption.
  - destruct (rmatch r1 s k) eqn:E; [discriminate|].
    exfalso. revert E. eapply IH1; eassumption.
  - destruct (rmatch r1 s k) eqn:E; [discriminate|].
    eapply IH2; eassumption.
  - eapply starLoop_complete; [exact IH1 | exact Hr | lia | exact Hk].
  - eapply starLoop_complete; [exact IH1 | exact Hr | lia | exact Hk].
  - eapply IH1; eassumption.
  - match goal with H1 : prev s' = None |- _ => rewrite H1 end. exact Hk.
  - match goal with H1 : rest s' = [] |- _ => rewrite H1 end. exact Hk.
  - match goal with H1 : xorb _ _ = true |- _ => rewrite H1 end. exact Hk.
Qed.

(** A regular expression only moves forward in the text, and the text it
    consumed is made of code units that its classes and literals accept. *)
Lemma reach_chars (P : char -> bool) (r : re) (s s' : mstate) :
  reach r s s' -> charsAll P r ->
  exists w, rest s = w ++ rest s' /\ forallb P w = true.
Proof.
  intros Hr. induction Hr; simpl; intros Hc;
    try (exists []; split; reflexivity).
  - exists [c]. split; [exact H | simpl; rewrite (Hc c H0); reflexivity].
  - destruct Hc as [Hc1 Hc2].
    destruct (IHHr1 Hc1) as (w1 & E1 & F1). destruct (IHHr2 Hc2) as (w2 & E2 & F2).
    exists (w1 ++ w2). split.
    + rewrite E1, E2, app_assoc. reflexivity.
    + rewrite forallb_app, F1, F2. reflexivity.
  - apply IHHr. apply Hc.
  - apply IHHr. apply Hc.
  - destruct (IHHr1 Hc) as (w1 & E1 & F1). destruct (IHHr2 Hc) as (w2 & E2 & F2).
    exists (w1 ++ w2). split.
    + rewrite E1, E2, app_assoc. reflexivity.
    + rewrite forallb_app, F1, F2. reflexivity.
  - apply IHHr. exact Hc.
Qed.

Lemma charsAll_true (r : re) : charsAll (fun _ => true) r.
Proof. induction r; simpl; auto. Qed.

Lemma reach_suffix (r : re) (s s' : mstate) :
  reach r s s' -> exists w, rest s = w ++ rest s'.
Proof.
  intros Hr. destruct (reach_chars (fun _ => true) Hr (charsAll_true r)) as (w & E & _).
  exists w. exact E.
Qed.

Lemma consumed_app (s s' : mstate) (w : jsstring) :
  rest s = w ++ rest s' -> consumed s s' = w.
Proof.
  intros E. unfold consumed. rewrite E, length_app.
  replace (length w + length (rest s') - length (rest s'))%nat with (length w) by lia.
  rewrite firstn_app, firstn_all, Nat.sub_diag. simpl. apply app_nil_r.
Qed.

(** The captures recorded along a match satisfy what the groups of the
    regular expression guarantee. *)
Lemma reach_caps (Q : nat -> jsstring -> Prop) (r : re) (s s' : mstate) :
  reach r s s' -> capsAll Q r ->
  Forall (fun e => Q (fst e) (snd e)) (caps s) ->
  Forall (fun e => Q (fst e) (snd e)) (caps s').
Proof.
  intros Hr. induction Hr; simpl; intros Hc Hs; auto.
  - apply IHHr2; [apply Hc|]. apply IHHr1; [apply Hc | exact Hs].
  - apply IHHr; [apply Hc | exact Hs].
  - apply IHHr; [apply Hc | exact Hs].
  - destruct Hc as [Hc HQ]. constructor; [simpl; apply HQ; exact Hr|].
    apply IHHr; assumption.
Qed.

(* --------------------------------------------------------------------- *)
(** ** Searching for a match *)
(* --------------------------------------------------------------------- *)

Lemma last_snoc_some (pre : jsstring) (c : char) :
  last (map Some (pre ++ [c])) None = Some c.
Proof. rewrite map_app. simpl. apply last_last. Qed.

Lemma matchAt_sound (r : re) (p : option char) (t : jsstring) (s' : mstate) :
  matchAt r p t = Some s' -> reach r {| prev := p; rest := t; caps := [] |} s'.
Proof.
  unfold matchAt. intros Hm. apply rmatch_sound in Hm.
  destruct Hm as (s1 & Hr & E). inversion E; subst. exact Hr.
Qed.

Lemma matchAt_complete (r : re) (p : option char) (t : jsstring) (s' : mstate) :
  reach r {| prev := p; rest := t; caps := [] |} s' -> matchAt r p t <> None.
Proof.
  intros Hr. unfold matchAt. eapply rmatch_complete; [exact Hr | discriminate].
Qed.

(** What a successful search returns. *)
Lemma searchFrom_sound (r : re) :
  forall t pre m,
    searchFrom r (last (map Some pre) None) t (length pre) = Some m ->
    exists mid t' s',
      t = mid ++ t' /\ reach r (startState (pre ++ mid) t') s' /\
      m_index m = length (pre ++ mid) /\ m_text m = consumed (startState (pre ++ mid) t') s' /\
      m_groups m = caps s' /\ m_tail m = rest s'.
Proof.
  induction t as [|c t IH]; intros pre m; simpl.
  - destruct (matchAt r _ []) as [s'|] eqn:E; [|discriminate].
    intros Hm. inversion Hm; subst m. clear Hm.
    exists [], [], s'. rewrite !app_nil_r. apply matchAt_sound in E.
    repeat split; simpl; auto.
  - destruct (matchAt r _ (c :: t)) as [s'|] eqn:E.
    + intros Hm. inversion Hm; subst m. clear Hm.
      exists [], (c :: t), s'. rewrite !app_nil_r. apply matchAt_sound in E.
      repeat split; simpl; auto.
    + intros Hm.
      specialize (IH (pre ++ [c]) m). rewrite last_snoc_some, length_app in IH.
      simpl in IH. rewrite Nat.add_1_r in IH. specialize (IH Hm).
      destruct IH as (mid & t' & s' & Et & Hr & Hi & Hx & Hg & Hl).
      exists (c :: mid), t', s'. rewrite <- app_assoc in *. simpl in *.
      subst t. repeat split; auto.
Qed.

Lemma searchFrom_complete (r : re) :
  forall mid pre t i s',
    reach r (startState (pre ++ mid) t) s' ->
    searchFrom r (last (map Some pre) None) (mid ++ t) i <> None.
Proof.
  induction mid as [|c mid IH]; intros pre t i s' Hr.
  - rewrite app_nil_r in Hr. simpl.
    assert (Hm : matchAt r (last (map Some pre) None) t <> None)
      by (eapply matchAt_complete; exact Hr).
    destruct t; simpl; destruct (matchAt r _ _); try discriminate; contradiction.
  - simpl. destruct (matchAt r _ (c :: mid ++ t)); [discriminate|].
    rewrite <- (last_snoc_some pre c). eapply IH.
    rewrite <- app_assoc. simpl. exact Hr.
Qed.

(** [r.test(s)] holds exactly when [r] matches somewhere in [s]. *)
Lemma test_matchesIn (r : re) (s : jsstring) : test r s = true <-> matchesIn r s.
Proof.
  unfold test, exec, matchesIn. split.
  - destruct (searchFrom r None s 0) as [m|] eqn:E; [|discriminate]. intros _.
    apply (searchFrom_sound r s []) in E.
    destruct E as (mid & t' & s' & Et & Hr & _). exists mid, t', s'. auto.
  - intros (pre & t & s' & Es & Hr). subst s.
    pose proof (@searchFrom_complete r pre [] t 0%nat s' Hr) as Hc. simpl in Hc.
    destruct (searchFrom r None (pre ++ t) 0); [reflexivity | contradiction].
Qed.

(* --------------------------------------------------------------------- *)
(** ** Strings *)
(* --------------------------------------------------------------------- *)

Lemma str_eqb_eq (a b : jsstring) : str_eqb a b = true <-> a = b.
Proof.
  unfold str_eqb. destruct (list_eq_dec N.eq_dec a b); split; auto; discriminate.
Qed.

Lemma str_eqb_refl (a : jsstring) : str_eqb a a = true.
Proof. apply str_eqb_eq. reflexivity. Qed.

Lemma str_eqb_neq (a b : jsstring) : str_eqb a b = false <-> a <> b.
Proof.
  unfold str_eqb. destruct (list_eq_dec N.eq_dec a b); split; auto;
    try discriminate; contradiction.
Qed.

Lemma str_eqb_sym (a b : jsstring) : str_eqb a b = str_eqb b a.
Proof.
  destruct (str_eqb a b) eqn:E.
  - apply str_eqb_eq in E. subst. symmetry. apply str_eqb_refl.
  - apply str_eqb_neq in E. symmetry. apply str_eqb_neq. congruence.
Qed.

Lemma dropWhile_length (p : char -> bool) (s : jsstring) :
  (length (dropWhile p s) <= length s)%nat.
Proof. induction s as [|c t IH]; simpl; [lia|]. destruct (p c); simpl; lia. Qed.

Lemma dropWhile_head (p : char -> bool) (s : jsstring) (c : char) (t : jsstring) :
  dropWhile p s = c :: t -> p c = false.
Proof.
  induction s as [|d s IH]; simpl; [discriminate|].
  destruct (p d) eqn:E; [exact IH|]. intros Hs. inversion Hs; subst. exact E.
Qed.

Lemma dropWhile_all (p : char -> bool) (s : jsstring) :
  dropWhile p s = [] <-> forallb p s = true.
Proof.
  induction s as [|c t IH]; simpl; [tauto|].
  destruct (p c); simpl; [exact IH|]. split; discriminate.
Qed.

Lemma dropWhile_suffix (p : char -> bool) (s : jsstring) :
  exists w, s = w ++ dropWhile p s /\ forallb p w = true.
Proof.
  induction s as [|c t IH]; simpl; [exists []; auto|].
  destruct (p c) eqn:E.
  - destruct IH as (w & Ew & Fw). exists (c :: w). simpl. rewrite E, Fw.
    split; [f_equal; exact Ew | reflexivity].
  - exists []. auto.
Qed.

Lemma dropWhile_id (p : char -> bool) (c : char) (t : jsstring) :
  p c = false -> dropWhile p (c :: t) = c :: t.
Proof. intros E. simpl. rewrite E. reflexivity. Qed.

Lemma forallb_rev_eq (p : char -> bool) (s : jsstring) :
  forallb p (rev s) = forallb p s.
Proof.
  induction s as [|c t IH]; simpl; [reflexivity|].
  rewrite forallb_app, IH. simpl. rewrite andb_true_r. apply andb_comm.
Qed.

(** [trim] leaves nothing exactly when the text is all white space. *)
Lemma trim_empty (s : jsstring) : trim s = [] <-> forallb isSpace s = true.
Proof.
  unfold trim. split.
  - intros E. apply (f_equal (@rev char)) in E. rewrite rev_involutive in E.
    simpl in E. apply dropWhile_all in E. rewrite forallb_rev_eq in E.
    destruct (dropWhile_suffix isSpace s) as (w & Ew & Fw).
    rewrite Ew, forallb_app, Fw, E. reflexivity.
  - intros F. apply dropWhile_all in F. rewrite F. reflexivity.
Qed.

(** A trimmed text neither starts nor ends with white space. *)
Lemma trim_head (s : jsstring) (c : char) (t : jsstring) :
  trim s = c :: t -> isSpace c = false.
Proof.
  unfold trim. intros E.
  destruct (dropWhile_suffix isSpace (rev (dropWhile isSpace s))) as (w & Ew & Fw).
  apply (f_equal (@rev char)) in Ew. rewrite rev_involutive, rev_app_distr, E in Ew.
  destruct (dropWhile isSpace s) as [|d u] eqn:Ed.
  - simpl in E. discriminate.
  - simpl in Ew. inversion Ew; subst. eapply dropWhile_head. exact Ed.
Qed.

Lemma trim_last (s : jsstring) (t : jsstring) (c : char) :
  trim s = t ++ [c] -> isSpace c = false.
Proof.
  unfold trim. intros E.
  apply (f_equal (@rev char)) in E. rewrite rev_involutive, rev_app_distr in E.
  simpl in E. eapply dropWhile_head. exact E.
Qed.

(* --------------------------------------------------------------------- *)
(** ** Global replacement by the patterns of [slugify] *)
(* --------------------------------------------------------------------- *)

(** Replacing every code unit of a class. *)
Lemma replaceAllFrom_class (p : char -> bool) (rep : jsstring) :
  forall fuel pv t, (length t < fuel)%nat ->
    replaceAllFrom fuel (Chr p) rep pv t = flat_map (fun c => if p c then rep else [c]) t.
Proof.
  induction fuel as [|fuel IH]; intros pv t Hf; [lia|].
  destruct t as [|c t]; [reflexivity|].
  simpl in Hf. cbn [replaceAllFrom flat_map]. unfold matchAt. cbn [rmatch rest].
  destruct (p c) eqn:Hp.
  - cbn [rest advance length]. 
    replace (length t <? S (length t))%nat with true by (symmetry; apply Nat.ltb_lt; lia).
    rewrite IH by lia. reflexivity.
  - rewrite IH by lia. reflexivity.
Qed.

Lemma replaceAll_class_remove (p : char -> bool) (s : jsstring) :
  replaceAll (Chr p) [] s = filter (fun c => negb (p c)) s.
Proof.
  unfold replaceAll. rewrite replaceAllFrom_class by lia.
  induction s as [|c t IH]; simpl; [reflexivity|].
  destruct (p c); simpl; rewrite IH; reflexivity.
Qed.

Lemma skipRun_rest (p : char -> bool) (pv : option char) (t : jsstring) :
  rest (skipRun p pv t) = dropWhile p t.
Proof.
  revert pv. induction t as [|c t IH]; intros pv; simpl; [reflexivity|].
  destruct (p c); [apply IH | reflexivity].
Qed.

Lemma starLoop_S (A : Type) (body : mstate -> (mstate -> option A) -> option A)
  (k : mstate -> option A) (n : nat) (s0 : mstate) :
  starLoop body k (S n) s0 =
  match body s0 (fun s1 => if (length (rest s1) <? length (rest s0))%nat
                           then starLoop body k n s1 else None) with
  | Some x => Some x
  | None => k s0
  end.
Proof. reflexivity. Qed.

Lemma rmatch_Chr (A : Type) (p : char -> bool) (s : mstate) (k : mstate -> option A) :
  rmatch (Chr p) s k =
  match rest s with
  | c :: t => if p c then k (advance c t s) else None
  | [] => None
  end.
Proof. reflexivity. Qed.

Lemma starLoop_class (p : char -> bool) :
  forall n pv t, (length t <= n)%nat ->
    starLoop (rmatch (Chr p)) (fun s => Some s) n {| prev := pv; rest := t; caps := [] |}
    = Some (skipRun p pv t).
Proof.
  induction n as [|n IH]; intros pv t Hn.
  - destruct t; simpl in *; [reflexivity | lia].
  - destruct t as [|c t]; [reflexivity|].
    simpl in Hn. rewrite starLoop_S, rmatch_Chr. cbn [rest skipRun].
    destruct (p c) eqn:Hp; [|reflexivity].
    unfold advance. cbn [rest caps length].
    replace (length t <? S (length t))%nat with true by (symmetry; apply Nat.ltb_lt; lia).
    rewrite IH by lia. reflexivity.
Qed.

(** [c+] at a position: the longest run, when there is one. *)
Lemma matchAt_plus (p : char -> bool) (pv : option char) (t : jsstring) :
  matchAt (plus (Chr p)) pv t =
  match t with
  | c :: t' => if p c then Some (skipRun p (Some c) t') else None
  | [] => None
  end.
Proof.
  unfold matchAt, plus. destruct t as [|c t]; [reflexivity|].
  cbn [rmatch rest]. destruct (p c); [|reflexivity].
  cbn [advance rest caps]. apply starLoop_class. lia.
Qed.

Lemma collapseRuns_dropWhile (p : char -> bool) (rep t : jsstring) :
  collapseRuns p rep true t = collapseRuns p rep false (dropWhile p t).
Proof.
  induction t as [|c t IH]; simpl; [reflexivity|].
  destruct (p c) eqn:Hp; simpl; [exact IH | rewrite Hp; reflexivity].
Qed.

Lemma replaceAllFrom_plus (p : char -> bool) (rep : jsstring) :
  forall fuel pv t, (length t < fuel)%nat ->
    replaceAllFrom fuel (plus (Chr p)) rep pv t = collapseRuns p rep false t.
Proof.
  induction fuel as [|fuel IH]; intros pv t Hf; [lia|].
  destruct t as [|c t]; [reflexivity|].
  simpl in Hf. cbn [replaceAllFrom]. rewrite matchAt_plus. cbn [collapseRuns].
  destruct (p c) eqn:Hp.
  - rewrite skipRun_rest.
    pose proof (dropWhile_length p t) as Hl. cbn [length].
    replace (length (dropWhile p t) <? S (length t))%nat with true
      by (symmetry; apply Nat.ltb_lt; lia).
    rewrite IH by lia. rewrite collapseRuns_dropWhile. reflexivity.
  - rewrite IH by lia. reflexivity.
Qed.

Lemma replaceAll_plus (p : char -> bool) (rep s : jsstring) :
  replaceAll (plus (Chr p)) rep s = collapseRuns p rep false s.
Proof. unfold replaceAll. apply replaceAllFrom_plus. lia. Qed.

(** The code units after collapsing are those of the text outside the
    class, and those of the replacement. *)
Lemma collapseRuns_chars (Q p : char -> bool) (rep : jsstring) :
  forallb Q rep = true ->
  forall t b, forallb (fun c => p c || Q c) t = true ->
    forallb Q (collapseRuns p rep b t) = true.
Proof.
  intros Hrep. induction t as [|c t IH]; intros b; simpl; [reflexivity|].
  intros Hc. apply andb_true_iff in Hc. destruct Hc as [Hc Ht].
  destruct (p c) eqn:Hp.
  - rewrite forallb_app, (IH true Ht). destruct b; simpl; [reflexivity|].
    rewrite Hrep. reflexivity.
  - simpl in Hc. simpl. rewrite Hc. apply IH. exact Ht.
Qed.

Lemma noDouble_cons (h c : char) (s : jsstring) :
  noDouble h (c :: s) = negb ((h =? c)%N && startsWithChar h s) && noDouble h s.
Proof. destruct s; simpl; [rewrite andb_false_r|]; reflexivity. Qed.

Lemma collapse_noDouble (h : char) (t : jsstring) :
  noDouble h (collapseRuns (N.eqb h) [h] false t) = true
  /\ noDouble h (collapseRuns (N.eqb h) [h] true t) = true
  /\ startsWithChar h (collapseRuns (N.eqb h) [h] true t) = false.
Proof.
  induction t as [|c t (IH1 & IH2 & IH3)]; [simpl; auto|].
  cbn [collapseRuns]. destruct (N.eqb h c) eqn:Hc.
  - cbn [app]. rewrite noDouble_cons, IH2, IH3, andb_false_r. auto.
  - rewrite !noDouble_cons, IH1, Hc.
    unfold startsWithChar at 3. rewrite Hc. auto.
Qed.

Lemma matchAt_edge (h : char) (pv : option char) (t : jsstring) :
  matchAt (reEdge h) pv t =
  match t with
  | c :: t' =>
      if (h =? c)%N then
        match pv, t' with
        | None, _ => Some {| prev := Some c; rest := t'; caps := [] |}
        | Some _, [] => Some {| prev := Some c; rest := []; caps := [] |}
        | Some _, _ :: _ => None
        end
      else None
  | [] => None
  end.
Proof.
  unfold matchAt, reEdge, chr. destruct t as [|c t]; simpl.
  - destruct pv; reflexivity.
  - destruct pv; simpl; destruct (h =? c)%N; simpl; try reflexivity;
      destruct t; reflexivity.
Qed.

Lemma replaceAllFrom_edge_inside (h : char) :
  forall fuel d t, (length t < fuel)%nat ->
    replaceAllFrom fuel (reEdge h) [] (Some d) t = dropLastChar h t.
Proof.
  induction fuel as [|fuel IH]; intros d t Hf; [lia|].
  destruct t as [|c t]; [reflexivity|].
  simpl in Hf. cbn [replaceAllFrom]. rewrite matchAt_edge.
  destruct (h =? c)%N eqn:Hc.
  - destruct t as [|e t].
    + simpl. rewrite Hc. destruct fuel; reflexivity.
    + rewrite IH by lia. reflexivity.
  - rewrite IH by lia. destruct t; simpl; [rewrite Hc|]; reflexivity.
Qed.

Lemma replaceAll_edge (h : char) (s : jsstring) :
  replaceAll (reEdge h) [] s = dropLastChar h (dropFirstChar h s).
Proof.
  unfold replaceAll. destruct s as [|c t]; [reflexivity|].
  cbn [replaceAllFrom]. rewrite matchAt_edge. cbn [dropFirstChar].
  destruct (h =? c)%N eqn:Hc.
  - cbn [rest prev length].
    replace (length t <? S (length t))%nat with true by (symmetry; apply Nat.ltb_lt; lia).
    cbn [app]. apply replaceAllFrom_edge_inside. simpl. lia.
  - rewrite replaceAllFrom_edge_inside by (simpl; lia).
    destruct t; simpl; [rewrite Hc|]; reflexivity.
Qed.

(* --------------------------------------------------------------------- *)
(** ** [slugify] *)
(* --------------------------------------------------------------------- *)

Lemma forallb_filter_same (p : char -> bool) (s : jsstring) :
  forallb p (filter p s) = true.
Proof.
  induction s as [|c t IH]; simpl; [reflexivity|].
  destruct (p c) eqn:E; simpl; [rewrite E|]; exact IH.
Qed.

Lemma forallb_impl (p q : char -> bool) (s : jsstring) :
  (forall c, p c = true -> q c = true) -> forallb p s = true -> forallb q s = true.
Proof.
  intros Hpq. induction s as [|c t IH]; simpl; [reflexivity|].
  intros Hs. apply andb_true_iff in Hs. destruct Hs as [Hc Ht].
  rewrite (Hpq c Hc), (IH Ht). reflexivity.
Qed.

Lemma forallb_dropFirst (Q : char -> bool) (h : char) (s : jsstring) :
  forallb Q s = true -> forallb Q (dropFirstChar h s) = true.
Proof.
  destruct s as [|c t]; simpl; [auto|]. destruct (h =? c)%N; simpl; [|auto].
  intros Hs. apply andb_true_iff in Hs. apply Hs.
Qed.

Lemma forallb_dropLast (Q : char -> bool) (h : char) (s : jsstring) :
  forallb Q s = true -> forallb Q (dropLastChar h s) = true.
Proof.
  induction s as [|c t IH]; [auto|]. intros Hs.
  cbn [forallb] in Hs. apply andb_true_iff in Hs. destruct Hs as [Hc Ht].
  cbn [dropLastChar]. destruct t as [|e t'].
  - destruct (h =? c)%N; simpl; [reflexivity | rewrite Hc; reflexivity].
  - cbn [forallb]. rewrite Hc. apply IH. exact Ht.
Qed.

Lemma noDouble_dropFirst (h : char) (s : jsstring) :
  noDouble h s = true ->
  noDouble h (dropFirstChar h s) = true /\ startsWithChar h (dropFirstChar h s) = false.
Proof.
  destruct s as [|c t]; [auto|]. rewrite noDouble_cons. cbn [dropFirstChar].
  intros Hs. apply andb_true_iff in Hs. destruct Hs as [Hc Ht].
  destruct (h =? c)%N eqn:E.
  - simpl in Hc. apply negb_true_iff in Hc. auto.
  - rewrite noDouble_cons, E, Ht. simpl. rewrite E. auto.
Qed.

Lemma startsWith_dropLast (h : char) (s : jsstring) :
  startsWithChar h s = false -> startsWithChar h (dropLastChar h s) = false.
Proof.
  destruct s as [|c t]; [auto|]. cbn [startsWithChar dropLastChar]. intros E.
  destruct t; [rewrite E|]; simpl; auto.
Qed.

Lemma noDouble_dropLast (h : char) (s : jsstring) :
  noDouble h s = true ->
  noDouble h (dropLastChar h s) = true /\ endsWithChar h (dropLastChar h s) = false.
Proof.
  induction s as [|c t IH]; [auto|]. rewrite noDouble_cons. intros Hs.
  apply andb_true_iff in Hs. destruct Hs as [Hc Ht]. apply negb_true_iff in Hc.
  specialize (IH Ht). destruct IH as [IH1 IH2].
  cbn [dropLastChar]. destruct t as [|e t'].
  - destruct (h =? c)%N eqn:E; simpl; [auto | rewrite E; auto].
  - rewrite noDouble_cons, IH1.
    remember (dropLastChar h (e :: t')) as X eqn:EX.
    destruct X as [|x X'].
    + simpl. cbn [dropLastChar] in EX. destruct t'; [|discriminate].
      destruct (h =? e)%N eqn:Ee; [|discriminate].
      cbn [startsWithChar] in Hc. rewrite Ee, andb_true_r in Hc. rewrite Hc. auto.
    + cbn [endsWithChar]. split; [|exact IH2].
      assert (Hx : x = e).
      { cbn [dropLastChar] in EX. destruct t'.
        - destruct (h =? e)%N; [discriminate | inversion EX; reflexivity].
        - inversion EX; reflexivity. }
      subst x. cbn [startsWithChar] in *. rewrite Hc. reflexivity.
Qed.

Lemma startsWithChar_false (h : char) (s : jsstring) :
  startsWithChar h s = false -> forall t, s <> h :: t.
Proof.
  intros E t Es. subst s. simpl in E. rewrite N.eqb_refl in E. discriminate.
Qed.

Lemma endsWithChar_app (h : char) (t : jsstring) : endsWithChar h (t ++ [h]) = true.
Proof.
  induction t as [|c t IH]; simpl; [apply N.eqb_refl|].
  destruct (t ++ [h]) eqn:E; [destruct t; discriminate | exact IH].
Qed.

Lemma endsWithChar_false (h : char) (s : jsstring) :
  endsWithChar h s = false -> forall t, s <> t ++ [h].
Proof.
  intros E t Es. subst s. rewrite endsWithChar_app in E. discriminate.
Qed.

Lemma noDouble_app (h : char) (a b : jsstring) : noDouble h (a ++ h :: h :: b) = false.
Proof.
  induction a as [|c a IH].
  - simpl. rewrite N.eqb_refl. reflexivity.
  - change ((c :: a) ++ h :: h :: b) with (c :: (a ++ h :: h :: b)).
    rewrite noDouble_cons, IH. apply andb_false_r.
Qed.

Lemma noDouble_true (h : char) (s : jsstring) :
  noDouble h s = true -> forall a b, s <> a ++ [h; h] ++ b.
Proof.
  intros E a b Es. subst s. simpl in E. rewrite noDouble_app in E. discriminate.
Qed.

Section SlugifyProperties.
Context {H : Host}.

(** What [slugify] computes, in terms of the plain list operations. *)
Lemma slugify_unfold (T : jsstring) :
  slugify T =
  dropLastChar (ch "-") (dropFirstChar (ch "-")
    (collapseRuns (N.eqb (ch "-")) [ch "-"] false
      (collapseRuns isSpace [ch "-"] false
        (filter isSlugSource
          (filter (fun c => negb (isCombining c))
            (normalizeNFD (toLowerCase T))))))).
Proof.
  unfold slugify.
  change reEdgeHyphen with (reEdge (ch "-")). rewrite replaceAll_edge.
  unfold reHyphens, chr. rewrite replaceAll_plus.
  unfold spaces1. rewrite replaceAll_plus.
  unfold reNotSlugSource, reCombining. rewrite !replaceAll_class_remove.
  do 4 f_equal. apply filter_ext. intros c. apply negb_involutive.
Qed.

(** C7: a slug is made of [[a-z0-9-]] only, does not start or end with a
    hyphen and has no two hyphens in a row. *)
Theorem slugify_shape (T : jsstring) :
  Forall (fun c => isSlugChar c = true) (slugify T)
  /\ (forall t, slugify T <> ch "-" :: t)
  /\ (forall t, slugify T <> t ++ [ch "-"])
  /\ (forall a b, slugify T <> a ++ [ch "-"; ch "-"] ++ b).
Proof.
  rewrite slugify_unfold.
  set (s3 := filter _ (normalizeNFD _)).
  set (s4 := filter isSlugSource s3).
  set (s5 := collapseRuns isSpace [ch "-"] false s4).
  set (s6 := collapseRuns (N.eqb (ch "-")) [ch "-"] false s5).
  assert (H4 : forallb isSlugSource s4 = true) by apply forallb_filter_same.
  assert (H5 : forallb isSlugChar s5 = true).
  { apply collapseRuns_chars; [reflexivity|].
    revert H4. apply forallb_impl. intros c. unfold isSlugSource, isSlugChar.
    destruct (isAsciiLower c), (isDigit c), (isSpace c), (c =? ch "-")%N; auto. }
  assert (H6 : forallb isSlugChar s6 = true).
  { apply collapseRuns_chars; [reflexivity|].
    revert H5. apply forallb_impl. intros c Hc. rewrite Hc. apply orb_true_r. }
  assert (D6 : noDouble (ch "-") s6 = true) by apply collapse_noDouble.
  destruct (noDouble_dropFirst _ _ D6) as [D7 S7].
  destruct (noDouble_dropLast _ _ D7) as [D8 E8].
  pose proof (startsWith_dropLast _ _ S7) as S8.
  split; [|split; [|split]].
  - apply Forall_forall. apply forallb_forall.
    apply forallb_dropLast, forallb_dropFirst, H6.
  - apply startsWithChar_false, S8.
  - apply endsWithChar_false, E8.
  - apply noDouble_true, D8.
Qed.
End SlugifyProperties.

(* --------------------------------------------------------------------- *)
(** ** Index entries and titles *)
(* --------------------------------------------------------------------- *)

Lemma reach_star_run (p : char -> bool) (w : jsstring) :
  forall pv t cs, forallb p w = true ->
    exists pv', reach (Star (Chr p)) (MState pv (w ++ t) cs) (MState pv' t cs).
Proof.
  induction w as [|c w IH]; intros pv t cs Hw.
  - exists pv. apply R_StarNil.
  - simpl in Hw. apply andb_true_iff in Hw. destruct Hw as [Hc Hw].
    destruct (IH (Some c) t cs Hw) as (pv' & Hr). exists pv'.
    eapply R_StarCons; [| |exact Hr].
    + apply (@R_Chr p (MState pv ((c :: w) ++ t) cs) c (w ++ t)); [reflexivity | exact Hc].
    + simpl. lia.
Qed.

Lemma reach_plus_run (p : char -> bool) (w : jsstring) :
  forall pv t cs, w <> [] -> forallb p w = true ->
    exists pv', reach (plus (Chr p)) (MState pv (w ++ t) cs) (MState pv' t cs).
Proof.
  intros pv t cs Hne Hw. destruct w as [|c w]; [contradiction|].
  simpl in Hw. apply andb_true_iff in Hw. destruct Hw as [Hc Hw].
  destruct (reach_star_run p w (Some c) t cs Hw) as (pv' & Hr). exists pv'.
  eapply R_Seq; [|exact Hr].
  apply (@R_Chr p (MState pv ((c :: w) ++ t) cs) c (w ++ t)); [reflexivity | exact Hc].
Qed.

Lemma indexEntryShape_matches (line : jsstring) :
  indexEntryShape line -> matchesIn reIndexEntry line.
Proof.
  intros (pre & ws1 & ds & ws2 & E & H1 & Hne & H2 & H3).
  exists pre, ([ch "·"] ++ ws1 ++ ds ++ ws2). unfold startState.
  set (pv := last (map Some pre) None).
  destruct (reach_star_run isSpace ws1 (Some (ch "·")) (ds ++ ws2) [] H1) as (pv1 & R1).
  destruct (@reach_plus_run isDigit ds pv1 ws2 [] Hne H2) as (pv2 & R2).
  pose proof (reach_star_run isSpace ws2 pv2 [] [] H3) as (pv3 & R3).
  rewrite app_nil_r in R3.
  exists (MState pv3 [] []). split; [exact E|].
  unfold reIndexEntry. cbn [seqs].
  eapply R_Seq; [|eapply R_Seq; [exact R1|eapply R_Seq; [exact R2|eapply R_Seq; [exact R3|]]]].
  - apply (@R_Chr _ (MState pv ([ch "·"] ++ ws1 ++ ds ++ ws2) []) (ch "·") (ws1 ++ ds ++ ws2));
      reflexivity.
  - apply R_Eol. reflexivity.
Qed.

Section TitleProperties.

Lemma isIndexEntry_shape (line : jsstring) :
  indexEntryShape line -> isIndexEntry line = true.
Proof.
  intros Hs. unfold isIndexEntry. apply test_matchesIn.
  apply indexEntryShape_matches. exact Hs.
Qed.

(** C6: a line with the shape of an index entry is never a recipe title,
    whatever its letters are. *)
Theorem isRecipeTitle_index_entry (line : jsstring) :
  indexEntryShape line -> isRecipeTitle line = false.
Proof.
  intros Hs. unfold isRecipeTitle. rewrite (isIndexEntry_shape Hs).
  destruct (length _ <? 3)%nat; reflexivity.
Qed.

(** A witness line whose letters are all capitals. *)
Lemma isRecipeTitle_index_entry_witness :
  isRecipeTitle (js "POLLO AL HORNO · 12") = false
  /\ isRecipeTitle (js "POLLO AL HORNO") = true.
Proof.
  split; [|vm_compute; reflexivity].
  apply isRecipeTitle_index_entry.
  exists (js "POLLO AL HORNO "), (js " "), (js "12"), [].
  repeat split; try reflexivity. discriminate.
Defined.
End TitleProperties.

(* --------------------------------------------------------------------- *)
(** ** [separateContent] *)
(* --------------------------------------------------------------------- *)

Lemma join_nonempty (sep : jsstring) (x : jsstring) (l : list jsstring) :
  x <> [] -> join sep (x :: l) <> [].
Proof.
  intros Hx. destruct l; simpl; [exact Hx|].
  destruct x; [contradiction | discriminate].
Qed.

Lemma join_two_nonempty (x y : jsstring) (l : list jsstring) :
  join [LF] (x :: y :: l) <> [].
Proof. cbn [join]. destruct x; discriminate. Qed.

Section SeparateProperties.

(** A blank line changes neither bucket. *)
Lemma sepStep_blank (st : SepState) (line : jsstring) :
  trim line = [] ->
  ingredientLines (sepStep st line) = ingredientLines st
  /\ methodLines (sepStep st line) = methodLines st
  /\ inMethod (sepStep st line) = inMethod st.
Proof.
  intros E. unfold sepStep. rewrite E. cbn [isEmpty].
  destruct (_ && _)%bool; simpl; auto.
Qed.

(** In the method section, a line that is not blank goes to the method. *)
Lemma sepStep_inMethod (st : SepState) (line : jsstring) :
  inMethod st = true ->
  inMethod (sepStep st line) = true
  /\ ingredientLines (sepStep st line) = ingredientLines st
  /\ methodLines (sepStep st line) = methodLines st ++ nonBlankLines [line].
Proof.
  intros Hm. unfold sepStep, nonBlankLines. cbn [map filter].
  destruct (trim line) as [|c t] eqn:E; cbn [isEmpty negb].
  - rewrite Hm, andb_false_r, app_nil_r. auto.
  - rewrite Hm, andb_false_r. cbn. auto.
Qed.

Lemma nonBlankLines_app (l1 l2 : list jsstring) :
  nonBlankLines (l1 ++ l2) = nonBlankLines l1 ++ nonBlankLines l2.
Proof. unfold nonBlankLines. rewrite map_app, filter_app. reflexivity. Qed.

Lemma sepRun_inMethod (lines : list jsstring) :
  forall st, inMethod st = true ->
    inMethod (fold_left sepStep lines st) = true
    /\ ingredientLines (fold_left sepStep lines st) = ingredientLines st
    /\ methodLines (fold_left sepStep lines st) = methodLines st ++ nonBlankLines lines.
Proof.
  induction lines as [|l lines IH]; intros st Hm.
  - simpl. rewrite app_nil_r. auto.
  - cbn [fold_left]. destruct (sepStep_inMethod st l Hm) as (H1 & H2 & H3).
    destruct (IH _ H1) as (I1 & I2 & I3).
    rewrite I1, I2, I3, H2, H3, <- app_assoc.
    change (l :: lines) with ([l] ++ lines). rewrite nonBlankLines_app. auto.
Qed.

(** C9: once the loop of [separateContent] has entered the method section
    it stays there: the lines that follow leave the ingredient lines as
    they are, and each of them that is not blank is added to the method
    lines. *)
Theorem separateContent_one_way (before after : list jsstring) :
  inMethod (fold_left sepStep before sepInit) = true ->
  inMethod (fold_left sepStep (before ++ after) sepInit) = true
  /\ ingredientLines (fold_left sepStep (before ++ after) sepInit)
     = ingredientLines (fold_left sepStep before sepInit)
  /\ methodLines (fold_left sepStep (before ++ after) sepInit)
     = methodLines (fold_left sepStep before sepInit) ++ nonBlankLines after.
Proof.
  intros Hm. rewrite fold_left_app. apply sepRun_inMethod. exact Hm.
Qed.

(** The lines collected in either bucket are not empty. *)
Lemma sepStep_nonempty (st : SepState) (line : jsstring) :
  Forall (fun l => l <> []) (ingredientLines st) ->
  Forall (fun l => l <> []) (methodLines st) ->
  Forall (fun l => l <> []) (ingredientLines (sepStep st line))
  /\ Forall (fun l => l <> []) (methodLines (sepStep st line)).
Proof.
  intros Hi Hm. unfold sepStep.
  destruct (trim line) as [|c t] eqn:E; cbn [isEmpty].
  - destruct (_ && _)%bool; simpl; auto.
  - assert (Hn : Forall (fun l : jsstring => l <> []) [c :: t])
      by (constructor; [discriminate | constructor]).
    repeat match goal with
           | |- context [if ?b then _ else _] => destruct b
           end; cbn [ingredientLines methodLines]; split; auto;
      apply Forall_app; split; auto.
Qed.

Lemma sepRun_nonempty (body : jsstring) :
  Forall (fun l => l <> []) (ingredientLines (sepRun body))
  /\ Forall (fun l => l <> []) (methodLines (sepRun body)).
Proof.
  unfold sepRun.
  assert (G : forall lines st,
             Forall (fun l => l <> []) (ingredientLines st) ->
             Forall (fun l => l <> []) (methodLines st) ->
             Forall (fun l => l <> []) (ingredientLines (fold_left sepStep lines st))
             /\ Forall (fun l => l <> []) (methodLines (fold_left sepStep lines st))).
  { induction lines as [|l lines IH]; intros st Hi Hm; [simpl; auto|].
    cbn [fold_left]. destruct (sepStep_nonempty st l Hi Hm). apply IH; assumption. }
  apply G; constructor.
Qed.

(** C8: the acceptance rule of [separateContent], and Example 2. *)
Theorem separateContent_rule :
  (forall body,
      ((2 <= length (ingredientLines (sepRun body)))%nat
       /\ (1 <= length (methodLines (sepRun body)))%nat ->
       separateContent body =
       {| sep_ingredientes := Some (join [LF] (ingredientLines (sepRun body)));
          sep_metodo := Some (join [LF; LF] (methodLines (sepRun body)));
          sep_content := None |})
      /\ (~ ((2 <= length (ingredientLines (sepRun body)))%nat
             /\ (1 <= length (methodLines (sepRun body)))%nat) ->
          separateContent body =
          {| sep_ingredientes := None; sep_metodo := None;
             sep_content := Some (trim body) |}))
  /\ separateContent exampleBody =
     {| sep_ingredientes :=
          Some (js "2 tazas de harina" ++ [LF] ++ js "1 taza de azúcar");
        sep_metodo :=
          Some (js "Mezclar los ingredientes secos." ++ [LF; LF]
                ++ js "Hornear a 180 grados.");
        sep_content := None |}.
Proof.
  split; [|vm_compute; reflexivity].
  intros body. unfold separateContent. split; intros Hc.
  - destruct Hc as [H1 H2]. apply Nat.leb_le in H1, H2. rewrite H1, H2. reflexivity.
  - destruct (2 <=? length (ingredientLines (sepRun body)))%nat eqn:E1;
      destruct (1 <=? length (methodLines (sepRun body)))%nat eqn:E2;
      cbn [andb]; try reflexivity.
    exfalso. apply Hc. split; apply Nat.leb_le; assumption.
Qed.
End SeparateProperties.

(** The rule applied to the body of Example 2. *)
Lemma separateContent_rule_witness :
  separateContent exampleBody =
  {| sep_ingredientes := Some (join [LF] (ingredientLines (sepRun exampleBody)));
     sep_metodo := Some (join [LF; LF] (methodLines (sepRun exampleBody)));
     sep_content := None |}.
Proof.
  apply (proj1 separateContent_rule).
  vm_compute. split; repeat constructor.
Defined.

(** The method section entered after the first four lines of Example 2
    keeps a line that looks like an ingredient. *)
Lemma separateContent_one_way_witness :
  methodLines
    (fold_left sepStep
       ([js "2 tazas de harina"; js "1 taza de azúcar"; js "";
         js "Mezclar los ingredientes secos."] ++ [js "2 tazas de leche"; js " "])
       sepInit)
  = [js "Mezclar los ingredientes secos."; js "2 tazas de leche"].
Proof.
  refine (eq_trans (proj2 (proj2 (@separateContent_one_way _ _ _))) _);
    vm_compute; reflexivity.
Defined.

(* --------------------------------------------------------------------- *)
(** ** [parseRecipes] and the records of [main] *)
(* --------------------------------------------------------------------- *)

Lemma isEmpty_false (s : jsstring) : isEmpty s = false <-> s <> [].
Proof. destruct s; simpl; split; congruence. Qed.

Lemma saveRecipe_hasBody (rs : list RawRecipe) (cur : option RawRecipe) :
  Forall hasBody rs -> Forall hasBody (saveRecipe rs cur).
Proof.
  intros Hrs. unfold saveRecipe. destruct cur as [r|]; [|exact Hrs].
  destruct (isEmpty (trim (rawContent r))) eqn:E; cbn [negb]; [exact Hrs|].
  apply Forall_app. split; [exact Hrs|].
  constructor; [|constructor]. apply isEmpty_false. exact E.
Qed.

Section ParseProperties.
Context {H : Host}.

Lemma parseLine_hasBody (st : ParseState) (line trimmed : jsstring) (idx : bool) :
  Forall hasBody (recipes st) -> Forall hasBody (recipes (parseLine st line trimmed idx)).
Proof.
  intros Hst. unfold parseLine. destruct (isRecipeTitle trimmed).
  - cbn [recipes]. apply saveRecipe_hasBody. exact Hst.
  - destruct (currentRecipe st); exact Hst.
Qed.

Lemma parseStep_hasBody (st : ParseState) (line : jsstring) :
  Forall hasBody (recipes st) -> Forall hasBody (recipes (parseStep st line)).
Proof.
  intros Hst. unfold parseStep.
  repeat match goal with
         | |- context [if ?b then _ else _] => destruct b
         end; auto using parseLine_hasBody.
Qed.

(** Every recipe that [parseRecipes] returns has a body that is not blank. *)
Lemma parseRecipes_hasBody (text : jsstring) : Forall hasBody (parseRecipes text).
Proof.
  unfold parseRecipes. apply saveRecipe_hasBody.
  assert (G : forall lines st, Forall hasBody (recipes st) ->
                               Forall hasBody (recipes (fold_left parseStep lines st))).
  { induction lines as [|l lines IH]; intros st Hst; [exact Hst|].
    cbn [fold_left]. apply IH, parseStep_hasBody, Hst. }
  apply G. constructor.
Qed.

(** C3: a record written by [main] has either [content], which is then not
    empty, and neither [ingredientes] nor [metodo]; or both [ingredientes]
    and [metodo], not empty, and no [content]. *)
Theorem processedRecipes_shape (text : jsstring) (r : Recipe) :
  In r (processedRecipes text) ->
  (exists c, content r = Some c /\ c <> []
             /\ ingredientes r = None /\ metodo r = None)
  \/ (exists i m, ingredientes r = Some i /\ i <> []
                  /\ metodo r = Some m /\ m <> []
                  /\ content r = None).
Proof.
  unfold processedRecipes. intros Hin. apply in_map_iff in Hin.
  destruct Hin as (raw & Er & Hin). subst r.
  pose proof (parseRecipes_hasBody text) as Hall.
  rewrite Forall_forall in Hall. specialize (Hall raw Hin).
  unfold processRecipe, separateContent. cbn [content ingredientes metodo].
  destruct (sepRun_nonempty (rawContent raw)) as [Hi Hm].
  destruct (2 <=? length (ingredientLines (sepRun (rawContent raw))))%nat eqn:E1;
    destruct (1 <=? length (methodLines (sepRun (rawContent raw))))%nat eqn:E2;
    cbn [andb sep_content sep_ingredientes sep_metodo];
    try (left; eexists; repeat split; exact Hall).
  right. do 2 eexists. repeat split.
  - apply Nat.leb_le in E1.
    destruct (ingredientLines (sepRun (rawContent raw))) as [|x [|y l]];
      simpl in E1; try lia. apply join_two_nonempty.
  - apply Nat.leb_le in E2.
    destruct (methodLines (sepRun (rawContent raw))) as [|x l];
      simpl in E2; try lia. apply join_nonempty. inversion Hm; assumption.
Qed.
End ParseProperties.

Lemma processedRecipes_shape_witness :
  In exampleRecipe (@processedRecipes plainHost exampleText)
  /\ ((exists c, content exampleRecipe = Some c /\ c <> []
                 /\ ingredientes exampleRecipe = None /\ metodo exampleRecipe = None)
      \/ (exists i m, ingredientes exampleRecipe = Some i /\ i <> []
                      /\ metodo exampleRecipe = Some m /\ m <> []
                      /\ content exampleRecipe = None)).
Proof.
  split.
  - vm_compute. right. left. reflexivity.
  - apply (@processedRecipes_shape plainHost exampleText).
    vm_compute. right. left. reflexivity.
Defined.

(* --------------------------------------------------------------------- *)
(** ** Sets and maps with string keys *)
(* --------------------------------------------------------------------- *)

Lemma existsb_str_eqb (k : jsstring) (l : list jsstring) :
  existsb (str_eqb k) l = true <-> In k l.
Proof.
  rewrite existsb_exists. split.
  - intros (x & Hin & E). apply str_eqb_eq in E. subst. exact Hin.
  - intros Hin. exists k. split; [exact Hin | apply str_eqb_refl].
Qed.

Lemma existsb_str_eqb_false (k : jsstring) (l : list jsstring) :
  existsb (str_eqb k) l = false <-> ~ In k l.
Proof.
  rewrite <- existsb_str_eqb. destruct (existsb (str_eqb k) l); split; congruence.
Qed.

Lemma newSet_snoc (l : list jsstring) (k : jsstring) :
  newSet (l ++ [k]) = set_add (newSet l) k.
Proof. unfold newSet. rewrite fold_left_app. reflexivity. Qed.

Lemma newSet_in (l : list jsstring) (k : jsstring) : In k (newSet l) <-> In k l.
Proof.
  induction l as [|x l IH] using rev_ind; [simpl; tauto|].
  rewrite newSet_snoc. unfold set_add.
  destruct (existsb (str_eqb x) (newSet l)) eqn:E.
  - apply existsb_str_eqb in E. rewrite in_app_iff, IH. simpl.
    split; [tauto|]. intros [Hk|[Hk|[]]]; [exact Hk|]. subst. apply IH. exact E.
  - rewrite !in_app_iff, IH. tauto.
Qed.

Lemma newSet_NoDup (l : list jsstring) : NoDup (newSet l).
Proof.
  induction l as [|x l IH] using rev_ind; [constructor|].
  rewrite newSet_snoc. unfold set_add.
  destruct (existsb (str_eqb x) (newSet l)) eqn:E; [exact IH|].
  apply existsb_str_eqb_false in E.
  apply (Permutation_NoDup (Permutation_cons_append (newSet l) x)).
  constructor; assumption.
Qed.

(** The set of the strings of a list has as many elements as the list has
    distinct strings. *)
Lemma newSet_nodup (l : list jsstring) :
  Permutation (newSet l) (nodup (list_eq_dec N.eq_dec) l).
Proof.
  apply NoDup_Permutation; [apply newSet_NoDup | apply NoDup_nodup|].
  intros k. rewrite newSet_in, nodup_In. tauto.
Qed.

Section MapLemmas.
Variable V : Type.

Lemma map_has_keys (k : jsstring) (m : jsmap V) :
  map_has k m = existsb (str_eqb k) (map fst m).
Proof.
  induction m as [|[k' v] m IH]; simpl; [reflexivity|].
  rewrite IH, (str_eqb_sym k' k). reflexivity.
Qed.

Lemma map_set_fresh (k : jsstring) (v : V) (m : jsmap V) :
  ~ In k (map fst m) -> map_set k v m = m ++ [(k, v)].
Proof.
  induction m as [|[k' v'] m IH]; simpl; [reflexivity|].
  intros Hn. destruct (str_eqb k' k) eqn:E.
  - apply str_eqb_eq in E. tauto.
  - rewrite IH by tauto. reflexivity.
Qed.

Lemma map_update_absent (k : jsstring) (f : V -> V) (m : jsmap V) :
  ~ In k (map fst m) -> map_update k f m = m.
Proof.
  induction m as [|[k' v'] m IH]; simpl; [reflexivity|].
  intros Hn. destruct (str_eqb k' k) eqn:E.
  - apply str_eqb_eq in E. tauto.
  - rewrite IH by tauto. reflexivity.
Qed.

Lemma map_update_app (k : jsstring) (f : V -> V) (m1 m2 : jsmap V) :
  ~ In k (map fst m1) -> map_update k f (m1 ++ m2) = m1 ++ map_update k f m2.
Proof.
  induction m1 as [|[k' v'] m1 IH]; simpl; [reflexivity|].
  intros Hn. destruct (str_eqb k' k) eqn:E.
  - apply str_eqb_eq in E. tauto.
  - rewrite IH by tauto. reflexivity.
Qed.

(** Updating a map given by a table over keys without repetition. *)
Lemma map_update_table (k : jsstring) (f : V -> V) (F : jsstring -> V)
  (ks : list jsstring) :
  NoDup ks ->
  map_update k f (map (fun k' => (k', F k')) ks)
  = map (fun k' => (k', if str_eqb k' k then f (F k') else F k')) ks.
Proof.
  induction ks as [|k0 ks IH]; intros Hnd; [reflexivity|].
  inversion Hnd as [|? ? Hn Hnd']; subst. cbn [map map_update].
  destruct (str_eqb k0 k) eqn:E.
  - apply str_eqb_eq in E. subst k0. f_equal.
    apply map_ext_in. intros k' Hk'.
    destruct (str_eqb k' k) eqn:E'; [|reflexivity].
    apply str_eqb_eq in E'. subst. contradiction.
  - f_equal. apply IH. exact Hnd'.
Qed.
End MapLemmas.

Lemma flat_map_ext_in' (A B : Type) (f g : A -> list B) (l : list A) :
  (forall a, In a l -> f a = g a) -> flat_map f l = flat_map g l.
Proof.
  induction l as [|a l IH]; intros Hfg; [reflexivity|]. simpl.
  rewrite (Hfg a) by (left; reflexivity). f_equal. apply IH.
  intros b Hb. apply Hfg. right. exact Hb.
Qed.

(** Grouping by a key with a [Map] of arrays: the loop
      [if (!m.has(k)) m.set(k, []); m.get(k).push(v)]
    leaves, for each key in the order of first occurrence, the values of
    that key in the order of the input. *)
Section Grouping.
Variables X Y : Type.
Variable keyOf : X -> jsstring.
Variable val : X -> Y.

Lemma groupTable_keys (xs : list X) : map fst ((groupTable keyOf val) xs) = newSet (map keyOf xs).
Proof. unfold groupTable. rewrite map_map. simpl. apply map_id. Qed.

Lemma filter_absent (k : jsstring) (xs : list X) :
  ~ In k (map keyOf xs) -> filter ((keyIs keyOf) k) xs = [].
Proof.
  induction xs as [|x xs IH]; simpl; [reflexivity|]. intros Hn. unfold keyIs at 1.
  destruct (str_eqb (keyOf x) k) eqn:E.
  - apply str_eqb_eq in E. tauto.
  - apply IH. tauto.
Qed.

Lemma groupStep_table (xs : list X) (x : X) :
  (groupStep keyOf val) ((groupTable keyOf val) xs) x = (groupTable keyOf val) (xs ++ [x]).
Proof.
  unfold groupStep. rewrite map_has_keys, groupTable_keys.
  unfold groupTable at 3. rewrite map_app. cbn [map]. rewrite newSet_snoc. unfold set_add.
  destruct (existsb (str_eqb (keyOf x)) (newSet (map keyOf xs))) eqn:E; cbn [negb].
  - unfold groupTable. rewrite map_update_table by apply newSet_NoDup.
    apply map_ext. intros k. rewrite filter_app, map_app. cbn [filter]. unfold keyIs.
    rewrite (str_eqb_sym k (keyOf x)).
    destruct (str_eqb (keyOf x) k); [reflexivity | rewrite app_nil_r; reflexivity].
  - apply existsb_str_eqb_false in E.
    rewrite map_set_fresh by (rewrite groupTable_keys; exact E).
    rewrite map_update_app by (rewrite groupTable_keys; exact E).
    rewrite map_app. cbn [map map_update]. rewrite str_eqb_refl. f_equal.
    + unfold groupTable. apply map_ext_in. intros k Hk.
      rewrite filter_app, map_app. cbn [filter]. unfold keyIs.
      destruct (str_eqb (keyOf x) k) eqn:E'.
      * apply str_eqb_eq in E'. subst. contradiction.
      * rewrite app_nil_r. reflexivity.
    + rewrite filter_app, map_app. cbn [filter].
      rewrite filter_absent by (rewrite <- newSet_in; exact E).
      unfold keyIs. rewrite str_eqb_refl. reflexivity.
Qed.

Lemma fold_groupStep (xs : list X) : fold_left (groupStep keyOf val) xs [] = (groupTable keyOf val) xs.
Proof.
  induction xs as [|x xs IH] using rev_ind; [reflexivity|].
  rewrite fold_left_app. simpl. rewrite IH. apply groupStep_table.
Qed.

(** The groups of a key-complete table hold every element once. *)
Lemma buckets_insert (x : X) (F : jsstring -> list X) (ks : list jsstring) :
  NoDup ks -> In (keyOf x) ks ->
  Permutation
    (flat_map (fun k => (if (keyIs keyOf) k x then [x] else []) ++ F k) ks)
    (x :: flat_map F ks).
Proof.
  induction ks as [|k ks IH]; intros Hnd Hin; [contradiction|].
  inversion Hnd as [|? ? Hn Hnd']; subst. cbn [flat_map].
  unfold keyIs at 1. destruct (str_eqb (keyOf x) k) eqn:E.
  - apply str_eqb_eq in E. subst k. simpl. constructor.
    apply Permutation_app_head.
    replace (flat_map (fun k => (if (keyIs keyOf) k x then [x] else []) ++ F k) ks)
      with (flat_map F ks); [reflexivity|].
    apply flat_map_ext_in'. intros k Hk. unfold keyIs.
    destruct (str_eqb (keyOf x) k) eqn:E'; [|reflexivity].
    apply str_eqb_eq in E'. subst. contradiction.
  - destruct Hin as [Hin|Hin]; [subst; rewrite str_eqb_refl in E; discriminate|].
    simpl. rewrite (IH Hnd' Hin). apply Permutation_sym, Permutation_middle.
Qed.

Lemma buckets_perm (xs : list X) (ks : list jsstring) :
  NoDup ks -> (forall x, In x xs -> In (keyOf x) ks) ->
  Permutation (flat_map (fun k => filter ((keyIs keyOf) k) xs) ks) xs.
Proof.
  intros Hnd. induction xs as [|x xs IH]; intros Hks.
  - replace (flat_map (fun k => filter ((keyIs keyOf) k) []) ks) with (@nil X);
      [constructor|].
    clear. induction ks as [|k ks IHk]; simpl; [reflexivity | exact IHk].
  - cbn [filter].
    rewrite (flat_map_ext _ (fun k => (if (keyIs keyOf) k x then [x] else []) ++ filter ((keyIs keyOf) k) xs)).
    + rewrite buckets_insert; [|exact Hnd | apply Hks; left; reflexivity].
      constructor. apply IH. intros y Hy. apply Hks. right. exact Hy.
    + intros k. destruct ((keyIs keyOf) k x); reflexivity.
Qed.
End Grouping.

(* --------------------------------------------------------------------- *)
(** ** [combineIngredients]: the rows it builds *)
(* --------------------------------------------------------------------- *)

Lemma fold_left_map' (A B C : Type) (f : A -> C -> A) (h : B -> C) (l : list B) :
  forall a, fold_left f (map h l) a = fold_left (fun a x => f a (h x)) l a.
Proof. induction l as [|x l IH]; intros a; simpl; [reflexivity | apply IH]. Qed.

Lemma fold_left_snoc_map (A B : Type) (f : A -> B) (l : list A) :
  forall acc, fold_left (fun res e => res ++ [f e]) l acc = acc ++ map f l.
Proof.
  induction l as [|x l IH]; intros acc; simpl; [rewrite app_nil_r; reflexivity|].
  rewrite IH, <- app_assoc. reflexivity.
Qed.

Lemma fold_left_app_flat_map (A B : Type) (f : A -> list B) (l : list A) :
  forall acc, fold_left (fun res e => res ++ f e) l acc = acc ++ flat_map f l.
Proof.
  induction l as [|x l IH]; intros acc; simpl; [rewrite app_nil_r; reflexivity|].
  rewrite IH, <- app_assoc. reflexivity.
Qed.

(** A map whose values are objects with an array, seen as a map of arrays. *)
Section MapView.
Variables W Y : Type.
Variable proj : W -> list Y.

Lemma mapView_has (k : jsstring) (m : jsmap W) : map_has k ((mapView proj) m) = map_has k m.
Proof.
  induction m as [|[k' v] m IH]; simpl; [reflexivity | rewrite IH; reflexivity].
Qed.

Lemma mapView_set (k : jsstring) (v : W) (m : jsmap W) :
  (mapView proj) (map_set k v m) = map_set k (proj v) ((mapView proj) m).
Proof.
  induction m as [|[k' v'] m IH]; simpl; [reflexivity|].
  destruct (str_eqb k' k); simpl; [reflexivity | rewrite IH; reflexivity].
Qed.

Lemma mapView_update (k : jsstring) (f : W -> W) (f' : list Y -> list Y) (m : jsmap W) :
  (forall w, proj (f w) = f' (proj w)) ->
  (mapView proj) (map_update k f m) = map_update k f' ((mapView proj) m).
Proof.
  intros Hf. induction m as [|[k' v'] m IH]; simpl; [reflexivity|].
  destruct (str_eqb k' k); simpl; [rewrite Hf | rewrite IH]; reflexivity.
Qed.
End MapView.

Section CombineRows.
Context {H : Host}.

Lemma groupByName_occurrences (lists : list IngredientList) :
  forall g,
    fold_left
      (fun grouped l => fold_left (addIngredient (recipeTitle l)) (ingredients l) grouped)
      lists g
    = fold_left (fun grouped o => addIngredient (fst o) grouped (snd o))
        (occurrences lists) g.
Proof.
  induction lists as [|l lists IH]; intros g; [reflexivity|].
  cbn [fold_left occurrences flat_map]. rewrite fold_left_app, fold_left_map'.
  cbn [fst snd]. apply IH.
Qed.

Lemma addIngredient_view (g : jsmap NameGroup) (o : jsstring * Ingredient) :
  mapView grp_items (addIngredient (fst o) g (snd o))
  = groupStep occName occItem (mapView grp_items g) o.
Proof.
  unfold addIngredient, groupStep. cbn zeta.
  rewrite mapView_update with (f' := fun l => l ++ [occItem o]) by reflexivity.
  rewrite mapView_has. fold (occName o).
  destruct (negb (map_has (occName o) g)); [rewrite mapView_set|]; reflexivity.
Qed.

Lemma groupByName_table (lists : list IngredientList) :
  mapView grp_items (groupByName lists)
  = groupTable occName occItem (occurrences lists).
Proof.
  unfold groupByName. rewrite groupByName_occurrences, <- fold_groupStep.
  change (@nil (jsstring * list Item)) with (mapView grp_items (@nil (jsstring * NameGroup))).
  generalize (@nil (jsstring * NameGroup)).
  induction (occurrences lists) as [|o os IH]; intros g; [reflexivity|].
  cbn [fold_left]. rewrite IH, addIngredient_view. reflexivity.
Qed.

Lemma groupByUnit_table (items : list Item) :
  groupByUnit items
  = map (fun u => (u, filter (keyIs unitKey u) items)) (newSet (map unitKey items)).
Proof.
  unfold groupByUnit.
  change addByUnit with (groupStep unitKey (fun i : Item => i)).
  rewrite fold_groupStep. unfold groupTable. apply map_ext. intros u.
  rewrite map_id. reflexivity.
Qed.

Lemma emitGroup_rows (res : list CombinedIngredient) (e : jsstring * NameGroup) :
  emitGroup res e = res ++ rowsOfName (fst e) (grp_items (snd e)).
Proof.
  unfold emitGroup, rowsOfName. cbn zeta. rewrite groupByUnit_table.
  destruct (newSet (map unitKey (grp_items (snd e)))) as [|u [|u' us]].
  - simpl. rewrite app_nil_r. reflexivity.
  - reflexivity.
  - cbn [map length Nat.eqb]. rewrite fold_left_snoc_map.
    cbn [map fst snd]. rewrite map_map. reflexivity.
Qed.

Lemma emitGroups_unsorted (lists : list IngredientList) :
  fold_left emitGroup (groupByName lists) [] = unsortedRows lists.
Proof.
  assert (E : forall g acc,
             fold_left emitGroup g acc
             = acc ++ flat_map (fun e => rowsOfName (fst e) (snd e)) (mapView grp_items g)).
  { induction g as [|e g IH]; intros acc; simpl; [rewrite app_nil_r; reflexivity|].
    rewrite IH, emitGroup_rows, <- app_assoc. reflexivity. }
  rewrite E, groupByName_table. simpl. unfold groupTable, unsortedRows.
  rewrite flat_map_concat_map, map_map, <- flat_map_concat_map. reflexivity.
Qed.

Lemma insertSorted_perm (x : CombinedIngredient) (l : list CombinedIngredient) :
  Permutation (insertSorted x l) (x :: l).
Proof.
  induction l as [|y l IH]; simpl; [reflexivity|].
  destruct (_ <=? 0)%Z; [|reflexivity].
  rewrite IH. apply perm_swap.
Qed.

(** Sorting only reorders the records. *)
Lemma sortByDisplayName_perm (l : list CombinedIngredient) :
  Permutation (sortByDisplayName l) l.
Proof.
  unfold sortByDisplayName.
  assert (G : forall acc, Permutation (fold_left (fun acc x => insertSorted x acc) l acc)
                                      (acc ++ l)).
  { induction l as [|x l IH]; intros acc; simpl; [rewrite app_nil_r; reflexivity|].
    rewrite IH, insertSorted_perm. apply Permutation_middle. }
  apply (G []).
Qed.

(** The result of [combineIngredients] holds, in some order, the records
    built for each name. *)
Lemma combineIngredients_rows (lists : list IngredientList) :
  Permutation (combineIngredients lists) (unsortedRows lists).
Proof.
  unfold combineIngredients. cbn zeta.
  rewrite sortByDisplayName_perm, emitGroups_unsorted. reflexivity.
Qed.
End CombineRows.

(* --------------------------------------------------------------------- *)
(** ** The units of the parsed quantities *)
(* --------------------------------------------------------------------- *)

Lemma isDigit_ascii (c : char) : isDigit c = true -> isAscii c = true.
Proof.
  unfold isDigit, in_range, isAscii. intros Hc. apply andb_true_iff in Hc.
  destruct Hc as [_ Hc]. apply N.leb_le in Hc. apply N.ltb_lt. lia.
Qed.

Lemma charsAll_seqs (P : char -> bool) (l : list re) :
  Forall (charsAll P) l -> charsAll P (seqs l).
Proof.
  induction l as [|r l IH]; intros Hl; [exact I|].
  inversion Hl as [|? ? Hr Hl']; subst. destruct l as [|r' l]; [exact Hr|].
  split; [exact Hr | apply IH; exact Hl'].
Qed.

Lemma charsAll_alts (P : char -> bool) (l : list re) :
  Forall (charsAll P) l -> charsAll P (alts l).
Proof.
  induction l as [|r l IH]; intros Hl; [simpl; discriminate|].
  inversion Hl as [|? ? Hr Hl']; subst. destruct l as [|r' l]; [exact Hr|].
  split; [exact Hr | apply IH; exact Hl'].
Qed.

Lemma chr_ascii (c : char) : isAscii c = true -> charsAll isAscii (chr c).
Proof. intros Hc d Hd. apply N.eqb_eq in Hd. subst d. exact Hc. Qed.

Lemma chrI_ascii (c : char) :
  isAscii c && isAscii (swapCase c) = true -> charsAll isAscii (chrI c).
Proof.
  intros Hc d Hd. apply andb_true_iff in Hc. destruct Hc as [H1 H2].
  apply orb_true_iff in Hd. destruct Hd as [Hd|Hd]; apply N.eqb_eq in Hd; subst d; assumption.
Qed.

Lemma litI_ascii (s : jsstring) :
  forallb (fun c => isAscii c && isAscii (swapCase c)) s = true ->
  charsAll isAscii (litI s).
Proof.
  intros Hs. unfold litI. apply charsAll_seqs. apply Forall_forall.
  intros r Hr. apply in_map_iff in Hr. destruct Hr as (c & Er & Hc). subst r.
  apply chrI_ascii. rewrite forallb_forall in Hs. apply Hs, Hc.
Qed.

Lemma digits1_ascii : charsAll isAscii digits1.
Proof. split; intros c Hc; apply isDigit_ascii; exact Hc. Qed.

Lemma opt_chars (P : char -> bool) (r : re) : charsAll P r -> charsAll P (opt r).
Proof. intros Hr. split; [exact Hr | exact I]. Qed.

Lemma reNumber_ascii : charsAll isAscii reNumber.
Proof.
  split; [apply digits1_ascii|]. apply opt_chars.
  split; [apply chr_ascii; reflexivity | apply digits1_ascii].
Qed.

Lemma reUnit_ascii : charsAll isAscii reUnit.
Proof.
  unfold reUnit. apply charsAll_alts.
  repeat first [apply Forall_nil | apply Forall_cons];
    try (apply litI_ascii; reflexivity).
  split; [apply litI_ascii; reflexivity | apply opt_chars, chrI_ascii; reflexivity].
Qed.

Lemma consumed_chars (P : char -> bool) (r : re) (s s1 : mstate) :
  charsAll P r -> reach r s s1 -> forallb P (consumed s s1) = true.
Proof.
  intros Hc Hr. destruct (reach_chars P Hr Hc) as (w & E & F).
  rewrite (@consumed_app _ _ _ E). exact F.
Qed.

Lemma reParen_caps : capsAll (fun _ w => forallb isAscii w = true) reParen.
Proof.
  cbn [reParen seqs capsAll]. repeat split;
    try (intros s s1 Hr; eapply consumed_chars; [|exact Hr]);
    try apply reNumber_ascii; try apply reUnit_ascii.
Qed.

(** The captures of a match of [reParen] are ASCII texts. *)
Lemma reParen_group_ascii (s : jsstring) (m : rmatched) (i : nat) :
  exec reParen s = Some m -> forallb isAscii (group i m) = true.
Proof.
  intros E. apply (searchFrom_sound reParen s []) in E.
  destruct E as (mid & t' & s' & _ & Hr & _ & _ & Hg & _).
  pose proof (reach_caps (fun _ w => forallb isAscii w = true) Hr reParen_caps
                (Forall_nil _)) as Hall.
  unfold group. rewrite Hg.
  destruct (find (fun e => Nat.eqb (fst e) i) (caps s')) as [e|] eqn:Ef; [|reflexivity].
  apply find_some in Ef. destruct Ef as [Hin _].
  rewrite Forall_forall in Hall. apply (Hall e Hin).
Qed.

Lemma lowerAscii_ascii (c : char) : isAscii c = true -> isAscii (lowerAscii c) = true.
Proof.
  unfold lowerAscii, isAsciiUpper, in_range, isAscii.
  destruct ((65 <=? c) && (c <=? 90))%N eqn:E; [|auto].
  intros _. apply andb_true_iff in E. destruct E as [_ E].
  apply N.leb_le in E. apply N.ltb_lt. lia.
Qed.

Lemma lowerAscii_idem (c : char) : lowerAscii (lowerAscii c) = lowerAscii c.
Proof.
  unfold lowerAscii. destruct (isAsciiUpper c) eqn:E; [|rewrite E; reflexivity].
  assert (E' : isAsciiUpper (c + 32) = false).
  { unfold isAsciiUpper, in_range in *. apply andb_true_iff in E.
    destruct E as [E1 E2]. apply N.leb_le in E1, E2.
    apply andb_false_iff. right. apply N.leb_gt. lia. }
  rewrite E'. reflexivity.
Qed.

Section UnitProperties.
Context {H : Host}.

Lemma toLowerCase_ascii (s : jsstring) :
  forallb isAscii s = true -> toLowerCase s = map lowerAscii s.
Proof. intros E. unfold toLowerCase. rewrite E. reflexivity. Qed.

Lemma toLowerCase_idem_ascii (s : jsstring) :
  forallb isAscii s = true -> toLowerCase (toLowerCase s) = toLowerCase s.
Proof.
  intros E. rewrite (toLowerCase_ascii _ E).
  rewrite toLowerCase_ascii.
  - rewrite map_map. apply map_ext. intros c. apply lowerAscii_idem.
  - rewrite forallb_forall in *. intros c Hc. apply in_map_iff in Hc.
    destruct Hc as (d & Ed & Hd). subst c. apply lowerAscii_ascii, E, Hd.
Qed.

(** The unit of a parsed label is [pcs] or a lower case ASCII text. *)
Lemma parseQuantityFromLabel_unit (label : jsstring) :
  unit_ (parseQuantityFromLabel label) = js "pcs"
  \/ toLowerCase (unit_ (parseQuantityFromLabel label))
     = unit_ (parseQuantityFromLabel label).
Proof.
  unfold parseQuantityFromLabel. cbn zeta.
  destruct (exec reParen _) as [m|] eqn:E1.
  - right. cbn [unit_]. apply toLowerCase_idem_ascii.
    eapply reParen_group_ascii. exact E1.
  - left.
    destruct (exec reParenNum _); [reflexivity|].
    destruct (exec reX _); [reflexivity|].
    destruct (exec reLeadingNum _); reflexivity.
Qed.

Lemma toLowerCase_pcs : toLowerCase (js "pcs") = js "pcs".
Proof. reflexivity. Qed.

(** The unit of an item is one of the seven units, in lower case. *)
Lemma makeItem_unit (t : jsstring) (ing : Ingredient) :
  In (it_unit (makeItem t ing)) canonicalUnits
  /\ toLowerCase (it_unit (makeItem t ing)) = it_unit (makeItem t ing).
Proof.
  unfold makeItem. cbn [it_unit].
  set (q := parseQuantityFromLabel (ing_label ing)).
  destruct (existsb (str_eqb (toLowerCase (unit_ q))) measuredUnits) eqn:E.
  - destruct (parseQuantityFromLabel_unit (ing_label ing)) as [Hp|Hl]; fold q in Hp || fold q in Hl.
    + rewrite Hp in E. vm_compute in E. discriminate.
    + rewrite Hl in E. split; [|exact Hl].
      apply existsb_str_eqb in E. unfold canonicalUnits.
      unfold measuredUnits in E. simpl in E. simpl. tauto.
  - split; [|apply toLowerCase_pcs]. unfold canonicalUnits. simpl. tauto.
Qed.
End UnitProperties.

(* --------------------------------------------------------------------- *)
(** ** [combineIngredients]: the claims *)
(* --------------------------------------------------------------------- *)

Lemma filter_map_comm (A B : Type) (p : B -> bool) (f : A -> B) (l : list A) :
  filter p (map f l) = map f (filter (fun x => p (f x)) l).
Proof.
  induction l as [|x l IH]; simpl; [reflexivity|].
  destruct (p (f x)); simpl; rewrite IH; reflexivity.
Qed.

Lemma filter_filter (A : Type) (p q : A -> bool) (l : list A) :
  filter p (filter q l) = filter (fun x => q x && p x) l.
Proof.
  induction l as [|x l IH]; simpl; [reflexivity|].
  destruct (q x); simpl; [destruct (p x); simpl|]; rewrite IH; reflexivity.
Qed.

Lemma flat_map_flat_map (A B C : Type) (f : B -> list C) (g : A -> list B) (l : list A) :
  flat_map f (flat_map g l) = flat_map (fun x => flat_map f (g x)) l.
Proof.
  induction l as [|x l IH]; simpl; [reflexivity|].
  rewrite flat_map_app, IH. reflexivity.
Qed.

Lemma map_flat_map (A B C : Type) (f : B -> C) (g : A -> list B) (l : list A) :
  map f (flat_map g l) = flat_map (fun x => map f (g x)) l.
Proof.
  induction l as [|x l IH]; simpl; [reflexivity|].
  rewrite map_app, IH. reflexivity.
Qed.

Lemma Permutation_flat_map_pointwise (A B : Type) (f g : A -> list B) (l : list A) :
  (forall x, Permutation (f x) (g x)) -> Permutation (flat_map f l) (flat_map g l).
Proof.
  intros Hfg. induction l as [|x l IH]; simpl; [constructor|].
  apply Permutation_app; [apply Hfg | exact IH].
Qed.

(** Adding a value to the [0] that [reduce] starts from does not round. *)
Lemma add_zero_exact (a : float) : exactValue (0 + a) = exactValue a.
Proof.
  unfold exactValue. rewrite add_spec.
  change (Prim2SF 0) with (S754_zero false).
  destruct (Prim2SF a) as [s| s| |s m e]; try reflexivity.
  destruct s; reflexivity.
Qed.

Section CombineSpec.
Context {H : Host}.

Lemma rowsOfName_in (n : jsstring) (items : list Item) (r : CombinedIngredient) :
  In r (rowsOfName n items) ->
  exists u, In u (map unitKey items)
            /\ (r = singleRecord n u (filter (keyIs unitKey u) items)
                \/ r = unitRecord n u (filter (keyIs unitKey u) items)).
Proof.
  unfold rowsOfName.
  assert (Hu : forall u, In u (newSet (map unitKey items)) -> In u (map unitKey items))
    by (intros u; apply newSet_in).
  destruct (newSet (map unitKey items)) as [|u [|u' us]].
  - intros [].
  - intros [Hr|[]]. exists u. split; [apply Hu; left; reflexivity | left; auto].
  - intros Hr. apply in_map_iff in Hr. destruct Hr as (v & Er & Hv).
    exists v. split; [apply Hu; exact Hv | right; auto].
Qed.

Lemma unsortedRows_in (lists : list IngredientList) (r : CombinedIngredient) :
  In r (unsortedRows lists) ->
  exists n u items,
    (forall i, In i items -> exists o, In o (occurrences lists) /\ i = occItem o)
    /\ In u (map unitKey items)
    /\ (r = singleRecord n u (filter (keyIs unitKey u) items)
        \/ r = unitRecord n u (filter (keyIs unitKey u) items)).
Proof.
  unfold unsortedRows. intros Hr. apply in_flat_map in Hr.
  destruct Hr as (n & _ & Hr). apply rowsOfName_in in Hr.
  destruct Hr as (u & Hu & Hr).
  exists n, u, (map occItem (filter (keyIs occName n) (occurrences lists))).
  split; [|split; assumption].
  intros i Hi. apply in_map_iff in Hi. destruct Hi as (o & Ei & Ho).
  apply filter_In in Ho. exists o. split; [apply Ho | symmetry; exact Ei].
Qed.

(** C10: in a combined ingredient every quantity has the unit of the
    record, and that unit is one of the seven canonical units. *)
Theorem combineIngredients_units (lists : list IngredientList) (r : CombinedIngredient) :
  In r (combineIngredients lists) ->
  In (ci_unit r) canonicalUnits
  /\ forall q, In q (ci_quantities r) -> pq_unit q = ci_unit r.
Proof.
  intros Hr. apply (Permutation_in _ (combineIngredients_rows lists)) in Hr.
  apply unsortedRows_in in Hr. destruct Hr as (n & u & items & Hitems & Hu & Hr).
  assert (Hunit : forall i, In i items ->
                            In (it_unit i) canonicalUnits /\ unitKey i = it_unit i).
  { intros i Hi. destruct (Hitems i Hi) as (o & _ & Ei). subst i.
    apply makeItem_unit. }
  assert (Eu : ci_unit r = u) by (destruct Hr as [Hr|Hr]; subst r; reflexivity).
  assert (Eq : ci_quantities r = map toQuantity (filter (keyIs unitKey u) items))
    by (destruct Hr as [Hr|Hr]; subst r; reflexivity).
  rewrite Eu, Eq. split.
  - apply in_map_iff in Hu. destruct Hu as (i & Ei & Hi).
    destruct (Hunit i Hi) as [Hc Hk]. rewrite <- Ei, Hk. exact Hc.
  - intros q Hq. apply in_map_iff in Hq. destruct Hq as (i & Ei & Hi).
    apply filter_In in Hi. destruct Hi as [Hi Hk]. subst q. cbn [toQuantity pq_unit].
    unfold keyIs in Hk. apply str_eqb_eq in Hk.
    destruct (Hunit i Hi) as [_ Hk']. congruence.
Qed.

(** C2: the total of a combined ingredient is the binary64 sum of the
    amounts of its quantities, added in the order of the array from left
    to right starting from 0, each addition rounded as [reduce] with [+]
    does; for a record with one quantity that is the amount itself, with
    no rounding. *)
Theorem combineIngredients_total (lists : list IngredientList) (r : CombinedIngredient) :
  In r (combineIngredients lists) ->
  ci_totalAmount r = fold_left PrimFloat.add (map pq_amount (ci_quantities r)) 0%float
  /\ (forall q, ci_quantities r = [q] ->
                exactValue (ci_totalAmount r) = exactValue (pq_amount q)).
Proof.
  intros Hr. apply (Permutation_in _ (combineIngredients_rows lists)) in Hr.
  apply unsortedRows_in in Hr. destruct Hr as (n & u & items & _ & _ & Hr).
  assert (E : ci_totalAmount r = sumAmounts (filter (keyIs unitKey u) items)
              /\ ci_quantities r = map toQuantity (filter (keyIs unitKey u) items))
    by (destruct Hr as [Hr|Hr]; subst r; split; reflexivity).
  destruct E as [E1 E2].
  assert (Et : ci_totalAmount r
               = fold_left PrimFloat.add (map pq_amount (ci_quantities r)) 0%float).
  { rewrite E1, E2, map_map. unfold sumAmounts.
    rewrite fold_left_map'. reflexivity. }
  split; [exact Et|].
  intros q Eq. rewrite Et, Eq. cbn [map fold_left]. apply add_zero_exact.
Qed.

Lemma rowsOfName_quantities (n : jsstring) (items : list Item) :
  Permutation (flat_map ci_quantities (rowsOfName n items)) (map toQuantity items).
Proof.
  assert (E : flat_map ci_quantities (rowsOfName n items)
              = map toQuantity
                  (flat_map (fun u => filter (keyIs unitKey u) items)
                            (newSet (map unitKey items)))).
  { unfold rowsOfName. destruct (newSet (map unitKey items)) as [|u [|u' us]].
    - reflexivity.
    - simpl. rewrite !app_nil_r. reflexivity.
    - rewrite map_flat_map, flat_map_concat_map, map_map, <- flat_map_concat_map.
      reflexivity. }
  rewrite E. apply Permutation_map. apply buckets_perm; [apply newSet_NoDup|].
  intros i Hi. apply newSet_in. apply in_map. exact Hi.
Qed.

Lemma unsortedRows_quantities (lists : list IngredientList) :
  Permutation (flat_map ci_quantities (unsortedRows lists))
              (map (fun o => toQuantity (occItem o)) (occurrences lists)).
Proof.
  unfold unsortedRows. rewrite flat_map_flat_map.
  rewrite (Permutation_flat_map_pointwise _
             (fun n => map (fun o => toQuantity (occItem o))
                           (filter (keyIs occName n) (occurrences lists)))).
  - rewrite <- map_flat_map. apply Permutation_map.
    apply buckets_perm; [apply newSet_NoDup|].
    intros o Ho. apply newSet_in. apply in_map. exact Ho.
  - intros n. rewrite rowsOfName_quantities, map_map. reflexivity.
Qed.
End CombineSpec.

Lemma exec_none_iff (r : re) (s : jsstring) : exec r s = None <-> ~ matchesIn r s.
Proof.
  rewrite <- test_matchesIn. unfold test. destruct (exec r s); split; congruence.
Qed.

Section CombineClaims.
Context {H : Host}.

(** C1: every occurrence of an ingredient contributes one quantity to the
    result, whose amount is the parsed amount times the quantity for a
    pack-based label and the quantity alone for a count-based one; the
    labels of Examples 3 and 4. *)
Theorem combineIngredients_contributions :
  (forall lists,
      Permutation
        (map (fun q => (pq_originalLabel q, pq_amount q))
             (flat_map ci_quantities (combineIngredients lists)))
        (map (fun o => (ing_label (snd o), contributedTotal (snd o)))
             (occurrences lists)))
  /\ parseQuantityFromLabel (js "Chicken breast strips (250g)")
     = {| amount := 250%float; unit_ := js "g"; isPackBased := true |}
  /\ contributedTotal chickenStrips = 750%float
  /\ isPackBased (parseQuantityFromLabel (js "White potato x4")) = false
  /\ contributedTotal whitePotato = 4%float.
Proof.
  split; [|repeat split; vm_compute; reflexivity].
  intros lists.
  rewrite (Permutation_flat_map ci_quantities (combineIngredients_rows lists)).
  rewrite unsortedRows_quantities, map_map. reflexivity.
Qed.

Lemma recipeCount_titles (occs : list (jsstring * Ingredient)) (n u : jsstring) :
  countRecipes (filter (keyIs unitKey u) (map occItem (filter (keyIs occName n) occs)))
  = length (titlesOf occs n u).
Proof.
  unfold countRecipes, titlesOf, distinct.
  rewrite filter_map_comm, filter_filter, map_map. cbn [occItem makeItem it_recipeTitle].
  apply Permutation_length. apply newSet_nodup.
Qed.

Lemma rowOf_single (occs : list (jsstring * Ingredient)) (n u : jsstring) :
  rowOf (singleRecord n u
           (filter (keyIs unitKey u) (map occItem (filter (keyIs occName n) occs))))
  = {| row_name := n; row_displayName := capitalizeFirst n; row_unit := u;
       row_recipeCount := length (titlesOf occs n u) |}.
Proof.
  unfold rowOf, singleRecord.
  cbn [ci_name ci_displayName ci_unit ci_recipeCount].
  rewrite recipeCount_titles. reflexivity.
Qed.

Lemma rowOf_unit (occs : list (jsstring * Ingredient)) (n u : jsstring) :
  rowOf (unitRecord n u
           (filter (keyIs unitKey u) (map occItem (filter (keyIs occName n) occs))))
  = {| row_name := n ++ js " (" ++ u ++ js ")";
       row_displayName := capitalizeFirst n ++ js " (" ++ u ++ js ")";
       row_unit := u;
       row_recipeCount := length (titlesOf occs n u) |}.
Proof.
  unfold rowOf, unitRecord.
  cbn [ci_name ci_displayName ci_unit ci_recipeCount].
  rewrite recipeCount_titles. reflexivity.
Qed.

Lemma rowsOfName_spec (occs : list (jsstring * Ingredient)) (n : jsstring) :
  Permutation
    (map rowOf (rowsOfName n (map occItem (filter (keyIs occName n) occs))))
    (specRows occs n).
Proof.
  unfold rowsOfName, specRows, unitsOfName, distinct.
  rewrite map_map.
  change (fun o => str_eqb (occName o) n) with (keyIs occName n).
  change (fun x => unitKey (occItem x)) with occUnit.
  pose proof (newSet_nodup (map occUnit (filter (keyIs occName n) occs))) as Hp.
  destruct (newSet (map occUnit (filter (keyIs occName n) occs))) as [|u [|u' us]].
  - apply Permutation_nil in Hp. rewrite Hp. constructor.
  - apply Permutation_length_1_inv in Hp. rewrite Hp.
    cbn [map]. rewrite rowOf_single. reflexivity.
  - pose proof (Permutation_length Hp) as Hl.
    destruct (nodup _ _) as [|v [|v' vs]]; try discriminate.
    rewrite map_map.
    rewrite (map_ext _ _ (rowOf_unit occs n)).
    apply Permutation_map. exact Hp.
Qed.

(** C4: the names, display names, units and recipe counts of the result
    are those of the rows that the rule describes: for each name, one row
    under the name itself when its occurrences have a single unit, and
    otherwise one row per unit with the suffix; the display name is the
    name with its first character in upper case, the recipe count is the
    number of distinct titles of the occurrences of the name and unit. *)
Theorem combineIngredients_rows_spec (lists : list IngredientList) :
  Permutation (map rowOf (combineIngredients lists)) (specTable lists).
Proof.
  rewrite (Permutation_map rowOf (combineIngredients_rows lists)).
  unfold unsortedRows, specTable, distinct. rewrite map_flat_map.
  rewrite (Permutation_flat_map _ (newSet_nodup (map occName (occurrences lists)))).
  apply Permutation_flat_map_pointwise. intros n. apply rowsOfName_spec.
Qed.

(** C5: a label in which none of the four patterns matches, once a
    trailing [x0] is removed, parses to one piece, count-based; the
    function is defined on every string. *)
Theorem parseQuantityFromLabel_default (label : jsstring) :
  (exists a u b,
      parseQuantityFromLabel label = {| amount := a; unit_ := u; isPackBased := b |})
  /\ (~ matchesIn reParen (replaceFirst reTrailingX0 [] label) ->
      ~ matchesIn reParenNum (replaceFirst reTrailingX0 [] label) ->
      ~ matchesIn reX (replaceFirst reTrailingX0 [] label) ->
      ~ matchesIn reLeadingNum (replaceFirst reTrailingX0 [] label) ->
      parseQuantityFromLabel label
      = {| amount := 1%float; unit_ := js "pcs"; isPackBased := false |}).
Proof.
  split.
  - destruct (parseQuantityFromLabel label) as [a u b]. exists a, u, b. reflexivity.
  - intros H1 H2 H3 H4. apply exec_none_iff in H1, H2, H3, H4.
    unfold parseQuantityFromLabel. cbn zeta. rewrite H1, H2, H3, H4. reflexivity.
Qed.
End CombineClaims.

Lemma parseQuantityFromLabel_default_witness :
  @parseQuantityFromLabel plainHost (js "Red onion x0")
  = {| amount := 1%float; unit_ := js "pcs"; isPackBased := false |}.
Proof.
  apply (proj2 (@parseQuantityFromLabel_default plainHost (js "Red onion x0")));
    apply exec_none_iff; vm_compute; reflexivity.
Defined.

Lemma combineIngredients_units_witness :
  In garlicPieces (@combineIngredients plainHost exampleLists)
  /\ In (ci_unit garlicPieces) canonicalUnits
  /\ forall q, In q (ci_quantities garlicPieces) -> pq_unit q = ci_unit garlicPieces.
Proof.
  assert (Hin : In garlicPieces (@combineIngredients plainHost exampleLists))
    by (vm_compute; right; right; left; reflexivity).
  split; [exact Hin|].
  exact (@combineIngredients_units plainHost exampleLists garlicPieces Hin).
Defined.

Lemma combineIngredients_total_witness :
  ci_totalAmount garlicPieces
  = fold_left PrimFloat.add (map pq_amount (ci_quantities garlicPieces)) 0%float
  /\ (forall q, ci_quantities garlicPieces = [q] ->
                exactValue (ci_totalAmount garlicPieces) = exactValue (pq_amount q)).
Proof.
  apply (@combineIngredients_total plainHost exampleLists garlicPieces).
  vm_compute. right. right. left. reflexivity.
Defined.

(** C2, as the specification words it, fails: the three weights of
    [saffronLists] are added to 0.6000000000000001, which is 3 / 2^55 more
    than the sum of the three amounts. *)
Lemma combineIngredients_total_not_exact :
  exists r total sum,
    In r (@combineIngredients plainHost saffronLists)
    /\ exactValue (ci_totalAmount r) = Some total
    /\ exactSum (map pq_amount (ci_quantities r)) = Some sum
    /\ ~ (total == sum)%Q
    /\ (total - sum == 3 # 36028797018963968)%Q.
Proof.
  eexists. eexists. eexists.
  split; [vm_compute; left; reflexivity|].
  split; [vm_compute; reflexivity|].
  split; [vm_compute; reflexivity|].
  split; [intros E; vm_compute in E; discriminate | vm_compute; reflexivity].
Qed.

(* --------------------------------------------------------------------- *)
(** ** More about [slugify] *)
(* --------------------------------------------------------------------- *)

Lemma collapseRuns_none (p : char -> bool) (rep : jsstring) (s : jsstring) :
  forallb (fun c => negb (p c)) s = true ->
  forall b, collapseRuns p rep b s = s.
Proof.
  induction s as [|c t IH]; intros Hs b; [reflexivity|].
  simpl in Hs. apply andb_true_iff in Hs. destruct Hs as [Hc Ht].
  apply negb_true_iff in Hc. simpl. rewrite Hc, (IH Ht). reflexivity.
Qed.

Lemma collapseRuns_single (h : char) (s : jsstring) :
  noDouble h s = true ->
  collapseRuns (N.eqb h) [h] false s = s
  /\ (startsWithChar h s = false -> collapseRuns (N.eqb h) [h] true s = s).
Proof.
  induction s as [|c t IH]; [auto|]. rewrite noDouble_cons. intros Hs.
  apply andb_true_iff in Hs. destruct Hs as [Hc Ht]. apply negb_true_iff in Hc.
  destruct (IH Ht) as [IH1 IH2]. cbn [collapseRuns startsWithChar].
  destruct (h =? c)%N eqn:E.
  - simpl in Hc. split; [|discriminate].
    apply N.eqb_eq in E. subst c. cbn [app]. rewrite (IH2 Hc). reflexivity.
  - rewrite IH1. auto.
Qed.

Lemma dropFirstChar_id (h : char) (s : jsstring) :
  startsWithChar h s = false -> dropFirstChar h s = s.
Proof. destruct s as [|c t]; simpl; [auto|]. intros E. rewrite E. reflexivity. Qed.

Lemma dropLastChar_id (h : char) (s : jsstring) :
  endsWithChar h s = false -> dropLastChar h s = s.
Proof.
  induction s as [|c t IH]; [auto|]. cbn [endsWithChar dropLastChar].
  destruct t as [|d t']; intros E; [rewrite E; reflexivity|].
  rewrite (IH E). reflexivity.
Qed.

Lemma filter_all (p : char -> bool) (s : jsstring) :
  forallb p s = true -> filter p s = s.
Proof.
  induction s as [|c t IH]; simpl; [auto|]. intros Hs.
  apply andb_true_iff in Hs. destruct Hs as [Hc Ht]. rewrite Hc, (IH Ht). reflexivity.
Qed.

Lemma isSlugChar_facts (c : char) :
  isSlugChar c = true ->
  isAscii c = true /\ lowerAscii c = c /\ isCombining c = false
  /\ isSlugSource c = true /\ isSpace c = false.
Proof.
  unfold isSlugChar, isAsciiLower, isDigit, isAscii, lowerAscii, isAsciiUpper,
    isCombining, isSlugSource, isSpace, isAsciiLower, isDigit, in_range.
  intros Hc.
  assert (Hr : (97 <= c <= 122 \/ 48 <= c <= 57 \/ c = 45)%N).
  { apply orb_true_iff in Hc. destruct Hc as [Hc|Hc].
    - apply orb_true_iff in Hc. destruct Hc as [Hc|Hc];
        apply andb_true_iff in Hc; destruct Hc as [H1 H2];
        apply N.leb_le in H1, H2; lia.
    - apply N.eqb_eq in Hc. right. right. exact Hc. }
  clear Hc.
  assert (L : forall a b, (a <=? b)%N = true <-> (a <= b)%N) by (intros; apply N.leb_le).
  assert (G : forall a b, (a <=? b)%N = false <-> (b < a)%N) by (intros; apply N.leb_gt).
  assert (Q : forall a, (c =? a)%N = false <-> c <> a) by (intros; apply N.eqb_neq).
  repeat split.
  - apply N.ltb_lt. lia.
  - replace ((65 <=? c) && (c <=? 90))%N with false; [reflexivity|].
    symmetry. apply andb_false_iff.
    destruct (N.le_gt_cases 65 c); [right | left]; apply G; lia.
  - apply andb_false_iff. left. apply G. lia.
  - destruct Hr as [Hr|[Hr|Hr]].
    + replace ((97 <=? c) && (c <=? 122))%N with true; [reflexivity|].
      symmetry. apply andb_true_iff. split; apply L; lia.
    + replace ((48 <=? c) && (c <=? 57))%N with true;
        [rewrite orb_true_r; reflexivity|].
      symmetry. apply andb_true_iff. split; apply L; lia.
    + subst c. reflexivity.
  - repeat (apply orb_false_iff; split);
      try (apply andb_false_iff;
           first [ left; apply G; lia | right; apply G; lia ]);
      try (apply Q; lia).
Qed.

Section SlugifyIdempotent.
Context {H : Host}.

(** The facts about a slug in the form that computations use. *)
Lemma slugify_checks (T : jsstring) :
  forallb isSlugChar (slugify T) = true
  /\ startsWithChar (ch "-") (slugify T) = false
  /\ endsWithChar (ch "-") (slugify T) = false
  /\ noDouble (ch "-") (slugify T) = true.
Proof.
  rewrite slugify_unfold.
  set (s4 := filter isSlugSource _).
  set (s5 := collapseRuns isSpace [ch "-"] false s4).
  set (s6 := collapseRuns (N.eqb (ch "-")) [ch "-"] false s5).
  assert (H4 : forallb isSlugSource s4 = true) by apply forallb_filter_same.
  assert (H5 : forallb isSlugChar s5 = true).
  { apply collapseRuns_chars; [reflexivity|].
    revert H4. apply forallb_impl. intros c. unfold isSlugSource, isSlugChar.
    destruct (isAsciiLower c), (isDigit c), (isSpace c), (c =? ch "-")%N; auto. }
  assert (H6 : forallb isSlugChar s6 = true).
  { apply collapseRuns_chars; [reflexivity|].
    revert H5. apply forallb_impl. intros c Hc. rewrite Hc. apply orb_true_r. }
  assert (D6 : noDouble (ch "-") s6 = true) by apply collapse_noDouble.
  destruct (noDouble_dropFirst _ _ D6) as [D7 S7].
  destruct (noDouble_dropLast _ _ D7) as [D8 E8].
  pose proof (startsWith_dropLast _ _ S7) as S8.
  repeat split; try assumption.
  apply forallb_dropLast, forallb_dropFirst, H6.
Qed.

(** A text that has the shape of a slug is its own slug. *)
Lemma slugify_fixed (s : jsstring) :
  forallb isSlugChar s = true ->
  startsWithChar (ch "-") s = false ->
  endsWithChar (ch "-") s = false ->
  noDouble (ch "-") s = true ->
  slugify s = s.
Proof.
  intros Hc Hs He Hd. rewrite slugify_unfold.
  assert (Ha : forallb isAscii s = true)
    by (revert Hc; apply forallb_impl; intros c Hc; apply isSlugChar_facts, Hc).
  assert (E1 : toLowerCase s = s).
  { unfold toLowerCase. rewrite Ha. rewrite <- (map_id s) at 2.
    apply map_ext_in. intros c Hin. rewrite forallb_forall in Hc.
    apply isSlugChar_facts, Hc, Hin. }
  rewrite E1. unfold normalizeNFD. rewrite Ha.
  rewrite (filter_all (fun c => negb (isCombining c)))
    by (revert Hc; apply forallb_impl; intros c Hc;
        destruct (isSlugChar_facts c Hc) as (_ & _ & E & _); rewrite E; reflexivity).
  rewrite (filter_all isSlugSource)
    by (revert Hc; apply forallb_impl; intros c Hc; apply isSlugChar_facts, Hc).
  rewrite (collapseRuns_none isSpace)
    by (revert Hc; apply forallb_impl; intros c Hc;
        destruct (isSlugChar_facts c Hc) as (_ & _ & _ & _ & E); rewrite E; reflexivity).
  rewrite (proj1 (collapseRuns_single _ _ Hd)).
  rewrite (dropFirstChar_id _ _ Hs). apply dropLastChar_id. exact He.
Qed.

(** X1: [slugify] is idempotent. *)
Theorem slugify_idempotent (T : jsstring) : slugify (slugify T) = slugify T.
Proof.
  destruct (slugify_checks T) as (Hc & Hs & He & Hd).
  apply slugify_fixed; assumption.
Qed.
End SlugifyIdempotent.

(* --------------------------------------------------------------------- *)
(** ** [isIndexEntry] and [cleanTitle] *)
(* --------------------------------------------------------------------- *)

Lemma reach_plus_inv (p : char -> bool) (s s' : mstate) :
  reach (plus (Chr p)) s s' ->
  exists w, w <> [] /\ rest s = w ++ rest s' /\ forallb p w = true.
Proof.
  unfold plus. intros Hr. inversion Hr as [| |r1 r2 s0 s1 s2 H1 H2| | | | | | | |]; subst.
  inversion H1 as [|q s0 c t Hc Hp| | | | | | | | |]; subst.
  assert (Hs : charsAll p (Star (Chr p))) by (intros d Hd; exact Hd).
  destruct (reach_chars p H2 Hs) as (w & Ew & Fw).
  exists (c :: w). split; [discriminate|]. split.
  - rewrite Hc. cbn [advance rest] in Ew. rewrite Ew. reflexivity.
  - simpl. rewrite Hp, Fw. reflexivity.
Qed.

Lemma reach_star_inv (p : char -> bool) (s s' : mstate) :
  reach (Star (Chr p)) s s' ->
  exists w, rest s = w ++ rest s' /\ forallb p w = true.
Proof.
  intros Hr. apply (reach_chars p Hr). intros d Hd. exact Hd.
Qed.

(** X2: [isIndexEntry] holds exactly for the lines that end with a middle
    dot, optional white space, digits and optional white space. *)
Theorem isIndexEntry_iff (line : jsstring) :
  isIndexEntry line = true <-> indexEntryShape line.
Proof.
  split; [|apply isIndexEntry_shape].
  unfold isIndexEntry. intros Ht. apply test_matchesIn in Ht.
  destruct Ht as (pre & t & s' & El & Hr).
  unfold reIndexEntry in Hr. cbn [seqs] in Hr.
  inversion Hr as [| |r1 r2 s0 s1 s2 H1 H2| | | | | | | |]; subst. clear Hr.
  inversion H2 as [| |r1 r2 s0 s2 s3 H3 H4| | | | | | | |]; subst. clear H2.
  inversion H4 as [| |r1 r2 s0 s3 s4 H5 H6| | | | | | | |]; subst. clear H4.
  inversion H6 as [| |r1 r2 s0 s4 s5 H7 H8| | | | | | | |]; subst. clear H6.
  inversion H8 as [| | | | | | | | |s0 He|]; subst. clear H8.
  inversion H1 as [|q s0 c u Hc Hp| | | | | | | | |]; subst. clear H1.
  apply N.eqb_eq in Hp. subst c.
  apply reach_star_inv in H3. destruct H3 as (ws1 & E1 & F1).
  apply reach_plus_inv in H5. destruct H5 as (ds & Hne & E2 & F2).
  apply reach_star_inv in H7. destruct H7 as (ws2 & E3 & F3).
  cbn [startState rest advance] in *.
  exists pre, ws1, ds, ws2. repeat split; try assumption.
  rewrite Hc, E1, E2, E3, He, app_nil_r. reflexivity.
Qed.

Lemma collapseRuns_separators (p : char -> bool) (h : char) :
  p h = true ->
  forall s,
    singleSeparators p h (collapseRuns p [h] false s) = true
    /\ singleSeparators p h (collapseRuns p [h] true s) = true
    /\ startsWithClass p (collapseRuns p [h] true s) = false.
Proof.
  intros Hh. induction s as [|c t (IH1 & IH2 & IH3)]; [simpl; auto|].
  cbn [collapseRuns]. destruct (p c) eqn:Hc.
  - cbn [app singleSeparators]. rewrite Hh, N.eqb_refl, IH2, IH3. auto.
  - cbn [singleSeparators startsWithClass]. rewrite Hc, IH1. auto.
Qed.

Lemma singleSeparators_suffix (p : char -> bool) (h : char) (a b : jsstring) :
  singleSeparators p h (a ++ b) = true -> singleSeparators p h b = true.
Proof.
  induction a as [|c a IH]; [auto|]. cbn [app singleSeparators]. intros Hs.
  apply andb_true_iff in Hs. apply IH, Hs.
Qed.

Lemma singleSeparators_prefix (p : char -> bool) (h : char) (a b : jsstring) :
  singleSeparators p h (a ++ b) = true -> singleSeparators p h a = true.
Proof.
  induction a as [|c a IH]; [auto|]. cbn [app singleSeparators]. intros Hs.
  apply andb_true_iff in Hs. destruct Hs as [Hc Ha]. rewrite (IH Ha), andb_true_r.
  destruct (p c); [|reflexivity].
  apply andb_true_iff in Hc. destruct Hc as [H1 H2]. rewrite H1. cbn [andb].
  destruct a as [|d a]; [reflexivity | exact H2].
Qed.

Lemma singleSeparators_at (p : char -> bool) (h : char) (a b : jsstring) (c d : char) :
  singleSeparators p h (a ++ c :: d :: b) = true -> p c = true ->
  c = h /\ p d = false.
Proof.
  intros Hs Hc. apply singleSeparators_suffix in Hs.
  cbn [singleSeparators startsWithClass] in Hs. rewrite Hc in Hs.
  apply andb_true_iff in Hs. destruct Hs as [Hs _].
  apply andb_true_iff in Hs. destruct Hs as [H1 H2].
  apply N.eqb_eq in H1. apply negb_true_iff in H2. auto.
Qed.

Lemma trim_inside (s : jsstring) : exists a b, s = a ++ trim s ++ b.
Proof.
  unfold trim.
  destruct (dropWhile_suffix isSpace s) as (a & Ea & _).
  destruct (dropWhile_suffix isSpace (rev (dropWhile isSpace s))) as (b & Eb & _).
  exists a, (rev b).
  rewrite <- rev_app_distr, <- Eb, rev_involutive. exact Ea.
Qed.

(** What [cleanTitle] computes, in terms of the plain list operations. *)
Lemma cleanTitle_unfold (t : jsstring) :
  cleanTitle t = trim (collapseRuns isSpace [ch " "] false (replaceAll reXE [] t)).
Proof. unfold cleanTitle, spaces1. rewrite replaceAll_plus. reflexivity. Qed.

(** X3: a cleaned title does not start or end with white space, and a white
    space character inside it is one space followed by something else. *)
Theorem cleanTitle_normalized (t : jsstring) :
  (forall c u, cleanTitle t = c :: u -> isSpace c = false)
  /\ (forall u c, cleanTitle t = u ++ [c] -> isSpace c = false)
  /\ (forall a c d b, cleanTitle t = a ++ c :: d :: b -> isSpace c = true ->
                      c = ch " " /\ isSpace d = false).
Proof.
  rewrite cleanTitle_unfold. set (y := collapseRuns isSpace [ch " "] false _).
  split; [|split].
  - intros c u. apply trim_head.
  - intros u c. apply trim_last.
  - intros a c d b E Hc.
    destruct (trim_inside y) as (w1 & w2 & Ey). rewrite E in Ey.
    assert (Hy : singleSeparators isSpace (ch " ") y = true)
      by (apply collapseRuns_separators; reflexivity).
    rewrite Ey, <- app_assoc in Hy. cbn [app] in Hy. rewrite app_assoc in Hy.
    apply (singleSeparators_at _ _ _ _ _ _ Hy Hc).
Qed.

(* --------------------------------------------------------------------- *)
(** ** More about [separateContent] *)
(* --------------------------------------------------------------------- *)

Lemma sepStep_buckets (st : SepState) (line : jsstring) :
  Permutation
    (ingredientLines (sepStep st line) ++ methodLines (sepStep st line))
    (ingredientLines st ++ methodLines st ++ nonBlankLines [line]).
Proof.
  unfold sepStep, nonBlankLines. cbn [map filter].
  destruct (trim line) as [|c t] eqn:E; cbn [isEmpty negb].
  - rewrite app_nil_r. destruct (_ && _)%bool; reflexivity.
  - repeat match goal with
           | |- context [if ?b then _ else _] => destruct b
           end; cbn [ingredientLines methodLines];
      try (rewrite app_assoc; reflexivity).
    all: rewrite <- app_assoc; apply Permutation_app_head;
      apply Permutation_app_comm.
Qed.

(** X4: [separateContent] puts every line that is not blank, trimmed, in
    exactly one of its two buckets, and nothing else. *)
Theorem separateContent_buckets (body : jsstring) :
  Permutation
    (ingredientLines (sepRun body) ++ methodLines (sepRun body))
    (nonBlankLines (split LF body)).
Proof.
  unfold sepRun.
  assert (G : forall lines st,
             Permutation
               (ingredientLines (fold_left sepStep lines st)
                ++ methodLines (fold_left sepStep lines st))
               (ingredientLines st ++ methodLines st ++ nonBlankLines lines)).
  { induction lines as [|l lines IH]; intros st.
    - simpl. rewrite app_nil_r. reflexivity.
    - cbn [fold_left]. rewrite IH.
      change (l :: lines) with ([l] ++ lines). rewrite nonBlankLines_app.
      rewrite !app_assoc. apply Permutation_app_tail.
      rewrite <- app_assoc. apply sepStep_buckets. }
  apply (G (split LF body) sepInit).
Qed.

Lemma sepStep_ingredients (st : SepState) (line : jsstring) :
  Forall (fun l => looksLikeIngredient l = true) (ingredientLines st) ->
  Forall (fun l => looksLikeIngredient l = true) (ingredientLines (sepStep st line)).
Proof.
  intros Hst. unfold sepStep.
  destruct (isEmpty (trim line)).
  - destruct (_ && _)%bool; exact Hst.
  - destruct (if (foundBlankLine st && negb (inMethod st))%bool
              then if negb (looksLikeIngredient (trim line)) then true else inMethod st
              else inMethod st); [exact Hst|].
    destruct (looksLikeIngredient (trim line)) eqn:E.
    + cbn [ingredientLines]. apply Forall_app. split; [exact Hst|].
      constructor; [exact E | constructor].
    + destruct (Nat.eqb _ 0); exact Hst.
Qed.

(** X5: every line that [separateContent] takes as an ingredient passes
    [looksLikeIngredient]. *)
Theorem separateContent_ingredients (body : jsstring) :
  Forall (fun l => looksLikeIngredient l = true) (ingredientLines (sepRun body)).
Proof.
  unfold sepRun.
  assert (G : forall lines st,
             Forall (fun l => looksLikeIngredient l = true) (ingredientLines st) ->
             Forall (fun l => looksLikeIngredient l = true)
                    (ingredientLines (fold_left sepStep lines st))).
  { induction lines as [|l lines IH]; intros st Hst; [exact Hst|].
    cbn [fold_left]. apply IH, sepStep_ingredients, Hst. }
  apply G. constructor.
Qed.

Lemma sepRun_leading_blanks (blanks : list jsstring) :
  Forall (fun b => trim b = []) blanks -> fold_left sepStep blanks sepInit = sepInit.
Proof.
  induction blanks as [|b blanks IH]; intros Hb; [reflexivity|].
  inversion Hb as [|? ? E Hb']; subst. cbn [fold_left].
  unfold sepStep at 2. rewrite E. cbn. apply IH, Hb'.
Qed.

(** X6: when the first line of a body that is not blank does not look like
    an ingredient, no line is ever taken as an ingredient: every line that
    is not blank goes to the method lines, also those that look like
    ingredients, and [separateContent] returns the body as [content]. *)
Theorem separateContent_method_first (body : jsstring) (blanks : list jsstring)
  (l : jsstring) (others : list jsstring) :
  split LF body = blanks ++ l :: others ->
  Forall (fun b => trim b = []) blanks ->
  trim l <> [] ->
  looksLikeIngredient (trim l) = false ->
  ingredientLines (sepRun body) = []
  /\ methodLines (sepRun body) = trim l :: nonBlankLines others
  /\ separateContent body =
     {| sep_ingredientes := None; sep_metodo := None; sep_content := Some (trim body) |}.
Proof.
  intros Es Hb Hl Hn.
  assert (E1 : sepStep sepInit l =
               {| foundBlankLine := false; inMethod := true;
                  ingredientLines := []; methodLines := [trim l] |}).
  { unfold sepStep, sepInit. cbn [foundBlankLine inMethod ingredientLines methodLines].
    destruct (trim l) as [|c t] eqn:E; [contradiction|]. cbn [isEmpty andb].
    rewrite Hn. reflexivity. }
  assert (Er : sepRun body =
               fold_left sepStep others
                 {| foundBlankLine := false; inMethod := true;
                    ingredientLines := []; methodLines := [trim l] |}).
  { unfold sepRun. rewrite Es, fold_left_app, (sepRun_leading_blanks Hb).
    cbn [fold_left]. rewrite E1. reflexivity. }
  destruct (sepRun_inMethod others
              {| foundBlankLine := false; inMethod := true;
                 ingredientLines := []; methodLines := [trim l] |} eq_refl)
    as (_ & Ei & Em).
  rewrite <- Er in Ei, Em. cbn [ingredientLines methodLines] in Ei, Em.
  split; [exact Ei|]. split; [exact Em|].
  unfold separateContent. cbn zeta. rewrite Ei. reflexivity.
Qed.

Lemma separateContent_method_first_witness :
  ingredientLines
    (sepRun (js " " ++ [LF] ++ js "Mezclar todo." ++ [LF] ++ js "2 tazas de harina"
             ++ [LF] ++ js "1 taza de leche")) = []
  /\ methodLines
       (sepRun (js " " ++ [LF] ++ js "Mezclar todo." ++ [LF] ++ js "2 tazas de harina"
                ++ [LF] ++ js "1 taza de leche"))
     = [js "Mezclar todo."; js "2 tazas de harina"; js "1 taza de leche"]
  /\ separateContent (js " " ++ [LF] ++ js "Mezclar todo." ++ [LF] ++ js "2 tazas de harina"
                      ++ [LF] ++ js "1 taza de leche")
     = {| sep_ingredientes := None; sep_metodo := None;
          sep_content := Some (js "Mezclar todo." ++ [LF] ++ js "2 tazas de harina"
                               ++ [LF] ++ js "1 taza de leche") |}.
Proof.
  destruct (@separateContent_method_first
              (js " " ++ [LF] ++ js "Mezclar todo." ++ [LF] ++ js "2 tazas de harina"
               ++ [LF] ++ js "1 taza de leche")
              [js " "] (js "Mezclar todo.")
              [js "2 tazas de harina"; js "1 taza de leche"])
    as (Hi & Hm & Hs).
  - vm_compute. reflexivity.
  - repeat constructor.
  - vm_compute. discriminate.
  - vm_compute. reflexivity.
  - split; [exact Hi|]. split; [rewrite Hm; vm_compute; reflexivity|].
    rewrite Hs. vm_compute. reflexivity.
Defined.

(* --------------------------------------------------------------------- *)
(** ** More about [parseRecipes] *)
(* --------------------------------------------------------------------- *)

(** Replacing matches by the empty text does not make a text longer. *)
Lemma replaceAllFrom_delete_length (r : re) :
  forall fuel pv t, (length (replaceAllFrom fuel r [] pv t) <= length t)%nat.
Proof.
  induction fuel as [|fuel IH]; intros pv t; [apply le_n|].
  cbn [replaceAllFrom].
  assert (Hskip : (length match t with
                          | [] => []
                          | c0 :: t' => c0 :: replaceAllFrom fuel r [] (Some c0) t'
                          end <= length t)%nat).
  { destruct t as [|c0 t']; [apply le_n|]. cbn [length]. apply le_n_S, IH. }
  destruct (matchAt r pv t) as [s'|] eqn:Em; [|exact Hskip].
  destruct (length (rest s') <? length t)%nat eqn:El; [|exact Hskip].
  cbn [app]. apply Nat.ltb_lt in El. specialize (IH (prev s') (rest s')). lia.
Qed.

(** A recipe title has at least three code units. *)
Lemma isRecipeTitle_length (t : jsstring) :
  isRecipeTitle t = true -> (3 <= length t)%nat.
Proof.
  unfold isRecipeTitle. cbn zeta.
  destruct (length (trim (replaceAll reXE [] t)) <? 3)%nat eqn:E1; [discriminate|].
  intros _. apply Nat.ltb_ge in E1.
  destruct (trim_inside (replaceAll reXE [] t)) as (a & b & E).
  apply (f_equal (@length char)) in E. rewrite !length_app in E.
  pose proof (replaceAllFrom_delete_length reXE (S (length t)) None t) as Hl.
  unfold replaceAll in E, E1. lia.
Qed.

(** [/^[A-Z]$/] accepts texts of one code unit only. *)
Lemma singleCapital_length (t : jsstring) :
  test reSingleCapital t = true -> length t = 1%nat.
Proof.
  intros Ht. apply test_matchesIn in Ht. destruct Ht as (pre & u & s' & Et & Hr).
  unfold reSingleCapital in Hr. cbn [seqs] in Hr.
  inversion Hr as [| |? ? ? s1 ? Hbol Hrest| | | | | | | |]; subst.
  inversion Hbol as [| | | | | | | |? Hprev| |]; subst.
  inversion Hrest as [| |? ? ? s2 ? Hchr Heol| | | | | | | |]; subst.
  inversion Hchr as [|? ? c t' Hc _| | | | | | | | |]; subst.
  inversion Heol as [| | | | | | | | |? Hend|]; subst.
  cbn [advance rest] in Hend. subst t'.
  unfold startState in Hprev, Hc. cbn [prev rest] in Hprev, Hc. subst u.
  destruct pre as [|x pre] using rev_ind; [reflexivity|].
  rewrite last_snoc_some in Hprev. discriminate.
Qed.

(** What a title line is not: blank, an index entry, a single capital. *)
Lemma isRecipeTitle_not (t : jsstring) :
  isRecipeTitle t = true ->
  isEmpty t = false /\ isIndexEntry t = false /\ test reSingleCapital t = false.
Proof.
  intros Ht. pose proof (isRecipeTitle_length t Ht) as Hl. repeat split.
  - destruct t; [simpl in Hl; lia | reflexivity].
  - unfold isRecipeTitle in Ht. cbn zeta in Ht.
    destruct (length (trim (replaceAll reXE [] t)) <? 3)%nat; [discriminate|].
    destruct (isIndexEntry t); [discriminate | reflexivity].
  - destruct (test reSingleCapital t) eqn:E; [|reflexivity].
    apply singleCapital_length in E. lia.
Qed.

Section ParseMore.
Context {H : Host}.

Lemma parseStep_inIndex (st : ParseState) (line : jsstring) :
  inIndex st = false -> inIndex (parseStep st line) = false.
Proof.
  intros Hi. unfold parseStep. rewrite Hi.
  destruct (_ && _)%bool; [exact Hi|].
  unfold parseLine. destruct (isRecipeTitle (trim line)); [reflexivity|].
  destruct (currentRecipe st); reflexivity.
Qed.

(** X7: the index section is left once: after a prefix of the lines that
    ends outside the index, no later line brings the loop of
    [parseRecipes] back into it. *)
Theorem parseRecipes_index_one_way (before after : list jsstring) :
  inIndex (fold_left parseStep before parseInit) = false ->
  inIndex (fold_left parseStep (before ++ after) parseInit) = false.
Proof.
  rewrite fold_left_app. generalize (fold_left parseStep before parseInit).
  induction after as [|l after IH]; intros st Hst; [exact Hst|].
  cbn [fold_left]. apply IH, parseStep_inIndex, Hst.
Qed.

(** A line that the loop passes over while it is in the index and has no
    recipe yet. *)
Lemma parseStep_skipped (st : ParseState) (line : jsstring) :
  inIndex st = true -> currentRecipe st = None ->
  isRecipeTitle (trim line) = false \/ startsWith (trim line) (js "INDEX") = true ->
  parseStep st line = st.
Proof.
  intros Hi Hc Hl. unfold parseStep. cbn zeta. rewrite Hi, Hc.
  destruct (isEmpty (trim line)); [reflexivity|]. cbn [andb].
  destruct (isIndexEntry (trim line)); [reflexivity|].
  destruct (test reSingleCapital (trim line)); [reflexivity|].
  destruct Hl as [Hl|Hl].
  - destruct (startsWith (trim line) (js "INDEX")); [reflexivity|].
    rewrite Hl. reflexivity.
  - rewrite Hl. reflexivity.
Qed.

(** A title line opens a recipe, and the recipe before it is kept if its
    body is not blank. *)
Lemma parseStep_title (st : ParseState) (line : jsstring) :
  isRecipeTitle (trim line) = true ->
  inIndex st = false
  \/ (currentRecipe st = None /\ startsWith (trim line) (js "INDEX") = false) ->
  parseStep st line =
  {| recipes := saveRecipe (recipes st) (currentRecipe st);
     currentRecipe := Some (recipeOfBlock (line, []));
     inIndex := false |}.
Proof.
  intros Ht Hst. destruct (isRecipeTitle_not _ Ht) as (He & Hx & Hs).
  unfold parseStep. cbn zeta. rewrite He. cbn [andb].
  destruct (inIndex st) eqn:Hi.
  - destruct Hst as [Hst|[_ Hn]]; [discriminate|].
    rewrite Hx, Hs, Hn, Ht. unfold parseLine. rewrite Ht. reflexivity.
  - unfold parseLine. rewrite Ht. reflexivity.
Qed.

(** The lines below a title are added to the body as they are. *)
Lemma parseStep_body (lines : list jsstring) :
  forall rs r,
    Forall (fun l => isRecipeTitle (trim l) = false) lines ->
    fold_left parseStep lines
      {| recipes := rs; currentRecipe := Some r; inIndex := false |}
    = {| recipes := rs;
         currentRecipe := Some {| raw_title := raw_title r; raw_slug := raw_slug r;
                                  rawContent := rawContent r ++ bodyText lines |};
         inIndex := false |}.
Proof.
  induction lines as [|l lines IH]; intros rs r Hall.
  - cbn [fold_left]. unfold bodyText. cbn [map concat]. rewrite app_nil_r.
    destruct r; reflexivity.
  - inversion Hall as [|? ? Hl Hls]; subst. cbn [fold_left].
    assert (E : parseStep {| recipes := rs; currentRecipe := Some r; inIndex := false |} l
                = {| recipes := rs;
                     currentRecipe :=
                       Some {| raw_title := raw_title r; raw_slug := raw_slug r;
                               rawContent := rawContent r ++ l ++ [LF] |};
                     inIndex := false |}).
    { unfold parseStep. cbn [currentRecipe inIndex]. rewrite andb_false_r.
      unfold parseLine. rewrite Hl. reflexivity. }
    rewrite E, (IH _ _ Hls). cbn [raw_title raw_slug rawContent].
    unfold bodyText. cbn [map concat]. rewrite <- !app_assoc. reflexivity.
Qed.

Lemma filter_cons_app (A : Type) (f : A -> bool) (x : A) (l : list A) :
  filter f (x :: l) = filter f [x] ++ filter f l.
Proof. cbn [filter]. destruct (f x); reflexivity. Qed.

Lemma saveRecipe_some (rs : list RawRecipe) (r : RawRecipe) :
  saveRecipe rs (Some r) = rs ++ filter bodyNotBlank [r].
Proof.
  unfold saveRecipe, bodyNotBlank. cbn [filter].
  destruct (negb (isEmpty (trim (rawContent r)))); [reflexivity|].
  rewrite app_nil_r. reflexivity.
Qed.

(** The loop over one block: the recipe before it is saved and the
    block becomes the current recipe. *)
Lemma parseStep_block (st : ParseState) (t : jsstring) (body others : list jsstring) :
  isRecipeTitle (trim t) = true ->
  Forall (fun l => isRecipeTitle (trim l) = false) body ->
  inIndex st = false
  \/ (currentRecipe st = None /\ startsWith (trim t) (js "INDEX") = false) ->
  fold_left parseStep (blockLines (t, body) ++ others) st
  = fold_left parseStep others
      {| recipes := saveRecipe (recipes st) (currentRecipe st);
         currentRecipe := Some (recipeOfBlock (t, body));
         inIndex := false |}.
Proof.
  intros Ht Hb Hst. unfold blockLines. cbn [fst snd app fold_left].
  rewrite (@parseStep_title st t Ht Hst), fold_left_app, (parseStep_body _ _ Hb).
  reflexivity.
Qed.

(** The loop over the blocks that follow the first title. *)
Lemma parseStep_blocks (blocks : list (jsstring * list jsstring)) :
  forall rs cur,
    Forall (fun b => isRecipeTitle (trim (fst b)) = true
                     /\ Forall (fun l => isRecipeTitle (trim l) = false) (snd b)) blocks ->
    saveRecipe
      (recipes (fold_left parseStep (flat_map blockLines blocks)
                  {| recipes := rs; currentRecipe := cur; inIndex := false |}))
      (currentRecipe (fold_left parseStep (flat_map blockLines blocks)
                        {| recipes := rs; currentRecipe := cur; inIndex := false |}))
    = saveRecipe rs cur ++ filter bodyNotBlank (map recipeOfBlock blocks).
Proof.
  induction blocks as [|[t body] blocks IH]; intros rs cur Hall.
  - cbn [flat_map fold_left map filter recipes currentRecipe]. rewrite app_nil_r.
    reflexivity.
  - inversion Hall as [|? ? [Ht Hb] Hbs]; subst. cbn [fst snd] in Ht, Hb.
    cbn [flat_map]. rewrite (@parseStep_block _ t body _ Ht Hb) by (left; reflexivity).
    cbn [recipes currentRecipe]. rewrite (IH _ _ Hbs).
    rewrite saveRecipe_some, <- app_assoc. cbn [map].
    rewrite (filter_cons_app bodyNotBlank (recipeOfBlock (t, body)) (map recipeOfBlock blocks)). reflexivity.
Qed.

(** X8: what [parseRecipes] returns, for every text. The lines of the
    text are some lines that the index section passes over (lines that
    are not titles, and lines that start with INDEX), then blocks, each a
    title line with the lines below it up to the next title. The result
    has, in order, one recipe for each block whose body is not blank:
    its title is the cleaned title line and its body is the lines of the
    block as they are in the file, each with a line feed, also the lines
    that are blank or have the shape of an index entry. *)
Theorem parseRecipes_blocks (text : jsstring) (skipped : list jsstring)
  (blocks : list (jsstring * list jsstring)) :
  split LF text = skipped ++ flat_map blockLines blocks ->
  Forall (fun l => isRecipeTitle (trim l) = false
                   \/ startsWith (trim l) (js "INDEX") = true) skipped ->
  match blocks with
  | b :: _ => startsWith (trim (fst b)) (js "INDEX") = false
  | [] => True
  end ->
  Forall (fun b => isRecipeTitle (trim (fst b)) = true
                   /\ Forall (fun l => isRecipeTitle (trim l) = false) (snd b)) blocks ->
  parseRecipes text = filter bodyNotBlank (map recipeOfBlock blocks).
Proof.
  intros Es Hskip Hfirst Hall. unfold parseRecipes. cbn zeta.
  rewrite Es, fold_left_app.
  assert (E0 : fold_left parseStep skipped
                 {| recipes := []; currentRecipe := None; inIndex := true |}
               = {| recipes := []; currentRecipe := None; inIndex := true |}).
  { clear Es. induction skipped as [|l ls IH]; [reflexivity|].
    inversion Hskip as [|? ? Hl Hls]; subst. cbn [fold_left].
    rewrite parseStep_skipped by (try reflexivity; exact Hl). apply IH, Hls. }
  rewrite E0. destruct blocks as [|[t body] blocks]; [reflexivity|].
  inversion Hall as [|? ? [Ht Hb] Hbs]; subst. cbn [fst snd] in Ht, Hb, Hfirst.
  cbn [flat_map].
  rewrite (@parseStep_block _ t body _ Ht Hb) by (right; split; [reflexivity | exact Hfirst]).
  cbn [recipes currentRecipe saveRecipe]. rewrite (parseStep_blocks _ _ Hbs).
  rewrite saveRecipe_some. cbn [map app].
  rewrite (filter_cons_app bodyNotBlank (recipeOfBlock (t, body)) (map recipeOfBlock blocks)). reflexivity.
Qed.

Lemma saveRecipe_from (lines : list jsstring) (st : ParseState) :
  stateFrom lines st ->
  Forall (fromTitleLine lines) (saveRecipe (recipes st) (currentRecipe st)).
Proof.
  intros [Hr Hc]. unfold saveRecipe. destruct (currentRecipe st) as [r|]; [|exact Hr].
  destruct (negb _); [|exact Hr].
  apply Forall_app. split; [exact Hr | constructor; [exact Hc | constructor]].
Qed.

Lemma parseLine_from (lines : list jsstring) (st : ParseState) (line : jsstring)
  (idx : bool) :
  In line lines -> stateFrom lines st ->
  stateFrom lines (parseLine st line (trim line) idx).
Proof.
  intros Hin Hst. unfold parseLine. destruct (isRecipeTitle (trim line)) eqn:Et.
  - split; cbn [recipes currentRecipe].
    + apply saveRecipe_from, Hst.
    + split; [reflexivity|]. exists line. auto.
  - destruct Hst as [Hr Hc]. destruct (currentRecipe st) as [r|] eqn:Ec.
    + split; cbn [recipes currentRecipe]; [exact Hr|]. exact Hc.
    + split; cbn [recipes currentRecipe]; [exact Hr | exact I].
Qed.

Lemma parseStep_from (lines : list jsstring) (st : ParseState) (line : jsstring) :
  In line lines -> stateFrom lines st -> stateFrom lines (parseStep st line).
Proof.
  intros Hin Hst. unfold parseStep.
  repeat match goal with
         | |- context [if ?b then _ else _] => destruct b
         end; auto using parseLine_from.
Qed.

(** X9: every recipe that [parseRecipes] returns has a body that is not
    blank, the slug of its title as its slug, and as its title the
    cleaned text of a line of the input that is a recipe title. *)
Theorem parseRecipes_recipes (text : jsstring) (r : RawRecipe) :
  In r (parseRecipes text) ->
  trim (rawContent r) <> []
  /\ raw_slug r = slugify (raw_title r)
  /\ exists line, In line (split LF text) /\ isRecipeTitle (trim line) = true
                  /\ raw_title r = cleanTitle (trim line).
Proof.
  intros Hin. split.
  - pose proof (parseRecipes_hasBody text) as Hall.
    rewrite Forall_forall in Hall. apply (Hall r Hin).
  - unfold parseRecipes in Hin.
    assert (G : forall ls st,
               (forall l, In l ls -> In l (split LF text)) ->
               stateFrom (split LF text) st ->
               stateFrom (split LF text) (fold_left parseStep ls st)).
    { induction ls as [|l ls IH]; intros st Hls Hst; [exact Hst|].
      cbn [fold_left]. apply IH.
      - intros l' Hl'. apply Hls. right. exact Hl'.
      - apply parseStep_from; [apply Hls; left; reflexivity | exact Hst]. }
    assert (Hst : stateFrom (split LF text)
                    (fold_left parseStep (split LF text)
                       {| recipes := []; currentRecipe := None; inIndex := true |})).
    { apply G; [auto|]. split; [constructor | exact I]. }
    apply saveRecipe_from in Hst. rewrite Forall_forall in Hst.
    apply (Hst r Hin).
Qed.

Lemma parseStep_no_title (st : ParseState) (line : jsstring) :
  isRecipeTitle (trim line) = false ->
  recipes st = [] -> currentRecipe st = None ->
  recipes (parseStep st line) = [] /\ currentRecipe (parseStep st line) = None.
Proof.
  intros Ht Hr Hc. unfold parseStep, parseLine. rewrite Ht, Hc.
  repeat match goal with
         | |- context [if ?b then _ else _] => destruct b
         end; auto.
Qed.

(** X10: a text without any title line yields no recipe. *)
Theorem parseRecipes_no_title (text : jsstring) :
  (forall line, In line (split LF text) -> isRecipeTitle (trim line) = false) ->
  parseRecipes text = [].
Proof.
  intros Hall. unfold parseRecipes.
  assert (G : forall ls st,
             (forall l, In l ls -> isRecipeTitle (trim l) = false) ->
             recipes st = [] -> currentRecipe st = None ->
             recipes (fold_left parseStep ls st) = []
             /\ currentRecipe (fold_left parseStep ls st) = None).
  { induction ls as [|l ls IH]; intros st Hls Hr Hc; [auto|].
    cbn [fold_left].
    destruct (@parseStep_no_title st l (Hls l (or_introl eq_refl)) Hr Hc) as [Hr' Hc'].
    apply IH; [|exact Hr' | exact Hc'].
    intros l' Hl'. apply Hls. right. exact Hl'. }
  destruct (G (split LF text)
              {| recipes := []; currentRecipe := None; inIndex := true |}
              Hall eq_refl eq_refl) as [Hr Hc].
  rewrite Hr, Hc. reflexivity.
Qed.
End ParseMore.

Lemma parseRecipes_index_one_way_witness :
  inIndex
    (fold_left (@parseStep plainHost)
       ([js "INDEX"; js "Pollo · 3"; js "POLLO AL HORNO"] ++ [js "Pollo · 3"; js "A"])
       parseInit) = false.
Proof.
  apply (@parseRecipes_index_one_way plainHost). vm_compute. reflexivity.
Defined.

Lemma parseRecipes_blocks_witness :
  @parseRecipes plainHost blocksText
  = [ {| raw_title := js "POLLO AL HORNO"; raw_slug := js "pollo-al-horno";
         rawContent := js "Pollo · 3" ++ [LF] ++ [LF] ++ js "2 tazas" ++ [LF] |};
      {| raw_title := js "TERCER PLATO"; raw_slug := js "tercer-plato";
         rawContent := js "Servir." ++ [LF] |} ].
Proof.
  refine (eq_trans
            (@parseRecipes_blocks plainHost blocksText
               [js "INDEX"; js "Pollo · 3"]
               [(js "POLLO AL HORNO", [js "Pollo · 3"; []; js "2 tazas"]);
                (js "OTRO PLATO", [js " "]);
                (js "TERCER PLATO", [js "Servir."])] _ _ _ _) _).
  - vm_compute. reflexivity.
  - constructor; [right; vm_compute; reflexivity|].
    constructor; [left; vm_compute; reflexivity | constructor].
  - vm_compute. reflexivity.
  - repeat (constructor; [split; [vm_compute; reflexivity|]|]);
      repeat (constructor; [vm_compute; reflexivity|]); constructor.
  - vm_compute. reflexivity.
Defined.

Lemma parseRecipes_recipes_witness :
  exists line,
    In line (split LF exampleText) /\ isRecipeTitle (trim line) = true
    /\ js "OTRO PLATO" = cleanTitle (trim line).
Proof.
  apply (@parseRecipes_recipes plainHost exampleText
           {| raw_title := js "OTRO PLATO"; raw_slug := js "otro-plato";
              rawContent := js "Servir frío." ++ [LF] |}).
  vm_compute. right. left. reflexivity.
Defined.

Lemma parseRecipes_no_title_witness :
  @parseRecipes plainHost (js "Indice" ++ [LF] ++ js "POLLO · 3" ++ [LF] ++ js "sin titulo")
  = [].
Proof.
  apply (@parseRecipes_no_title plainHost).
  intros line Hin. vm_compute in Hin.
  repeat (destruct Hin as [Hin|Hin]; [subst line; vm_compute; reflexivity|]).
  contradiction.
Defined.

(* --------------------------------------------------------------------- *)
(** ** More about [parseQuantityFromLabel], and [areUnitsCompatible] *)
(* --------------------------------------------------------------------- *)

Lemma reach_alts_inv (l : list re) (s s' : mstate) :
  reach (alts l) s s' -> exists r, In r l /\ reach r s s'.
Proof.
  induction l as [|r l IH]; intros Hr.
  - simpl in Hr. inversion Hr; subst. discriminate.
  - destruct l as [|r' l].
    + exists r. split; [left; reflexivity | exact Hr].
    + cbn [alts] in Hr. inversion Hr; subst.
      * exists r. split; [left; reflexivity | assumption].
      * destruct IH as (r0 & Hin & Hr0); [assumption|].
        exists r0. split; [right; exact Hin | exact Hr0].
Qed.

Lemma chrI_lower (c d : char) :
  isAsciiLower c = true -> (d =? c)%N || (d =? swapCase c)%N = true ->
  isAscii d = true /\ lowerAscii d = c.
Proof.
  intros Hc Hd.
  assert (Hr : (97 <= c <= 122)%N).
  { unfold isAsciiLower, in_range in Hc. apply andb_true_iff in Hc.
    destruct Hc as [H1 H2]. apply N.leb_le in H1, H2. lia. }
  assert (Hs : swapCase c = (c - 32)%N).
  { unfold swapCase. rewrite Hc.
    replace (isAsciiUpper c) with false; [reflexivity|].
    symmetry. unfold isAsciiUpper, in_range. apply andb_false_iff. right.
    apply N.leb_gt. lia. }
  rewrite Hs in Hd.
  assert (Hd' : d = c \/ d = (c - 32)%N)
    by (apply orb_true_iff in Hd; destruct Hd as [E|E]; apply N.eqb_eq in E; auto).
  unfold isAscii, lowerAscii, isAsciiUpper, in_range.
  destruct Hd' as [E|E]; subst d.
  - split; [apply N.ltb_lt; lia|].
    replace (c <=? 90)%N with false by (symmetry; apply N.leb_gt; lia).
    rewrite andb_false_r. reflexivity.
  - split; [apply N.ltb_lt; lia|].
    replace (65 <=? c - 32)%N with true by (symmetry; apply N.leb_le; lia).
    replace (c - 32 <=? 90)%N with true by (symmetry; apply N.leb_le; lia).
    cbn [andb]. lia.
Qed.

(** The text that a literal matches under the [i] flag is the literal up
    to the case of its letters. *)
Lemma reach_litI_lower (lit0 : jsstring) :
  forallb isAsciiLower lit0 = true ->
  forall s s', reach (litI lit0) s s' ->
    exists w, rest s = w ++ rest s' /\ forallb isAscii w = true
              /\ map lowerAscii w = lit0.
Proof.
  unfold litI. induction lit0 as [|c t IH]; intros Hl s s' Hr.
  - inversion Hr; subst. exists []. auto.
  - simpl in Hl. apply andb_true_iff in Hl. destruct Hl as [Hc Ht].
    assert (Hone : forall s1 s2, reach (chrI c) s1 s2 ->
                     exists d, rest s1 = d :: rest s2 /\ isAscii d = true
                               /\ lowerAscii d = c).
    { intros s1 s2 H1. inversion H1 as [|q s0 d u Hd Hp| | | | | | | | |]; subst.
      destruct (chrI_lower c d Hc Hp) as [Ha Hlow]. exists d. auto. }
    destruct t as [|c' t].
    + cbn [map seqs] in Hr. destruct (Hone _ _ Hr) as (d & E & Ha & Hlow).
      exists [d]. simpl. rewrite Ha, Hlow. auto.
    + cbn [map seqs] in Hr. inversion Hr as [| |r1 r2 s0 s1 s2 H1 H2| | | | | | | |]; subst.
      destruct (Hone _ _ H1) as (d & E & Ha & Hlow).
      destruct (IH Ht _ _ H2) as (w & Ew & Fw & Mw).
      exists (d :: w). simpl. rewrite E, Ew, Ha, Fw, Hlow, Mw. auto.
Qed.

Lemma reach_unit_token (s s' : mstate) :
  reach reUnit s s' ->
  exists w, rest s = w ++ rest s' /\ forallb isAscii w = true
            /\ In (map lowerAscii w) unitTokens.
Proof.
  intros Hr. apply reach_alts_inv in Hr. destruct Hr as (r & Hin & Hr).
  assert (Hlit : forall t, forallb isAsciiLower t = true -> In t unitTokens ->
                           reach (litI t) s s' ->
                           exists w, rest s = w ++ rest s' /\ forallb isAscii w = true
                                     /\ In (map lowerAscii w) unitTokens).
  { intros t Ht Hin' Hr'. destruct (reach_litI_lower t Ht Hr') as (w & E & F & M).
    exists w. rewrite M. auto. }
  do 6 (destruct Hin as [E|Hin];
        [subst r;
         match type of Hr with
         | reach (litI ?t) _ _ => apply (Hlit t); [reflexivity | simpl; tauto | exact Hr]
         end|]).
  destruct Hin as [E|[]]. subst r.
  inversion Hr as [| |r1 r2 s0 s1 s2 H1 H2| | | | | | | |]; subst.
  destruct (reach_litI_lower (js "pc") eq_refl H1) as (w & E & F & M).
  inversion H2 as [| | |r1 r2 s0 s2 H3|r1 r2 s0 s2 H3| | | | | |]; subst.
  - inversion H3 as [|q s0 d u Hd Hp| | | | | | | | |]; subst.
    destruct (chrI_lower (ch "s") d eq_refl Hp) as [Ha Hlow].
    exists (w ++ [d]). rewrite E, Hd, <- app_assoc, forallb_app, map_app, M.
    cbn [advance rest forallb map app]. rewrite F, Ha, Hlow.
    repeat split. simpl. tauto.
  - inversion H3; subst. exists w. rewrite M. repeat split; auto. simpl. tauto.
Qed.

Lemma exec_some_iff (r : re) (s : jsstring) :
  (exists m, exec r s = Some m) <-> matchesIn r s.
Proof.
  rewrite <- test_matchesIn. unfold test. destruct (exec r s) as [m|]; split.
  - reflexivity.
  - intros _. exists m. reflexivity.
  - intros [m Hm]. discriminate.
  - discriminate.
Qed.

Section LabelMore.
Context {H : Host}.

(** The second capture of a match of the first pattern is a unit token,
    up to case. *)
Lemma reParen_unit (s : jsstring) (m : rmatched) :
  exec reParen s = Some m -> In (toLowerCase (group 2 m)) unitTokens.
Proof.
  intros E. apply (searchFrom_sound reParen s []) in E.
  destruct E as (mid & t' & s' & _ & Hr & _ & _ & Hg & _).
  unfold reParen in Hr. cbn [seqs] in Hr.
  inversion Hr as [| |r1 r2 s0 s1 s2 H1 H2| | | | | | | |]; subst. clear Hr.
  inversion H2 as [| |r1 r2 s0 s2 s3 H3 H4| | | | | | | |]; subst. clear H2.
  inversion H4 as [| |r1 r2 s0 s3 s4 H5 H6| | | | | | | |]; subst. clear H4.
  inversion H6 as [| |r1 r2 s0 s4 s5 H7 H8| | | | | | | |]; subst. clear H6.
  inversion H7 as [| | | | | | |i r s0 s6 H9| | |]; subst. clear H7.
  inversion H8 as [|q s0 d u Hd Hp| | | | | | | | |]; subst. clear H8.
  unfold group. rewrite Hg. cbn [advance caps setCap find fst snd Nat.eqb].
  destruct (reach_unit_token H9) as (w & Ew & Fw & Hw).
  rewrite (@consumed_app _ _ _ Ew). unfold toLowerCase. rewrite Fw. exact Hw.
Qed.

Lemma parseQuantityFromLabel_unit_token_aux (label : jsstring) :
  In (unit_ (parseQuantityFromLabel label)) unitTokens.
Proof.
  unfold parseQuantityFromLabel. cbn zeta.
  destruct (exec reParen _) as [m|] eqn:E1.
  - cbn [unit_]. eapply reParen_unit. exact E1.
  - assert (Hp : In (js "pcs") unitTokens) by (simpl; tauto).
    destruct (exec reParenNum _); [exact Hp|].
    destruct (exec reX _); [exact Hp|].
    destruct (exec reLeadingNum _); exact Hp.
Qed.

(** X11: the unit that [parseQuantityFromLabel] returns is one of g, kg,
    ml, l, tsp, tbsp, pc and pcs, in lower case; it is pcs for every
    label that is not matched by the first pattern. *)
Theorem parseQuantityFromLabel_unit_token (label : jsstring) :
  In (unit_ (parseQuantityFromLabel label)) unitTokens
  /\ (~ matchesIn reParen (replaceFirst reTrailingX0 [] label) ->
      unit_ (parseQuantityFromLabel label) = js "pcs").
Proof.
  split; [apply parseQuantityFromLabel_unit_token_aux|].
  intros Hn. apply exec_none_iff in Hn.
  unfold parseQuantityFromLabel. cbn zeta. rewrite Hn.
  destruct (exec reParenNum _); [reflexivity|].
  destruct (exec reX _); [reflexivity|].
  destruct (exec reLeadingNum _); reflexivity.
Qed.

(** X12: the precedence of the patterns. A label is pack-based exactly
    when, once a trailing [x0] is removed, the first or the second
    pattern matches in it, or the third does not and the fourth does. *)
Theorem parseQuantityFromLabel_pack_based (label : jsstring) :
  isPackBased (parseQuantityFromLabel label) = true <->
  (matchesIn reParen (replaceFirst reTrailingX0 [] label)
   \/ matchesIn reParenNum (replaceFirst reTrailingX0 [] label)
   \/ (~ matchesIn reX (replaceFirst reTrailingX0 [] label)
       /\ matchesIn reLeadingNum (replaceFirst reTrailingX0 [] label))).
Proof.
  unfold parseQuantityFromLabel. cbn zeta.
  set (c := replaceFirst reTrailingX0 [] label).
  destruct (exec reParen c) as [m1|] eqn:E1.
  - split; [|reflexivity]. intros _. left. apply exec_some_iff. eauto.
  - apply exec_none_iff in E1. destruct (exec reParenNum c) as [m2|] eqn:E2.
    + split; [|reflexivity]. intros _. right. left. apply exec_some_iff. eauto.
    + apply exec_none_iff in E2. destruct (exec reX c) as [m3|] eqn:E3.
      * cbn [isPackBased]. split; [discriminate|].
        intros [Hm|[Hm|[Hn _]]]; try contradiction.
        exfalso. apply Hn. apply exec_some_iff. eauto.
      * apply exec_none_iff in E3. destruct (exec reLeadingNum c) as [m4|] eqn:E4.
        -- split; [|reflexivity]. intros _. right. right. split; [exact E3|].
           apply exec_some_iff. eauto.
        -- apply exec_none_iff in E4. cbn [isPackBased]. split; [discriminate|].
           intros [Hm|[Hm|[_ Hm]]]; contradiction.
Qed.

(** X13: [areUnitsCompatible] is an equivalence relation, and it relates
    no two different units among the seven of the combined
    ingredients. *)
Theorem areUnitsCompatible_equivalence :
  (forall u, areUnitsCompatible u u = true)
  /\ (forall u v, areUnitsCompatible u v = areUnitsCompatible v u)
  /\ (forall u v w, areUnitsCompatible u v = true -> areUnitsCompatible v w = true ->
                    areUnitsCompatible u w = true)
  /\ (forall u v, In u canonicalUnits -> In v canonicalUnits ->
                  areUnitsCompatible u v = true -> u = v).
Proof.
  unfold areUnitsCompatible. split; [|split; [|split]].
  - intros u. apply str_eqb_refl.
  - intros u v. apply str_eqb_sym.
  - intros u v w Huv Hvw. apply str_eqb_eq in Huv, Hvw. apply str_eqb_eq. congruence.
  - intros u v Hu Hv. unfold canonicalUnits in Hu, Hv.
    repeat (destruct Hu as [Hu|Hu]; [subst u|]); try contradiction;
      repeat (destruct Hv as [Hv|Hv]; [subst v|]); try contradiction;
      intros E; try reflexivity; vm_compute in E; discriminate.
Qed.

(** X14: the unit under which [combineIngredients] groups an ingredient
    is compatible, for [areUnitsCompatible], with the unit parsed from its
    label: turning [pc] into [pcs] does not change what the unit means. *)
Theorem makeItem_unit_compatible (t : jsstring) (ing : Ingredient) :
  areUnitsCompatible (unit_ (parseQuantityFromLabel (ing_label ing)))
                     (it_unit (makeItem t ing)) = true.
Proof.
  unfold makeItem. cbn [it_unit].
  pose proof (parseQuantityFromLabel_unit_token_aux (ing_label ing)) as Hu.
  set (u := unit_ (parseQuantityFromLabel (ing_label ing))) in *.
  unfold unitTokens in Hu. simpl in Hu.
  destruct Hu as [E|[E|[E|[E|[E|[E|[E|[E|[]]]]]]]]]; rewrite <- E; reflexivity.
Qed.
End LabelMore.

(* --------------------------------------------------------------------- *)
(** ** More about [combineIngredients] *)
(* --------------------------------------------------------------------- *)

Lemma newSet_length (l : list jsstring) : (length (newSet l) <= length l)%nat.
Proof.
  induction l as [|x l IH] using rev_ind; [simpl; lia|].
  rewrite newSet_snoc, length_app. unfold set_add. simpl.
  destruct (existsb _ _); [|rewrite length_app; simpl]; lia.
Qed.

Lemma compareUnits_total (a b : jsstring) :
  (0 < compareUnits a b)%Z -> (compareUnits b a <= 0)%Z.
Proof.
  revert b. induction a as [|x a IH]; intros [|y b]; simpl; try lia.
  destruct (x <? y)%N eqn:E1; [lia|].
  destruct (y <? x)%N eqn:E2; [lia|]. apply IH.
Qed.

Section CombineMore.
Context {H : Host}.

Lemma insertSorted_sorted (x : CombinedIngredient) (l : list CombinedIngredient) :
  (forall a b, (0 < localeCompare a b)%Z -> (localeCompare b a <= 0)%Z) ->
  Sorted inOrder l -> Sorted inOrder (insertSorted x l).
Proof.
  intros Htot. induction l as [|y l IH]; intros Hs; simpl.
  - repeat constructor.
  - inversion Hs as [|? ? Hs' Hd]; subst.
    destruct (localeCompare (ci_displayName y) (ci_displayName x) <=? 0)%Z eqn:E.
    + apply Z.leb_le in E. constructor; [apply IH; exact Hs'|].
      destruct l as [|z l]; simpl.
      * constructor. exact E.
      * destruct (localeCompare (ci_displayName z) (ci_displayName x) <=? 0)%Z;
          constructor; [|exact E]. inversion Hd; assumption.
    + apply Z.leb_gt in E. constructor; [exact Hs|].
      constructor. apply Htot. lia.
Qed.

(** X15: when the comparison of the host never puts each of two texts
    strictly after the other, the result of [combineIngredients] is in
    ascending order of display name. *)
Theorem combineIngredients_sorted (lists : list IngredientList) :
  (forall a b, (0 < localeCompare a b)%Z -> (localeCompare b a <= 0)%Z) ->
  Sorted inOrder (combineIngredients lists).
Proof.
  intros Htot. unfold combineIngredients, sortByDisplayName. cbn zeta.
  generalize (fold_left emitGroup (groupByName lists) []). intros l.
  assert (G : forall acc, Sorted inOrder acc ->
                          Sorted inOrder (fold_left (fun acc x => insertSorted x acc) l acc)).
  { induction l as [|x l IH]; intros acc Hacc; [exact Hacc|].
    cbn [fold_left]. apply IH, insertSorted_sorted; assumption. }
  apply G. constructor.
Qed.

(** X16: a combined ingredient has at least one quantity, and its recipe
    count is at least one and at most the number of its quantities. *)
Theorem combineIngredients_counts (lists : list IngredientList) (r : CombinedIngredient) :
  In r (combineIngredients lists) ->
  ci_quantities r <> []
  /\ (1 <= ci_recipeCount r <= length (ci_quantities r))%nat.
Proof.
  intros Hr. apply (Permutation_in _ (combineIngredients_rows lists)) in Hr.
  apply unsortedRows_in in Hr. destruct Hr as (n & u & items & _ & Hu & Hr).
  set (its := filter (keyIs unitKey u) items) in *.
  assert (E : ci_quantities r = map toQuantity its
              /\ ci_recipeCount r = countRecipes its)
    by (destruct Hr as [Hr|Hr]; subst r; split; reflexivity).
  destruct E as [E1 E2]. rewrite E1, E2.
  apply in_map_iff in Hu. destruct Hu as (i & Ei & Hi).
  assert (Hin : In i its).
  { unfold its. apply filter_In. split; [exact Hi|].
    unfold keyIs. rewrite Ei. apply str_eqb_refl. }
  unfold countRecipes. rewrite length_map.
  pose proof (newSet_length (map it_recipeTitle its)) as Hle. rewrite length_map in Hle.
  assert (Hne : In (it_recipeTitle i) (newSet (map it_recipeTitle its)))
    by (apply newSet_in, in_map, Hin).
  split; [|split; [|exact Hle]].
  - destruct its; [contradiction | discriminate].
  - destruct (newSet (map it_recipeTitle its)); [contradiction | simpl; lia].
Qed.

(** X17: the result is empty exactly when no list has an ingredient. *)
Theorem combineIngredients_empty (lists : list IngredientList) :
  combineIngredients lists = [] <-> occurrences lists = [].
Proof.
  pose proof (combineIngredients_rows lists) as Hp.
  pose proof (unsortedRows_quantities lists) as Hq.
  split; intros E.
  - rewrite E in Hp. apply Permutation_nil in Hp. rewrite Hp in Hq.
    apply Permutation_nil in Hq. apply map_eq_nil in Hq. exact Hq.
  - unfold unsortedRows in Hp. rewrite E in Hp. simpl in Hp.
    apply Permutation_sym, Permutation_nil in Hp. exact Hp.
Qed.
End CombineMore.

Lemma combineIngredients_sorted_witness :
  Sorted (@inOrder plainHost) (@combineIngredients plainHost exampleLists).
Proof.
  apply (@combineIngredients_sorted plainHost exampleLists). apply compareUnits_total.
Defined.

Lemma combineIngredients_counts_witness :
  ci_quantities garlicPieces <> []
  /\ (1 <= ci_recipeCount garlicPieces <= length (ci_quantities garlicPieces))%nat.
Proof.
  apply (@combineIngredients_counts plainHost exampleLists garlicPieces).
  vm_compute. right. right. left. reflexivity.
Defined.

(* --------------------------------------------------------------------- *)
(** ** The recipe page and the records of the script *)
(* --------------------------------------------------------------------- *)














(* --------------------------------------------------------------------- *)
(** ** More about [looksLikeIngredient] and [isRecipeTitle] *)
(* --------------------------------------------------------------------- *)

Lemma reach_alts_intro (l : list re) (r : re) (s s' : mstate) :
  In r l -> reach r s s' -> reach (alts l) s s'.
Proof.
  induction l as [|r0 l IH]; intros Hin Hr; [contradiction|].
  destruct l as [|r1 l].
  - destruct Hin as [E|[]]. subst. exact Hr.
  - cbn [alts]. destruct Hin as [E|Hin].
    + subst. apply R_AltL. exact Hr.
    + apply R_AltR. apply IH; assumption.
Qed.

Lemma spelledAs_last (v : jsstring) :
  forall w, v <> [] -> spelledAs w v = true ->
    w <> [] /\ sameLetter (last w 0%N) (last v 0%N) = true.
Proof.
  induction v as [|c v IH]; intros w Hne Hs; [contradiction|].
  destruct w as [|d w]; [discriminate|].
  cbn [spelledAs] in Hs. apply andb_true_iff in Hs. destruct Hs as [Hd Hs].
  split; [discriminate|].
  destruct v as [|c' v].
  - destruct w; [exact Hd | discriminate].
  - destruct w as [|d' w]; [discriminate|].
    change (last (d :: d' :: w) 0%N) with (last (d' :: w) 0%N).
    change (last (c :: c' :: v) 0%N) with (last (c' :: v) 0%N).
    apply IH; [discriminate | exact Hs].
Qed.

(** A literal under the [i] flag matches each of its spellings. *)
Lemma reach_litI_spelled (v : jsstring) :
  v <> [] ->
  forall w pv t cs, spelledAs w v = true ->
    reach (litI v) (MState pv (w ++ t) cs) (MState (Some (last w 0%N)) t cs).
Proof.
  unfold litI. induction v as [|c v IH]; intros Hne w pv t cs Hs; [contradiction|].
  destruct w as [|d w]; [discriminate|].
  cbn [spelledAs] in Hs. apply andb_true_iff in Hs. destruct Hs as [Hd Hs].
  assert (Hc : forall pv0 t0,
             reach (chrI c) (MState pv0 (d :: t0) cs) (MState (Some d) t0 cs)).
  { intros pv0 t0.
    apply (@R_Chr _ (MState pv0 (d :: t0) cs) d t0); [reflexivity | exact Hd]. }
  destruct v as [|c' v].
  - destruct w; [apply Hc | discriminate].
  - destruct w as [|d' w]; [discriminate|].
    change (seqs (map chrI (c :: c' :: v)))
      with (Seq (chrI c) (seqs (map chrI (c' :: v)))).
    eapply R_Seq; [apply Hc|].
    change (last (d :: d' :: w) 0%N) with (last (d' :: w) 0%N).
    apply IH; [discriminate | exact Hs].
Qed.

Lemma last_rev_head (v : jsstring) (c : char) (u : jsstring) :
  rev v = c :: u -> last v 0%N = c.
Proof.
  intros E. apply (f_equal (@rev char)) in E. rewrite rev_involutive in E.
  subst v. simpl. apply last_last.
Qed.

Lemma startState_wordBefore (pre t : jsstring) :
  wordBefore (startState pre t) = endsWithWord pre.
Proof.
  unfold wordBefore, startState, endsWithWord. cbn [prev].
  destruct pre as [|c pre] using rev_ind; [reflexivity|].
  rewrite last_snoc_some, rev_app_distr. reflexivity.
Qed.

(** The other case of a word character is a word character. *)
Lemma swapCase_word (c : char) : isWord c = true -> isWord (swapCase c) = true.
Proof.
  intros Hc.
  assert (Hlt : (c < 128)%N).
  { unfold isWord, isAsciiUpper, isAsciiLower, isDigit, in_range in Hc.
    repeat (apply orb_true_iff in Hc; destruct Hc as [Hc|Hc]);
      try (apply andb_true_iff in Hc; destruct Hc as [_ Hc]; apply N.leb_le in Hc; lia).
    apply N.eqb_eq in Hc. lia. }
  assert (Hall : forallb (fun n => implb (isWord (N.of_nat n)) (isWord (swapCase (N.of_nat n))))
                         (seq 0 128) = true) by (vm_compute; reflexivity).
  rewrite forallb_forall in Hall.
  specialize (Hall (N.to_nat c)). rewrite N2Nat.id, Hc in Hall. apply Hall.
  apply in_seq. lia.
Qed.

Lemma sameLetter_word (d c : char) :
  sameLetter d c = true -> isWord c = true -> isWord d = true.
Proof.
  unfold sameLetter. intros Hd Hc. apply orb_true_iff in Hd.
  destruct Hd as [Hd|Hd]; apply N.eqb_eq in Hd; subst d;
    [exact Hc | apply swapCase_word, Hc].
Qed.

Lemma methodVerbs_words :
  forallb (fun v => negb (isEmpty v) && startsWithClass isWord v && endsWithWord v)
          methodVerbList = true.
Proof. vm_compute. reflexivity. Qed.

(** X19: a line in which one of the cooking verbs stands as a word of its
    own, in capital or small letters or a mix of them, is never taken for
    an ingredient, whatever it starts with and however short it is. *)
Theorem looksLikeIngredient_method_verb (line pre word post verb : jsstring) :
  In verb methodVerbList ->
  spelledAs word verb = true ->
  trim line = pre ++ word ++ post ->
  endsWithWord pre = false ->
  startsWithClass isWord post = false ->
  looksLikeIngredient line = false.
Proof.
  intros Hv Hs Et Hpre Hpost.
  pose proof methodVerbs_words as Hall. rewrite forallb_forall in Hall.
  specialize (Hall verb Hv). apply andb_true_iff in Hall. destruct Hall as [Hall Hend].
  apply andb_true_iff in Hall. destruct Hall as [Hne Hstart].
  assert (Hne' : verb <> []) by (destruct verb; [discriminate | discriminate]).
  destruct (@spelledAs_last verb word Hne' Hs) as [Hw Hlast].
  assert (Hwl : isWord (last word 0%N) = true).
  { apply (@sameLetter_word _ _ Hlast). unfold endsWithWord in Hend.
    destruct (rev verb) as [|c u] eqn:Er; [discriminate|].
    rewrite (last_rev_head _ Er). exact Hend. }
  assert (Hwf : startsWithClass isWord word = true).
  { destruct word as [|d w]; [contradiction|]. destruct verb as [|c v]; [contradiction|].
    cbn [spelledAs] in Hs. apply andb_true_iff in Hs. destruct Hs as [Hd _].
    exact (@sameLetter_word _ _ Hd Hstart). }
  assert (Hm : test reMethodVerbs (trim line) = true).
  { apply test_matchesIn. rewrite Et. exists pre, (word ++ post).
    exists (setCap 1 (startState pre (word ++ post))
                   (MState (Some (last word 0%N)) post [])).
    split; [reflexivity|]. unfold reMethodVerbs. cbn [seqs].
    eapply R_Seq; [apply R_WordB|eapply R_Seq; [apply R_Group|apply R_WordB]].
    - rewrite startState_wordBefore, Hpre. unfold wordAfter, startState. cbn [rest].
      destruct word as [|d w]; [contradiction|]. exact Hwf.
    - apply reach_alts_intro with (r := litI verb); [apply in_map; exact Hv|].
      apply reach_litI_spelled; [exact Hne' | exact Hs].
    - unfold wordBefore, wordAfter, setCap. cbn [prev rest].
      rewrite Hwl.
      unfold startsWithClass in Hpost. destruct post; [reflexivity|].
      rewrite Hpost. reflexivity. }
  unfold looksLikeIngredient. cbn zeta. rewrite Hm.
  destruct (isEmpty (trim line)); [reflexivity|].
  destruct (80 <? length (trim line))%nat; reflexivity.
Qed.

Lemma looksLikeIngredient_method_verb_witness :
  looksLikeIngredient (js "2 tazas de harina. Mezclar") = false
  /\ looksLikeIngredient (js "FREÍR 2 huevos") = false
  /\ looksLikeIngredient (js "2 tazas de harina") = true.
Proof.
  split; [|split]; [| |vm_compute; reflexivity].
  - apply (@looksLikeIngredient_method_verb _ (js "2 tazas de harina. ") (js "Mezclar") []
             (js "mezclar")).
    + vm_compute. tauto.
    + vm_compute. reflexivity.
    + vm_compute. reflexivity.
    + vm_compute. reflexivity.
    + reflexivity.
  - apply (@looksLikeIngredient_method_verb _ [] (js "FREÍR") (js " 2 huevos")
             (js "freír")).
    + vm_compute. tauto.
    + vm_compute. reflexivity.
    + vm_compute. reflexivity.
    + vm_compute. reflexivity.
    + vm_compute. reflexivity.
Defined.

Lemma matchAllFrom_class (p : char -> bool) :
  forall fuel pv t, (length t < fuel)%nat ->
    matchAllFrom fuel (Chr p) pv t = map (fun c => [c]) (filter p t).
Proof.
  induction fuel as [|fuel IH]; intros pv t Hf; [lia|].
  destruct t as [|c t]; [reflexivity|].
  simpl in Hf. cbn [matchAllFrom filter]. unfold matchAt. rewrite rmatch_Chr. cbn [rest].
  destruct (p c) eqn:Hp.
  - unfold advance. cbn [rest prev length].
    replace (length t <? S (length t))%nat with true by (symmetry; apply Nat.ltb_lt; lia).
    replace (S (length t) - length t)%nat with 1%nat by lia.
    cbn [firstn map]. rewrite IH by lia. reflexivity.
  - rewrite IH by lia. reflexivity.
Qed.

(** Replacing matches by the empty text only removes code units. *)
Lemma replaceAllFrom_delete (r : re) :
  forall fuel pv t c, In c (replaceAllFrom fuel r [] pv t) -> In c t.
Proof.
  induction fuel as [|fuel IH]; intros pv t c Hin; [exact Hin|].
  cbn [replaceAllFrom] in Hin.
  assert (Hskip : In c match t with
                       | [] => []
                       | c0 :: t' => c0 :: replaceAllFrom fuel r [] (Some c0) t'
                       end -> In c t).
  { destruct t as [|c0 t']; [auto|]. intros [E|Hc]; [left; exact E|].
    right. eapply IH. exact Hc. }
  destruct (matchAt r pv t) as [s'|] eqn:Em; [|apply Hskip, Hin].
  destruct (length (rest s') <? length t)%nat; [|apply Hskip, Hin].
  cbn [app] in Hin. apply IH in Hin.
  apply matchAt_sound, reach_suffix in Em. destruct Em as (w & Ew).
  cbn [rest] in Ew. rewrite Ew. apply in_or_app. right. exact Hin.
Qed.

(** X20: a recipe title has at least three code units once its markers are
    removed, is not an index entry, and holds a capital letter. *)
Theorem isRecipeTitle_needs (line : jsstring) :
  isRecipeTitle line = true ->
  (3 <= length (trim (replaceAll reXE [] line)))%nat
  /\ isIndexEntry line = false
  /\ exists c, In c line /\ isUpperLetter c = true.
Proof.
  unfold isRecipeTitle. cbn zeta.
  destruct (length (trim (replaceAll reXE [] line)) <? 3)%nat eqn:E1; [discriminate|].
  destruct (isIndexEntry line) eqn:E2; [discriminate|].
  intros Ht. apply andb_true_iff in Ht. destruct Ht as [Hu _].
  apply Nat.ltb_ge in E1. split; [exact E1|]. split; [reflexivity|].
  apply Nat.ltb_lt in Hu. unfold matchAll, reUpperLetter in Hu.
  rewrite matchAllFrom_class, length_map in Hu by lia.
  destruct (filter isUpperLetter _) as [|c l] eqn:Ef; [simpl in Hu; lia|].
  assert (Hin : In c (filter isUpperLetter
                        (replaceAll reNotLetter [] (trim (replaceAll reXE [] line)))))
    by (rewrite Ef; left; reflexivity).
  apply filter_In in Hin. destruct Hin as [Hin Hc]. exists c. split; [|exact Hc].
  unfold replaceAll in Hin at 1. apply replaceAllFrom_delete in Hin.
  destruct (trim_inside (replaceAll reXE [] line)) as (a & b & E).
  assert (Hin' : In c (replaceAll reXE [] line))
    by (rewrite E; apply in_or_app; right; apply in_or_app; left; exact Hin).
  unfold replaceAll in Hin'. eapply replaceAllFrom_delete. exact Hin'.
Qed.

Lemma isRecipeTitle_needs_witness :
  (3 <= length (trim (replaceAll reXE [] (js "POLLO AL HORNO"))))%nat
  /\ isIndexEntry (js "POLLO AL HORNO") = false
  /\ exists c, In c (js "POLLO AL HORNO") /\ isUpperLetter c = true.
Proof.
  apply isRecipeTitle_needs. vm_compute. reflexivity.
Defined.
